(** * text-video: ASCII conversion and terminal playback

    A shallow embedding of [video_to_ascii/converter.py] (class
    [AsciiConverter]) and [video_to_ascii/player.py] (class
    [TerminalPlayer]), followed by the properties of the design document
    that were checked against it.

    Layout:
    - [Py]        : the Python/NumPy/Pillow primitives the two classes use
                    (exceptions, [int()], indexing, slicing, uint8 arrays);
    - [PyFloat]   : the float operations.  The program runs them in
                    [binary64] (IEEE 754 doubles, what CPython and NumPy
                    compute); [exact] (rationals, no rounding) is the
                    arithmetic in which the design document states its
                    formulas, kept as the reference the program is
                    compared with;
    - [AsciiConverter], [TerminalPlayer] : the two classes;
    - [VideoFrameExtractor] : [video_to_ascii/core.py] over a model of
                    the OpenCV capture it wraps;
    - [Main]      : the width selection and the conversion loop of
                    [main.py];
    - the binary64 operations related to rounding of rationals;
    - the theorems. *)

From Stdlib Require Import ZArith QArith Qpower Qround Qminmax Qabs Floats.
From Stdlib Require Import List String Ascii Bool Lia Lra Psatz DecimalString.
From Stdlib Require Import Morphisms.
Import ListNotations.

Set Warnings "-inexact-float".
Local Open Scope string_scope.
Local Open Scope list_scope.
Local Open Scope Z_scope.

(* ================================================================= *)
(** ** Python primitives *)

Module Py.

(** The exceptions that occur in the two modules. *)
Inductive exn : Type :=
| ZeroDivisionError
| ValueError
| OverflowError
| IndexError
| AttributeError
| OSError
| KeyboardInterrupt.

(** A call either returns a value or raises. *)
Inductive result (A : Type) : Type :=
| Ok (a : A)
| Raise (e : exn).
Arguments Ok {A} a.
Arguments Raise {A} e.

Definition bind {A B} (r : result A) (k : A -> result B) : result B :=
  match r with
  | Ok a => k a
  | Raise e => Raise e
  end.

Declare Scope py_scope.
Delimit Scope py_scope with py.
Notation "x <- c ;; k" := (bind c (fun x => k))
  (at level 61, c at next level, right associativity) : py_scope.

(** [[f(x) for x in l]] where [f] may raise: the first exception wins. *)
Fixpoint mapM {A B} (f : A -> result B) (l : list A) : result (list B) :=
  match l with
  | [] => Ok []
  | x :: l' =>
      bind (f x) (fun y => bind (mapM f l') (fun ys => Ok (y :: ys)))
  end.

Definition len {A} (l : list A) : Z := Z.of_nat (List.length l).
Definition str_len (s : string) : Z := Z.of_nat (String.length s).

(** [l[i]]: a negative index counts from the end, anything outside
    [-len, len) raises [IndexError]. *)
Definition getitem {A} (l : list A) (i : Z) : result A :=
  let j := if i <? 0 then len l + i else i in
  if j <? 0 then Raise IndexError
  else match nth_error l (Z.to_nat j) with
       | Some a => Ok a
       | None => Raise IndexError
       end.

Definition str_getitem (s : string) (i : Z) : result ascii :=
  getitem (list_ascii_of_string s) i.

(** [l[:k]]: a negative [k] drops the last [-k] items. *)
Definition slice_to {A} (l : list A) (k : Z) : list A :=
  if k <? 0 then firstn (Z.to_nat (len l + k)) l
  else firstn (Z.to_nat k) l.

Definition NL : ascii := ascii_of_nat 10.
Definition ESC : ascii := ascii_of_nat 27.

(** [s.split(sep)] for a one-character separator: never the empty list. *)
Fixpoint split (sep : ascii) (s : string) : list string :=
  match s with
  | EmptyString => [EmptyString]
  | String a s' =>
      if Ascii.eqb a sep then EmptyString :: split sep s'
      else match split sep s' with
           | h :: t => String a h :: t
           | [] => [String a EmptyString]
           end
  end.

(** [sep.join(l)]. *)
Fixpoint join (sep : string) (l : list string) : string :=
  match l with
  | [] => EmptyString
  | [s] => s
  | s :: l' => (s ++ sep ++ join sep l')%string
  end.

(** NumPy [uint8] subtraction: the result stays [uint8] and wraps
    modulo 256 (the integer operand 128 fits the array's type, so no
    promotion takes place). *)
Definition uint8_sub (p k : Z) : Z := (p - k) mod 256.

(** [str(n)] and [f"{n}"] on an int. *)
Definition str_of_int (n : Z) : string := NilZero.string_of_int (Z.to_int n).

End Py.
Import Py.
Local Open Scope py_scope.

(* ================================================================= *)
(** ** Float arithmetic *)

(** The operations the two classes perform on Python floats and NumPy
    [float64] values. *)
Class PyFloat (F : Type) : Type := {
  of_int : Z -> F;            (* an int operand promoted to float *)
  of_dec : Q -> F;            (* a decimal literal: 0.5, 0.7, 0.9, 1.0 *)
  fadd : F -> F -> F;
  fmul : F -> F -> F;
  fdiv : F -> F -> F;         (* divisor known to be non-zero *)
  feqb : F -> F -> bool;      (* == *)
  minimum : F -> F -> F;      (* np.minimum *)
  maximum : F -> F -> F;      (* np.maximum *)
  to_int : F -> result Z      (* int(x): truncation toward zero *)
}.

(** *** IEEE 754 binary64 *)

Module Binary64.

(** The double nearest to an integer. *)
Definition of_Z (z : Z) : float :=
  SF2Prim (binary_normalize prec emax z 0 false).

(** [int(x)]: [ValueError] on NaN, [OverflowError] on an infinity,
    otherwise the integer part. *)
Definition trunc (x : float) : result Z :=
  match Prim2SF x with
  | S754_zero _ => Ok 0
  | S754_finite s m e =>
      let mag := if 0 <=? e then Z.shiftl (Z.pos m) e
                 else Z.shiftr (Z.pos m) (- e) in
      Ok (if s then - mag else mag)
  | S754_infinity _ => Raise OverflowError
  | S754_nan => Raise ValueError
  end.

Definition fmin (x y : float) : float :=
  if PrimFloat.is_nan x then x
  else if PrimFloat.is_nan y then y
  else if PrimFloat.ltb y x then y else x.

Definition fmax (x y : float) : float :=
  if PrimFloat.is_nan x then x
  else if PrimFloat.is_nan y then y
  else if PrimFloat.ltb x y then y else x.

End Binary64.

#[export] Instance binary64 : PyFloat float := {
  of_int := Binary64.of_Z;
  of_dec := fun q => PrimFloat.div (Binary64.of_Z (Qnum q))
                                   (Binary64.of_Z (Z.pos (Qden q)));
  fadd := PrimFloat.add;
  fmul := PrimFloat.mul;
  fdiv := PrimFloat.div;
  feqb := PrimFloat.eqb;
  minimum := Binary64.fmin;
  maximum := Binary64.fmax;
  to_int := Binary64.trunc
}.

(** *** The arithmetic of the design document

    The same operations on rationals: no rounding, no NaN, no infinity,
    and an [int()] that cannot fail.  This is not what the program
    computes.  It is the arithmetic in which the design document writes
    its formulas, and serves as the reference: a statement over
    [exact] describes the program only where the binary64 operations
    involved are shown not to round (integer samples, the contrast 0),
    and the statements about rounding, NaN, overflow and what the
    program returns are made over [binary64]. *)

Definition Qtrunc (q : Q) : Z := Z.quot (Qnum q) (Z.pos (Qden q)).

#[export] Instance exact : PyFloat Q := {
  of_int := inject_Z;
  of_dec := fun q => q;
  fadd := Qplus;
  fmul := Qmult;
  fdiv := Qdiv;
  feqb := Qeq_bool;
  minimum := Qmin;
  maximum := Qmax;
  to_int := fun q => Ok (Qtrunc q)
}.

(** [a / b] on two Python ints: the correctly rounded quotient (the
    operands convert without error below 2^53, which pixel and
    character counts are). *)
Definition truediv {F} `{PyFloat F} (a b : Z) : result F :=
  if b =? 0 then Raise ZeroDivisionError
  else Ok (fdiv (of_int a) (of_int b)).

(** [x / y] on two Python floats. *)
Definition float_truediv {F} `{PyFloat F} (x y : F) : result F :=
  if feqb y (of_int 0) then Raise ZeroDivisionError
  else Ok (fdiv x y).

(** *** Comparison, and the builtins [min] and [max] *)

Class PyFloatOrd (F : Type) : Type := {
  flt : F -> F -> bool        (* < *)
}.

#[export] Instance binary64_ord : PyFloatOrd float := {
  flt := PrimFloat.ltb
}.

#[export] Instance exact_ord : PyFloatOrd Q := {
  flt := fun x y => negb (Qle_bool y x)
}.

(** [min(a, b)]: [b] when [b < a], otherwise [a]. *)
Definition py_min {F} `{PyFloatOrd F} (a b : F) : F :=
  if flt b a then b else a.

(** [max(a, b)]: [b] when [b > a], otherwise [a]. *)
Definition py_max {F} `{PyFloatOrd F} (a b : F) : F :=
  if flt a b then b else a.

(* ================================================================= *)
(** ** Pillow images *)

Module PIL.

(** An image as the converter sees it: its size, and the samples the
    resampling filter followed by the luma conversion produces for a
    requested size, i.e.
    [np.array(img.resize((w, h), LANCZOS).convert('L'))], an array of
    [h] rows of [w] [uint8] samples. *)
Record Image : Type := {
  width : Z;
  height : Z;
  gray : Z -> Z -> list (list Z)
}.

(** [img.resize((w, h), ...)] followed by [convert('L')] and
    [np.array].  Pillow returns a copy when the requested size is the
    image's own, and otherwise rejects a size with a component below 1
    with [ValueError] (height and width must be > 0). *)
Definition resize_gray (img : Image) (w h : Z) : result (list (list Z)) :=
  if (w =? width img) && (h =? height img) then Ok (gray img w h)
  else if (w <? 1) || (h <? 1) then Raise ValueError
  else Ok (gray img w h).

(** The arrays Pillow produces: [h] rows of [w] samples in [0, 255]. *)
Definition well_formed (img : Image) : Prop :=
  forall w h,
    List.length (gray img w h) = Z.to_nat h /\
    Forall (fun row => List.length row = Z.to_nat w /\
                       Forall (fun p => 0 <= p <= 255) row)
           (gray img w h).

End PIL.

(* ================================================================= *)
(** ** converter.py *)

Module AsciiConverter.
Section WithFloat.
Context {F : Type} `{PyFloat F}.

Record t : Type := {
  charset : string;
  contrast : F
}.

Definition DEFAULT_CHARSET : string := " .:-=+*#%@".

(** [self.charset = charset or self.DEFAULT_CHARSET]: [None] and the
    empty string are both falsy. *)
Definition __init__ (charset : option string) (contrast : F) : t :=
  {| charset := match charset with
                | Some (String a s) => String a s
                | Some EmptyString | None => DEFAULT_CHARSET
                end;
     contrast := contrast |}.

(** Lines 41-42 and 93-94. *)
Definition target_height (img : PIL.Image) (width : Z) : result Z :=
  aspect_ratio <- truediv (PIL.height img) (PIL.width img) ;;
  to_int (fmul (fmul (of_int width) aspect_ratio) (of_dec 0.5)).

(** Lines 55-56 and 105-106 on one sample of the [uint8] array.  The
    subtraction stays in [uint8]; the contrast is a Python float (the
    default 1.0, or what [argparse] makes of [--contrast] with
    [type=float]), so the product and the sum are [float64]. *)
Definition adjust (self : t) (pixel : Z) : F :=
  minimum
    (maximum
       (fadd (fmul (of_int (uint8_sub pixel 128)) (contrast self))
             (of_int 128))
       (of_int 0))
    (of_int 255).

(** Lines 54-56 and 104-106. *)
Definition apply_contrast (self : t) (pixels : list (list Z))
  : list (list F) :=
  if negb (feqb (contrast self) (of_dec 1.0))
  then map (map (adjust self)) pixels
  else map (map of_int) pixels.

(** The local [char_index] of [_pixel_to_char] after line 76. *)
Definition char_index (self : t) (gray_value : F) : result Z :=
  char_index <- to_int (fmul (fdiv gray_value (of_int 256))
                             (of_int (str_len (charset self)))) ;;
  Ok (Z.min char_index (str_len (charset self) - 1)).

Definition _pixel_to_char (self : t) (gray_value : F) : result ascii :=
  char_index <- char_index self gray_value ;;
  str_getitem (charset self) char_index.

(** Lines 59-64 and 109-114. *)
Definition to_lines (self : t) (pixels : list (list F)) : result string :=
  ascii_lines <-
    mapM (fun row =>
            line <- mapM (_pixel_to_char self) row ;;
            Ok (string_of_list_ascii line))
         pixels ;;
  Ok (join (String NL EmptyString) ascii_lines).

(** [frame] is the decoded video frame, already viewed as an image
    ([Image.fromarray] of the channel-reversed array). *)
Definition convert_frame (self : t) (frame : PIL.Image) (width : Z)
  : result string :=
  height <- target_height frame width ;;
  pixels <- PIL.resize_gray frame width height ;;
  to_lines self (apply_contrast self pixels).

(** [image] is what [Image.open(image_path).convert('RGB')] returned. *)
Definition convert_image (self : t) (image : PIL.Image) (width : Z)
  : result string :=
  height <- target_height image width ;;
  pixels <- PIL.resize_gray image width height ;;
  to_lines self (apply_contrast self pixels).

End WithFloat.
Arguments t F : clear implicits.
End AsciiConverter.

(* ================================================================= *)
(** ** player.py *)

Module TerminalPlayer.

(** *** The terminal and the process environment *)

(** The three places a terminal size is asked from:
    [shutil.get_terminal_size], [popen('stty size')] and
    [popen('tput lines && tput cols')]. *)
Inductive source : Type := Shutil | Stty | Tput.

(** What the environment answers during one run of
    [_update_terminal_size].  [shutil_size] is [Ok None] when the
    library finds no terminal and hands back its [fallback] argument.
    The output of a command is the token list [read().split()] yields;
    a token is [Some n] when [int(token)] is [n] and [None] when
    [int(token)] raises [ValueError]. *)
Record probe : Type := {
  shutil_size : result (option (Z * Z));       (* (columns, lines) *)
  stty_output : result (list (option Z));
  tput_output : result (list (option Z))
}.

(** What the environment does during one iteration of the playback
    loop: the answers to the size probe of [render_frame], and whether
    the writes to stdout and the sleep complete or raise (an interrupt
    arriving there is [Raise KeyboardInterrupt]). *)
Record tick : Type := {
  tick_probe : probe;
  tick_draw : result unit;
  tick_sleep : result unit
}.

Record world : Type := {
  start : probe;              (* the probe before the loop *)
  ticks : list tick           (* one entry per loop iteration *)
}.

(** A method returns, raises, or is still running when the description
    of the environment ends. *)
Inductive outcome (A : Type) : Type :=
| Returns (a : A)
| Raises (e : exn)
| Running.
Arguments Returns {A} a.
Arguments Raises {A} e.
Arguments Running {A}.

Section WithFloat.
Context {F : Type} `{PyFloat F} `{PyFloatOrd F}.

(** What the process does, in order. *)
Inductive event : Type :=
| Query (s : source)
| Write (s : string)
| Flush
| Sleep (seconds : F)
| Print (s : string).

Record t : Type := {
  fps : F;
  frame_duration : F;
  terminal_width : Z;
  terminal_height : Z
}.

(** *** Methods as state transformers

    A method runs on the object, may change its fields and leaves a
    trace of events. *)

Definition M (A : Type) : Type := t -> outcome A * t * list event.

Definition ret {A} (a : A) : M A := fun self => (Returns a, self, []).

Definition seq {A B} (c : M A) (k : A -> M B) : M B :=
  fun self =>
    match c self with
    | (Returns a, self1, tr1) =>
        let '(o, self2, tr2) := k a self1 in (o, self2, tr1 ++ tr2)
    | (Raises e, self1, tr1) => (Raises e, self1, tr1)
    | (Running, self1, tr1) => (Running, self1, tr1)
    end.

Notation "x <-- c ;; k" := (seq c (fun x => k))
  (at level 61, c at next level, right associativity).
Notation "c ;;; k" := (seq c (fun _ => k))
  (at level 61, right associativity).

Definition lift {A} (r : result A) : M A :=
  fun self => match r with
              | Ok a => (Returns a, self, [])
              | Raise e => (Raises e, self, [])
              end.

Definition emit (e : event) : M unit := fun self => (Returns tt, self, [e]).
Definition get : M t := fun self => (Returns self, self, []).
Definition running {A} : M A := fun self => (Running, self, []).

(** [try: c  except <catches>: handler].  Field updates and events of
    [c] up to the exception stay. *)
Definition try_except {A} (c : M A) (catches : exn -> bool) (handler : M A)
  : M A :=
  fun self =>
    match c self with
    | (Raises e, self1, tr1) =>
        if catches e
        then let '(o, self2, tr2) := handler self1 in (o, self2, tr1 ++ tr2)
        else (Raises e, self1, tr1)
    | r => r
    end.

Definition bare_except (_ : exn) : bool := true.

Definition set_terminal_width (w : Z) : M unit :=
  fun self => (Returns tt,
               {| fps := fps self; frame_duration := frame_duration self;
                  terminal_width := w;
                  terminal_height := terminal_height self |}, []).

Definition set_terminal_height (h : Z) : M unit :=
  fun self => (Returns tt,
               {| fps := fps self; frame_duration := frame_duration self;
                  terminal_width := terminal_width self;
                  terminal_height := h |}, []).

(** *** Library calls *)

Definition shutil_get_terminal_size (p : probe) (fallback : Z * Z)
  : M (Z * Z) :=
  emit (Query Shutil) ;;;
  size <-- lift (shutil_size p) ;;
  ret (match size with Some sz => sz | None => fallback end).

Definition popen_read_split (s : source) (out : result (list (option Z)))
  : M (list (option Z)) :=
  emit (Query s) ;;; lift out.

Definition int (token : option Z) : M Z :=
  match token with
  | Some n => ret n
  | None => lift (Raise ValueError)
  end.

(** Lines 45-51 and 54-59: [Some] is the [return] inside the [try],
    [None] is falling through to what follows. *)
Definition size_from (s : source) (out : result (list (option Z)))
  : M (option (Z * Z)) :=
  try_except
    (output <-- popen_read_split s out ;;
     if len output =? 2
     then (a <-- (x <-- lift (getitem output 0) ;; int x) ;;
           b <-- (x <-- lift (getitem output 1) ;; int x) ;;
           ret (Some (a, b)))
     else ret None)
    bare_except
    (ret None).

(** The nested [get_size] of [_update_terminal_size]. *)
Definition get_size (p : probe) : M (option (Z * Z)) :=
  r <-- size_from Stty (stty_output p) ;;
  match r with
  | Some sz => ret (Some sz)
  | None =>
      r <-- size_from Tput (tput_output p) ;;
      match r with
      | Some sz => ret (Some sz)
      | None => ret None
      end
  end.

(** *** Methods *)

Definition _update_terminal_size (p : probe) : M unit :=
  try_except
    (size <-- shutil_get_terminal_size p (80, 24) ;;
     set_terminal_width (fst size) ;;;
     set_terminal_height (snd size))
    (fun e => match e with
              | AttributeError | OSError => true
              | _ => false
              end)
    (ret tt) ;;;
  try_except
    (result <-- get_size p ;;
     match result with
     | Some (rows, cols) =>
         set_terminal_height rows ;;; set_terminal_width cols
     | None => ret tt
     end)
    bare_except
    (ret tt).

Definition __init__ (fps : F) (p : probe) : outcome t * list event :=
  match float_truediv (of_dec 1.0) fps with
  | Raise e => (Raises e, [])
  | Ok d =>
      match _update_terminal_size p
              {| fps := fps; frame_duration := d;
                 terminal_width := 80; terminal_height := 24 |} with
      | (Returns _, self, tr) => (Returns self, tr)
      | (Raises e, _, tr) => (Raises e, tr)
      | (Running, _, tr) => (Running, tr)
      end
  end.

Definition get_terminal_size (p : probe) : M (Z * Z) :=
  _update_terminal_size p ;;;
  self <-- get ;;
  ret (terminal_width self, terminal_height self).

(** Lines 99-118 of [calculate_frame_size]: what follows the sampling. *)
Definition fit_frame (video_width video_height : Z) : M (Z * Z) :=
  self <-- get ;;
  width <-- lift (to_int (fmul (of_int (terminal_width self)) (of_dec 0.7))) ;;
  aspect_ratio <-- lift (truediv video_height video_width) ;;
  height <-- lift (to_int (fmul (fmul (of_int width) aspect_ratio)
                                (of_dec 0.5))) ;;
  max_height <-- lift (to_int (fmul (of_int (terminal_height self))
                                    (of_dec 0.9))) ;;
  wh <-- (if height >? max_height
          then (let height := max_height in
                q <-- lift (float_truediv (of_int height)
                                          (fmul aspect_ratio (of_dec 0.5))) ;;
                width <-- lift (to_int q) ;;
                ret (width, height))
          else ret (width, height)) ;;
  ret (Z.max (fst wh) 20, Z.max (snd wh) 10).

Definition calculate_frame_size (p : probe) (video_width video_height : Z)
  : M (Z * Z) :=
  _update_terminal_size p ;;;
  fit_frame video_width video_height.

Definition CLEAR : string := (String ESC "[H" ++ String ESC "[J")%string.

Definition render_frame (frame : string) (max_lines : option Z) (tk : tick)
  : M unit :=
  _update_terminal_size (tick_probe tk) ;;;
  self <-- get ;;
  let max_lines := match max_lines with
                   | None => terminal_height self - 1
                   | Some m => m
                   end in
  let lines := split NL frame in
  let lines := if len lines >? max_lines then slice_to lines max_lines
               else lines in
  lift (tick_draw tk) ;;;
  emit (Write CLEAR) ;;;
  emit (Write (join (String NL EmptyString) lines)) ;;;
  emit Flush.

(** What [time.sleep] does with its argument before it sleeps
    (CPython, [time_sleep] and [pytime_from_double]): a NaN is a
    [ValueError]; the seconds are scaled to nanoseconds, rounded away
    from zero, and must fit a signed 64-bit count, or the call raises
    [OverflowError]; a negative count is a [ValueError].  On doubles
    the rounding changes neither comparison: at 2^63 in magnitude
    every double is an integer, and a negative double rounds to -1 or
    below.  (Before CPython 3.11 a count of exactly 2^63 passes the
    range check and is refused as negative instead; either way the
    call raises.) *)
Definition sleep_argument (seconds : F) : result unit :=
  if negb (feqb seconds seconds) then Raise ValueError
  else
    let ns := fmul seconds (of_int 1000000000) in
    if flt ns (of_int (- 2 ^ 63)) || negb (flt ns (of_int (2 ^ 63)))
    then Raise OverflowError
    else if flt ns (of_int 0) then Raise ValueError
    else Ok tt.

(** [time.sleep(seconds)]: once the argument is accepted, the
    environment decides whether the sleep completes. *)
Definition sleep (seconds : F) (tk : tick) : M unit :=
  lift (sleep_argument seconds) ;;;
  emit (Sleep seconds) ;;; lift (tick_sleep tk).

(** The [while True] loop of [play], one iteration per [tick]. *)
Fixpoint play_loop (frames : list string) (total_frames : Z) (loop : bool)
    (max_lines : Z) (frame_index : Z) (tks : list tick) : M unit :=
  match tks with
  | [] => running
  | tk :: tks' =>
      frame <-- lift (getitem frames frame_index) ;;
      render_frame frame (Some max_lines) tk ;;;
      self <-- get ;;
      sleep (frame_duration self) tk ;;;
      let frame_index := frame_index + 1 in
      if frame_index >=? total_frames
      then if loop
           then play_loop frames total_frames loop max_lines 0 tks'
           else ret tt
      else play_loop frames total_frames loop max_lines frame_index tks'
  end.

Definition STOPPED : string := String NL "Playback stopped by user".

Definition play (frames : list string) (loop : bool) (w : world) : M unit :=
  let total_frames := len frames in
  if total_frames =? 0 then emit (Print "No frames to play")
  else
    _update_terminal_size (start w) ;;;
    self <-- get ;;
    let max_lines := terminal_height self - 1 in
    let frame_index := 0 in
    try_except
      (play_loop frames total_frames loop max_lines frame_index (ticks w))
      (fun e => match e with KeyboardInterrupt => true | _ => false end)
      (emit (Print STOPPED)).

(** The status line of [play_with_progress] for the frame at index
    [i]. *)
Definition progress_line (i total_frames : Z) (self : t) : string :=
  ("Frame " ++ str_of_int (i + 1) ++ "/" ++ str_of_int total_frames
     ++ " | Terminal: " ++ str_of_int (terminal_width self)
     ++ "x" ++ str_of_int (terminal_height self))%string.

(** The [for i, frame in enumerate(frames)] loop of
    [play_with_progress], one [tick] per frame (its size probe is not
    consulted). *)
Fixpoint progress_loop (frames : list string) (i : Z)
    (total_frames max_lines : Z) (tks : list tick) : M unit :=
  match frames with
  | [] => ret tt
  | frame :: frames' =>
      match tks with
      | [] => running
      | tk :: tks' =>
          self <-- get ;;
          let progress := progress_line i total_frames self in
          let lines := split NL frame in
          let lines := if len lines >? max_lines
                       then slice_to lines max_lines else lines in
          lift (tick_draw tk) ;;;
          emit (Write CLEAR) ;;;
          emit (Write (progress ++ String NL EmptyString)%string) ;;;
          emit (Write (join (String NL EmptyString) lines)) ;;;
          emit Flush ;;;
          sleep (frame_duration self) tk ;;;
          progress_loop frames' (i + 1) total_frames max_lines tks'
      end
  end.

Definition play_with_progress (frames : list string) (w : world) : M unit :=
  let total_frames := len frames in
  if total_frames =? 0 then emit (Print "No frames to play")
  else
    _update_terminal_size (start w) ;;;
    self <-- get ;;
    let max_lines := terminal_height self - 2 in
    try_except
      (progress_loop frames 0 total_frames max_lines (ticks w))
      (fun e => match e with KeyboardInterrupt => true | _ => false end)
      (emit (Print STOPPED)).

End WithFloat.
Arguments t F : clear implicits.
Arguments event F : clear implicits.
Arguments M F A : clear implicits.

Section WithOrderedFloat.
Context {F : Type} `{PyFloat F} `{PyFloatOrd F}.

(** [self.fps] is assigned before the division. *)
Definition set_fps (fps : F) : M F unit :=
  fun self =>
    let fps := py_max (of_dec 1.0) (py_min fps (of_dec 60.0)) in
    match float_truediv (of_dec 1.0) fps with
    | Ok d =>
        (Returns tt,
         {| fps := fps; frame_duration := d;
            terminal_width := terminal_width self;
            terminal_height := terminal_height self |}, [])
    | Raise e =>
        (Raises e,
         {| fps := fps; frame_duration := frame_duration self;
            terminal_width := terminal_width self;
            terminal_height := terminal_height self |}, [])
    end.

End WithOrderedFloat.
End TerminalPlayer.

(* ================================================================= *)
(** ** OpenCV captures *)

Module cv2.
Section Capture.
Context {F Frame : Type}.

(** A video file as OpenCV decodes it: the properties it reports and
    the frames successive reads deliver before the first read that
    fails. *)
Record Video : Type := {
  v_fps : F;
  v_frame_count : Z;
  v_width : Z;
  v_height : Z;
  v_frames : list Frame
}.

(** A [cv2.VideoCapture]: the file it was given ([None] when it could
    not be opened), whether it was released, and the index of the next
    frame. *)
Record VideoCapture : Type := {
  source : option Video;
  released : bool;
  position : nat
}.

(** [cv2.VideoCapture(path)], [path] leading to [file]. *)
Definition VideoCapture_new (file : option Video) : VideoCapture :=
  {| source := file; released := false; position := 0 |}.

Definition isOpened (c : VideoCapture) : bool :=
  match source c with
  | Some _ => negb (released c)
  | None => false
  end.

(** [cap.read()]: the next frame, if the capture is open and has one. *)
Definition read (c : VideoCapture) : option Frame * VideoCapture :=
  match source c with
  | Some v =>
      if released c then (None, c)
      else match nth_error (v_frames v) (position c) with
           | Some f =>
               (Some f, {| source := source c; released := released c;
                           position := S (position c) |})
           | None => (None, c)
           end
  | None => (None, c)
  end.

(** [cap.set(cv2.CAP_PROP_POS_FRAMES, n)]. *)
Definition set_pos_frames (c : VideoCapture) (n : nat) : VideoCapture :=
  if isOpened c
  then {| source := source c; released := released c; position := n |}
  else c.

Definition release (c : VideoCapture) : VideoCapture :=
  {| source := source c; released := true; position := position c |}.

End Capture.
Arguments Video F Frame : clear implicits.
Arguments VideoCapture F Frame : clear implicits.
End cv2.

(* ================================================================= *)
(** ** core.py *)

Module VideoFrameExtractor.
Section WithFloat.
Context {F Frame : Type} `{PyFloat F}.

Record t : Type := {
  video_path : string;
  cap : option (cv2.VideoCapture F Frame);
  fps : F;
  frame_count : Z;
  width : Z;
  height : Z
}.

Definition __init__ (video_path : string) : t :=
  {| video_path := video_path; cap := None; fps := of_dec 0.0;
     frame_count := 0; width := 0; height := 0 |}.

(** [files] tells what each path leads to.  The capture object is
    stored even when it could not be opened.  OpenCV reports the frame
    count and the size as floats holding integers; [int()] gives them
    back. *)
Definition open (files : string -> option (cv2.Video F Frame)) (self : t)
  : bool * t :=
  let c := cv2.VideoCapture_new (files (video_path self)) in
  match cv2.source c with
  | None =>
      (false,
       {| video_path := video_path self; cap := Some c; fps := fps self;
          frame_count := frame_count self; width := width self;
          height := height self |})
  | Some v =>
      (true,
       {| video_path := video_path self; cap := Some c;
          fps := cv2.v_fps v; frame_count := cv2.v_frame_count v;
          width := cv2.v_width v; height := cv2.v_height v |})
  end.

Definition with_cap (self : t) (c : option (cv2.VideoCapture F Frame)) : t :=
  {| video_path := video_path self; cap := c; fps := fps self;
     frame_count := frame_count self; width := width self;
     height := height self |}.

Definition extract_frame (self : t) : option Frame * t :=
  match cap self with
  | None => (None, self)
  | Some c =>
      if negb (cv2.isOpened c) then (None, self)
      else let '(frame, c') := cv2.read c in (frame, with_cap self (Some c'))
  end.

(** The [while True] loop of [extract_all_frames]; [None] when [fuel]
    iterations did not reach the [break]. *)
Fixpoint extract_loop (fuel : nat) (frames : list Frame) (self : t)
  : option (list Frame * t) :=
  match fuel with
  | O => None
  | S fuel' =>
      match extract_frame self with
      | (None, self') => Some (frames, self')
      | (Some frame, self') => extract_loop fuel' (frames ++ [frame]) self'
      end
  end.

Definition extract_all_frames (fuel : nat) (self : t)
  : option (list Frame * t) :=
  extract_loop fuel [] self.

Definition reset (self : t) : t :=
  match cap self with
  | Some c => with_cap self (Some (cv2.set_pos_frames c 0))
  | None => self
  end.

(** [self.cap.release()] followed by [self.cap = None]. *)
Definition release (self : t) : t :=
  match cap self with
  | Some c => with_cap self None
  | None => self
  end.

(** [__enter__] returns the object whatever [open] answered. *)
Definition __enter__ (files : string -> option (cv2.Video F Frame))
    (self : t) : t :=
  snd (open files self).

Definition __exit__ (self : t) : t := release self.

End WithFloat.
Arguments t F Frame : clear implicits.
End VideoFrameExtractor.

(* ================================================================= *)
(** ** main.py: choosing the width and converting the frames *)

Module Main.
Section WithFloat.
Context {F : Type} `{PyFloat F}.

(** Lines 97-101.  [args_width] is [None] without [--width]; a width
    of 0 is falsy and is treated like none.  The state is the player
    [main] created on line 78. *)
Definition target_width (args_width : option Z) (p : TerminalPlayer.probe)
    (extractor_width extractor_height : Z) : TerminalPlayer.M F Z :=
  let negotiated :=
    TerminalPlayer.seq
      (TerminalPlayer.calculate_frame_size p extractor_width extractor_height)
      (fun wh =>
         TerminalPlayer.seq
           (TerminalPlayer.emit
              (TerminalPlayer.Print
                 ("ASCII frame size: " ++ str_of_int (fst wh)
                    ++ "x" ++ str_of_int (snd wh))%string))
           (fun _ => TerminalPlayer.ret (fst wh))) in
  match args_width with
  | Some w => if w =? 0 then negotiated else TerminalPlayer.ret w
  | None => negotiated
  end.

(** The progress message of line 113. *)
Definition converted_line (done total : Z) : string :=
  ("  Converted " ++ str_of_int done ++ "/" ++ str_of_int total
     ++ " frames")%string.

(** Lines 106-113: [frames] are the frames still to convert, [i] the
    index of the first of them, [total] is [len(frames)] of the whole
    list. *)
Fixpoint convert_loop (converter : AsciiConverter.t F)
    (frames : list PIL.Image) (i total : Z) (target_width : Z)
    (ascii_frames : list string) : TerminalPlayer.M F (list string) :=
  match frames with
  | [] => TerminalPlayer.ret ascii_frames
  | frame :: frames' =>
      TerminalPlayer.seq
        (TerminalPlayer.lift
           (AsciiConverter.convert_frame converter frame target_width))
        (fun ascii_frame =>
           let ascii_frames := ascii_frames ++ [ascii_frame] in
           TerminalPlayer.seq
             (if ((i + 1) mod 100 =? 0) || (i + 1 =? total)
              then TerminalPlayer.emit
                     (TerminalPlayer.Print (converted_line (i + 1) total))
              else TerminalPlayer.ret tt)
             (fun _ =>
                convert_loop converter frames' (i + 1) total target_width
                             ascii_frames))
  end.

Definition convert_frames (converter : AsciiConverter.t F)
    (frames : list PIL.Image) (target_width : Z)
  : TerminalPlayer.M F (list string) :=
  convert_loop converter frames 0 (len frames) target_width [].

End WithFloat.
End Main.

Module AC := AsciiConverter.
Module TP := TerminalPlayer.

(* ================================================================= *)
(** ** Vocabulary of the statements *)

(** *** What the design document prescribes *)

(** [clamp((luma - 128) * contrast + 128, 0, 255)] in ordinary signed
    arithmetic. *)
Definition contrast_formula (contrast luma : Q) : Q :=
  Qmin (Qmax ((luma - 128) * contrast + 128) 0) 255.

(** Rounding to the nearest integer. *)
Definition round_nearest (q : Q) : Z := Qfloor (q + (1 # 2)).

(** [round(targetWidth * (image.height / image.width) * 0.5)]. *)
Definition rounded_target_height (target_width w h : Z) : Z :=
  round_nearest (inject_Z target_width * (inject_Z h / inject_Z w) * 0.5).

(** *** Observations on the model *)

Definition ramp_length (self : AC.t Q) : Z := str_len (AC.charset self).

(** The size a command reports: exactly two tokens, both integers. *)
Definition reported (out : result (list (option Z))) : option (Z * Z) :=
  match out with
  | Ok [Some a; Some b] => Some (a, b)
  | _ => None
  end.

(** The (rows, columns) pair of the external commands, stty first. *)
Definition external_size (p : TP.probe) : option (Z * Z) :=
  match reported (TP.stty_output p) with
  | Some sz => Some sz
  | None => reported (TP.tput_output p)
  end.

(** The commands run during one sampling. *)
Definition external_queries (p : TP.probe) : list TP.source :=
  match reported (TP.stty_output p) with
  | Some _ => [TP.Stty]
  | None => [TP.Stty; TP.Tput]
  end.

(** An exception of the direct query that [_update_terminal_size] does
    not catch. *)
Definition escapes (p : TP.probe) : option exn :=
  match TP.shutil_size p with
  | Raise AttributeError | Raise OSError => None
  | Raise e => Some e
  | Ok _ => None
  end.

Section Observations.
Context {F : Type} `{PyFloat F}.

Definition with_size (self : TP.t F) (columns lines : Z) : TP.t F :=
  {| TP.fps := TP.fps self;
     TP.frame_duration := TP.frame_duration self;
     TP.terminal_width := columns;
     TP.terminal_height := lines |}.

(** The size the direct query leaves in the object. *)
Definition direct_size (p : TP.probe) (self : TP.t F) : Z * Z :=
  match TP.shutil_size p with
  | Ok (Some sz) => sz
  | Ok None => (80, 24)
  | Raise _ => (TP.terminal_width self, TP.terminal_height self)
  end.

(** [max_height] of [calculate_frame_size]: [int(rows * 0.9)]. *)
Definition max_height (rows : Z) : result Z :=
  to_int (fmul (of_int rows) (of_dec 0.9)).

(** The text [render_frame] writes for a frame under a line bound. *)
Definition clipped (max_lines : Z) (frame : string) : string :=
  let lines := split NL frame in
  join (String NL EmptyString)
       (if len lines >? max_lines then slice_to lines max_lines else lines).

End Observations.

(** *** Sample inputs *)

(** A picture whose every resampled sample is [g]. *)
Definition flat_image (w h g : Z) : PIL.Image :=
  {| PIL.width := w;
     PIL.height := h;
     PIL.gray := fun w' h' => repeat (repeat g (Z.to_nat w')) (Z.to_nat h') |}.

(** A picture that resamples to the given rows whatever the size. *)
Definition fixed_image (w h : Z) (rows : list (list Z)) : PIL.Image :=
  {| PIL.width := w; PIL.height := h; PIL.gray := fun _ _ => rows |}.

(** A terminal whose direct query reports the given size and on which
    neither command reports one. *)
Definition sized (columns lines : Z) : TP.probe :=
  {| TP.shutil_size := Ok (Some (columns, lines));
     TP.stty_output := Ok [];
     TP.tput_output := Ok [] |}.

(** An iteration without interrupt. *)
Definition calm (p : TP.probe) : TP.tick :=
  {| TP.tick_probe := p; TP.tick_draw := Ok tt; TP.tick_sleep := Ok tt |}.

(** A player at 30 frames per second, as its constructor leaves it on
    an 80x24 terminal. *)
Definition player0 : TP.t float :=
  {| TP.fps := of_dec 30;
     TP.frame_duration := fdiv (of_dec 1.0) (of_dec 30);
     TP.terminal_width := 80;
     TP.terminal_height := 24 |}.

(** Events of one sampling on a terminal where neither command
    reports a size, and of one draw. *)
Definition sampling : list (TP.event float) :=
  [TP.Query TP.Shutil; TP.Query TP.Stty; TP.Query TP.Tput].

Definition drawing (text : string) : list (TP.event float) :=
  [TP.Write TP.CLEAR; TP.Write text; TP.Flush].

Definition pause : list (TP.event float) :=
  [TP.Sleep (TP.frame_duration player0)].

Definition lines_of (l : list string) : string :=
  join (String NL EmptyString) l.

(** A frame of five lines. *)
Definition five_lines : string := lines_of ["1"; "2"; "3"; "4"; "5"].

(** An iteration during which the interrupt arrives while the output
    of [stty size] is being read. *)
Definition interrupted_in_stty : TP.tick :=
  {| TP.tick_probe := {| TP.shutil_size := Ok (Some (80, 24));
                         TP.stty_output := Raise KeyboardInterrupt;
                         TP.tput_output := Ok [] |};
     TP.tick_draw := Ok tt;
     TP.tick_sleep := Ok tt |}.

(** An iteration during which the interrupt arrives in the sleep. *)
Definition interrupted_in_sleep : TP.tick :=
  {| TP.tick_probe := sized 80 24;
     TP.tick_draw := Ok tt;
     TP.tick_sleep := Raise KeyboardInterrupt |}.

(** A terminal whose direct size query is interrupted. *)
Definition interrupted_in_shutil : TP.probe :=
  {| TP.shutil_size := Raise KeyboardInterrupt;
     TP.stty_output := Ok [];
     TP.tput_output := Ok [] |}.

Definition ten_frames : list string :=
  ["f1"; "f2"; "f3"; "f4"; "f5"; "f6"; "f7"; "f8"; "f9"; "f10"].

Definition Z_range (lo n : nat) : list Z := map Z.of_nat (seq lo n).

Definition ramp_of_length (n : Z) : string :=
  string_of_list_ascii (repeat "#"%char (Z.to_nat n)).

Definition same_result (a b : result Z) : bool :=
  match a, b with
  | Ok x, Ok y => x =? y
  | _, _ => false
  end.

(** The same player in exact arithmetic. *)
Definition player0_exact : TP.t Q :=
  {| TP.fps := 30%Q;
     TP.frame_duration := (1 / 30)%Q;
     TP.terminal_width := 80;
     TP.terminal_height := 24 |}.

(** *** Extraction and conversion *)

Module VFE := VideoFrameExtractor.

Section ExtractionVocabulary.
Context {F Frame : Type} `{PyFloat F}.

(** A capture of [v], not released, about to deliver frame [n]. *)
Definition capture_at (v : cv2.Video F Frame) (n : nat)
  : cv2.VideoCapture F Frame :=
  {| cv2.source := Some v; cv2.released := false; cv2.position := n |}.

(** The extractor holds an open capture of [v] at frame [n]. *)
Definition opened_at (v : cv2.Video F Frame) (n : nat)
    (self : VFE.t F Frame) : Prop :=
  VFE.cap self = Some (capture_at v n).

(** The extractor holds no capture, or one that is not open. *)
Definition closed (self : VFE.t F Frame) : Prop :=
  match VFE.cap self with
  | None => True
  | Some c => cv2.isOpened c = false
  end.

(** The same extractor with its capture of [v] moved to frame [n]. *)
Definition moved_to (v : cv2.Video F Frame) (n : nat)
    (self : VFE.t F Frame) : VFE.t F Frame :=
  VFE.with_cap self (Some (capture_at v n)).

(** The file system in which [path] leads to [file]. *)
Definition only_file (path : string) (file : option (cv2.Video F Frame))
  : string -> option (cv2.Video F Frame) :=
  fun q => if String.eqb q path then file else None.

End ExtractionVocabulary.

(** The progress messages of the conversion of frames number
    [i + 1 .. i + n] out of [total]. *)
Fixpoint conversion_reports {F} (i total : Z) (n : nat)
  : list (TP.event F) :=
  match n with
  | O => []
  | S n' =>
      (if ((i + 1) mod 100 =? 0) || (i + 1 =? total)
       then [TP.Print (Main.converted_line (i + 1) total)] else [])
      ++ conversion_reports (i + 1) total n'
  end.

(** *** Traces of the playback loops *)

Section TraceVocabulary.
Context {F : Type} `{PyFloat F}.

(** An iteration in which nothing raises. *)
Definition calm_tick (tk : TP.tick) : Prop :=
  escapes (TP.tick_probe tk) = None /\
  TP.tick_draw tk = Ok tt /\
  TP.tick_sleep tk = Ok tt.

(** An iteration whose draw and sleep complete. *)
Definition quiet_tick (tk : TP.tick) : Prop :=
  TP.tick_draw tk = Ok tt /\ TP.tick_sleep tk = Ok tt.

(** The object after one sampling. *)
Definition sampled (p : TP.probe) (self : TP.t F) : TP.t F :=
  snd (fst (TP._update_terminal_size p self)).

Definition sampling_events (p : TP.probe) : list (TP.event F) :=
  TP.Query TP.Shutil :: map TP.Query (external_queries p).

(** One iteration of [play]: sampling, drawing the frame clipped to
    [max_lines], sleeping. *)
Definition iteration_events (seconds : F) (max_lines : Z) (frame : string)
    (tk : TP.tick) : list (TP.event F) :=
  sampling_events (TP.tick_probe tk)
    ++ [TP.Write TP.CLEAR; TP.Write (clipped max_lines frame); TP.Flush;
        TP.Sleep seconds].

(** Successive iterations of [play] over the given frames. *)
Fixpoint loop_events (seconds : F) (max_lines : Z) (frames : list string)
    (tks : list TP.tick) : list (TP.event F) :=
  match frames, tks with
  | frame :: frames', tk :: tks' =>
      iteration_events seconds max_lines frame tk
        ++ loop_events seconds max_lines frames' tks'
  | _, _ => []
  end.

(** The sizes the object goes through: after the sampling of each
    iteration in turn. *)
Fixpoint sampled_through (tks : list TP.tick) (self : TP.t F) : TP.t F :=
  match tks with
  | [] => self
  | tk :: tks' => sampled_through tks' (sampled (TP.tick_probe tk) self)
  end.

(** The frames a looping playback shows in its first [k] iterations,
    starting at index [i]. *)
Definition cycled (frames : list string) (i : Z) (k : nat) : list string :=
  map (fun j => nth (Z.to_nat ((i + Z.of_nat j) mod len frames)) frames
                    EmptyString)
      (seq 0 k).

(** Successive iterations of [play_with_progress], the frame at index
    [i] first. *)
Fixpoint progress_events (self : TP.t F) (max_lines : Z)
    (frames : list string) (i total : Z) : list (TP.event F) :=
  match frames with
  | [] => []
  | frame :: frames' =>
      [TP.Write TP.CLEAR;
       TP.Write (TP.progress_line i total self ++ String NL EmptyString)%string;
       TP.Write (clipped max_lines frame); TP.Flush;
       TP.Sleep (TP.frame_duration self)]
        ++ progress_events self max_lines frames' (i + 1) total
  end.

End TraceVocabulary.

(** *** Binary64 numbers as rationals

    The vocabulary in which the results of the binary64 operations are
    stated: the value of a finite double as a rational, and rounding to
    nearest, ties to even, of a rational to the binary64 format
    (precision 53, exponents -1074 to 971 on integer significands). *)

(** Powers of two as rationals. *)
Definition pow2 (k : Z) : Q := Qpower 2 k.

(** The binade of a positive rational: 2^(mag x - 1) <= x < 2^(mag x). *)
Definition mag (x : Q) : Z :=
  let k := Z.log2 (Qnum x) - Z.log2 (Zpos (Qden x)) in
  if Qle_bool (pow2 k) x then k + 1 else k.

(** Rounding a rational to the nearest integer, ties to even. *)
Definition rne (y : Q) : Z :=
  let f := Qfloor y in
  match Qcompare (y - inject_Z f) (1 # 2) with
  | Lt => f
  | Gt => f + 1
  | Eq => if Z.even f then f else f + 1
  end.

(** The exponent of the binary64 number nearest to [x]. *)
Definition cexp (x : Q) : Z := Z.max (mag x - 53) (-1074).

(** Rounding a positive rational to binary64, overflow apart. *)
Definition RN (x : Q) : Q := inject_Z (rne (x / pow2 (cexp x))) * pow2 (cexp x).

(** Numbers that binary64 holds (overflow apart). *)
Definition representable (x : Q) : Prop :=
  exists M E, 0 < M < 2 ^ 53 /\ -1074 <= E <= 971 /\ (x == inject_Z M * pow2 E)%Q.

(** Where a rational sits between two consecutive integers. *)
Definition loc_of (m : Z) (y : Q) : location :=
  if Qeq_bool y (inject_Z m) then loc_Exact
  else loc_Inexact (Qcompare (y - inject_Z m) (1 # 2)).

(** [y] lies in [m, m + 1) at the location [l]: how [SpecFloat]
    records the digits a shift has dropped. *)
Definition inbetween (m : Z) (l : location) (y : Q) : Prop :=
  (inject_Z m <= y < inject_Z m + 1)%Q /\ l = loc_of m y.

(** What [binary_round_aux] returns for a positive quantity [x]. *)
Definition rounded (s : bool) (x : Q) (f : spec_float) : Prop :=
  match f with
  | S754_zero s' => s' = s /\ (RN x == 0)%Q
  | S754_finite s' m' e' =>
      s' = s /\ (inject_Z (Z.pos m') * pow2 e' == RN x)%Q /\
      bounded prec emax m' e' = true
  | S754_infinity s' => s' = s /\ (pow2 1024 <= RN x)%Q
  | S754_nan => False
  end.

(** Zeros and finite numbers, as opposed to infinities and NaN. *)
Definition SFfinite (f : spec_float) : bool :=
  match f with
  | S754_zero _ | S754_finite _ _ _ => true
  | _ => false
  end.

(** The magnitude and the value of a finite number (0 for the others). *)
Definition SFabsQ (f : spec_float) : Q :=
  match f with
  | S754_finite _ m e => inject_Z (Z.pos m) * pow2 e
  | _ => 0
  end.

(** The sign bit ([true] for negative). *)
Definition SFsign (f : spec_float) : bool :=
  match f with
  | S754_zero s | S754_infinity s | S754_finite s _ _ => s
  | S754_nan => false
  end.

(** The value of a zero or a finite number. *)
Definition SF2Q (f : spec_float) : Q :=
  if SFsign f then (- SFabsQ f)%Q else SFabsQ f.

(** [q] with the sign [s]. *)
Definition cond_Qopp (s : bool) (q : Q) : Q := if s then (- q)%Q else q.

(** [f] is what rounding the real number [q] to binary64 gives. *)
Definition rounding_of (q : Q) (f : spec_float) : Prop :=
  ((q == 0)%Q -> SFfinite f = true /\ (SF2Q f == 0)%Q) /\
  ((0 < q)%Q -> rounded false q f) /\
  ((q < 0)%Q -> rounded true (- q) f).

(** The value of a double that is a zero or a finite number; statements
    that use it also say that the double is [finite]. *)
Definition B2Q (x : float) : Q := SF2Q (Prim2SF x).

(** The double is neither an infinity nor a NaN. *)
Definition finite (x : float) : Prop := SFfinite (Prim2SF x) = true.

(** Rounding to binary64 of a rational that may be zero: [RN] on the
    positive rationals, 0 below. *)
Definition RN0 (q : Q) : Q := if Qlt_le_dec 0 q then RN q else 0%Q.

(** The product [gray_value / 256 * len(charset)] as binary64 computes
    it: the quotient is rounded, then the product. *)
Definition scaled_luminance (n : Z) (v : Q) : Q :=
  RN0 (RN0 (v / 256) * RN (inject_Z n)).

(* ================================================================= *)
(** ** Binary64 arithmetic: what the operations compute

    The operations of [PrimFloat] are specified by [FloatAxioms] through
    the functions of [SpecFloat].  This part proves that those functions
    round to nearest, ties to even: a multiplication, division or
    addition of finite doubles returns [RN] of the exact result, or an
    infinity on overflow. *)

Lemma pow2_pos k : (0 < pow2 k)%Q.
Proof. apply Qpower_0_lt. reflexivity. Qed.

Lemma pow2_add a b : (pow2 (a + b) == pow2 a * pow2 b)%Q.
Proof. apply Qpower_plus. discriminate. Qed.

Lemma pow2_succ k : (pow2 (k + 1) == 2 * pow2 k)%Q.
Proof. rewrite pow2_add. change (pow2 1) with 2%Q. ring. Qed.

Lemma pow2_pred k : (pow2 (k - 1) == pow2 k * (1 # 2))%Q.
Proof.
  assert (E := pow2_succ (k - 1)). replace (k - 1 + 1) with k in E by ring.
  rewrite E. field.
Qed.

Lemma pow2_le a b : a <= b -> (pow2 a <= pow2 b)%Q.
Proof. intros. apply Qpower_le_compat_l; [assumption | discriminate]. Qed.

Lemma pow2_lt_inv a b : (pow2 a < pow2 b)%Q -> a < b.
Proof. intros. apply (Qpower_lt_compat_l_inv 2); [assumption | reflexivity]. Qed.

Lemma pow2_inject k : 0 <= k -> (pow2 k == inject_Z (2 ^ k))%Q.
Proof. intros. unfold pow2. rewrite Zpower_Qpower by assumption. reflexivity. Qed.

Lemma pow2_sub a b : (pow2 (a - b) == pow2 a / pow2 b)%Q.
Proof.
  assert (E := pow2_add (a - b) b). replace (a - b + b) with a in E by ring.
  rewrite E. field. apply Qnot_eq_sym, Qlt_not_eq, pow2_pos.
Qed.

Lemma Q_as_div (x : Q) : (x == inject_Z (Qnum x) / inject_Z (Zpos (Qden x)))%Q.
Proof.
  destruct x as [n d]. unfold Qeq, Qdiv, Qmult, Qinv, inject_Z. simpl. ring.
Qed.

Lemma mag_spec x : (0 < x)%Q -> (pow2 (mag x - 1) <= x < pow2 (mag x))%Q.
Proof.
  intros Hx. unfold mag.
  set (n := Qnum x). set (d := Zpos (Qden x)).
  assert (0 < n) as Hn by (unfold n; destruct x as [xn xd]; unfold Qlt in Hx; simpl in *; lia).
  assert (0 < d) as Hd by (unfold d; lia).
  destruct (Z.log2_spec n Hn) as [Hn1 Hn2].
  destruct (Z.log2_spec d Hd) as [Hd1 Hd2].
  assert (0 <= Z.log2 n) as Ln by apply Z.log2_nonneg.
  assert (0 <= Z.log2 d) as Ld by apply Z.log2_nonneg.
  set (ln := Z.log2 n) in *. set (ld := Z.log2 d) in *.
  assert (x == inject_Z n / inject_Z d)%Q as Ex by apply Q_as_div.
  assert (0 < inject_Z d)%Q as Hdq by (rewrite <- (Zlt_Qlt 0); assumption).
  assert (pow2 ln <= inject_Z n)%Q as A1
    by (rewrite pow2_inject by assumption; rewrite <- Zle_Qle; assumption).
  assert (inject_Z n < pow2 (ln + 1))%Q as A2
    by (rewrite pow2_inject by lia; rewrite <- Zlt_Qlt; unfold Z.succ in Hn2; assumption).
  assert (pow2 ld <= inject_Z d)%Q as A3
    by (rewrite pow2_inject by assumption; rewrite <- Zle_Qle; assumption).
  assert (inject_Z d < pow2 (ld + 1))%Q as A4
    by (rewrite pow2_inject by lia; rewrite <- Zlt_Qlt; unfold Z.succ in Hd2; assumption).
  assert (0 < pow2 ld)%Q as P1 by apply pow2_pos.
  assert (0 < pow2 (ln - ld))%Q as P2 by apply pow2_pos.
  assert (pow2 ln == pow2 (ln - ld) * pow2 ld)%Q as E1
    by (rewrite <- pow2_add; replace (ln - ld + ld) with ln by ring; reflexivity).
  rewrite pow2_succ in A2, A4.
  assert (x * inject_Z d == inject_Z n)%Q as Exd by (rewrite Ex; field; lra).
  destruct (Qle_bool (pow2 (ln - ld)) x) eqn:Ele.
  - apply Qle_bool_iff in Ele.
    replace (ln - ld + 1 - 1) with (ln - ld) by ring.
    split; [assumption |]. rewrite pow2_succ.
    (* x * d = n < 2 * 2^ln = 2 * 2^(ln-ld) * 2^ld <= 2*2^(ln-ld) * d *)
    apply Qnot_le_lt. intros Hc. 
    assert (2 * pow2 (ln - ld) * inject_Z d <= x * inject_Z d)%Q by nra.
    nra.
  - assert (x < pow2 (ln - ld))%Q as Hlt.
    { apply Qnot_le_lt. intros Hc. apply Qle_bool_iff in Hc. congruence. }
    split; [| assumption].
    rewrite pow2_pred. apply Qnot_lt_le. intros Hc.
    nra.
Qed.

Lemma mag_unique x k : (pow2 (k - 1) <= x < pow2 k)%Q -> mag x = k.
Proof.
  intros [H1 H2].
  assert (0 < x)%Q as Hx by (pose proof (pow2_pos (k - 1)); lra).
  destruct (mag_spec x Hx) as [M1 M2].
  assert (k - 1 < mag x) by (apply pow2_lt_inv; lra).
  assert (mag x - 1 < k) by (apply pow2_lt_inv; lra).
  lia.
Qed.

Lemma mag_le x y : (0 < x)%Q -> (x <= y)%Q -> mag x <= mag y.
Proof.
  intros Hx Hxy.
  destruct (mag_spec x Hx) as [M1 M2].
  destruct (mag_spec y) as [N1 N2]; [lra |].
  assert (mag x - 1 < mag y) by (apply pow2_lt_inv; lra). lia.
Qed.

Lemma rne_comp x y : (x == y)%Q -> rne x = rne y.
Proof.
  intros E. unfold rne. rewrite (Qfloor_comp x y E).
  assert (x - inject_Z (Qfloor y) == y - inject_Z (Qfloor y))%Q as E'
    by (apply Qplus_comp; [exact E | reflexivity]).
  rewrite (Qcompare_comp _ _ E' (1 # 2) (1 # 2) (Qeq_refl _)). reflexivity.
Qed.

Lemma Qfloor_bounds y : (inject_Z (Qfloor y) <= y < inject_Z (Qfloor y) + 1)%Q.
Proof.
  split; [apply Qfloor_le |].
  pose proof (Qlt_floor y) as H. rewrite inject_Z_plus in H. exact H.
Qed.

Lemma Qfloor_unique y n : (inject_Z n <= y < inject_Z n + 1)%Q -> Qfloor y = n.
Proof.
  intros [H1 H2]. destruct (Qfloor_bounds y) as [F1 F2].
  assert (inject_Z n < inject_Z (Qfloor y + 1))%Q
    by (rewrite inject_Z_plus; change (inject_Z 1) with 1%Q; lra).
  assert (inject_Z (Qfloor y) < inject_Z (n + 1))%Q
    by (rewrite inject_Z_plus; change (inject_Z 1) with 1%Q; lra).
  rewrite <- Zlt_Qlt in *. lia.
Qed.

Lemma rne_cases y :
  let f := Qfloor y in
  (rne y = f /\
   ((y - inject_Z f < 1 # 2)%Q \/
    ((y - inject_Z f == 1 # 2)%Q /\ Z.even f = true))) \/
  (rne y = f + 1 /\
   (((1 # 2) < y - inject_Z f)%Q \/
    ((y - inject_Z f == 1 # 2)%Q /\ Z.even f = false))).
Proof.
  intros f. unfold rne. fold f.
  destruct (Qcompare_spec (y - inject_Z f) (1 # 2)) as [E | L | G].
  - destruct (Z.even f) eqn:Ev; [left | right]; auto.
  - left. auto.
  - right. auto.
Qed.

Lemma rne_Z n : rne (inject_Z n) = n.
Proof.
  unfold rne. rewrite Qfloor_Z.
  destruct (Qcompare_spec (inject_Z n - inject_Z n) (1 # 2)) as [E | L | G]; try lra.
  reflexivity.
Qed.

Lemma rne_bound y : (inject_Z (rne y) - (1 # 2) <= y <= inject_Z (rne y) + (1 # 2))%Q.
Proof.
  destruct (Qfloor_bounds y) as [F1 F2].
  destruct (rne_cases y) as [[-> H] | [-> H]]; try rewrite inject_Z_plus;
    change (inject_Z 1) with 1%Q;
    destruct H as [H | [H _]]; lra.
Qed.

Lemma rne_mono x y : (x <= y)%Q -> rne x <= rne y.
Proof.
  intros Hxy.
  assert (Qfloor x <= Qfloor y) as Hf by (apply Qfloor_resp_le; assumption).
  destruct (Qfloor_bounds x) as [X1 X2]. destruct (Qfloor_bounds y) as [Y1 Y2].
  destruct (Z.eq_dec (Qfloor x) (Qfloor y)) as [E | N].
  - destruct (rne_cases x) as [[-> Hx] | [-> Hx]];
      destruct (rne_cases y) as [[-> Hy] | [-> Hy]]; try lia.
    exfalso. rewrite E in *.
    destruct Hx as [Hx | [Hx Ex]]; destruct Hy as [Hy | [Hy Ey]]; try lra.
    congruence.
  - assert (Qfloor x + 1 <= Qfloor y) by lia.
    destruct (rne_cases x) as [[-> _] | [-> _]];
      destruct (rne_cases y) as [[-> _] | [-> _]]; lia.
Qed.

Lemma rne_nonneg y : (0 <= y)%Q -> 0 <= rne y.
Proof. intros H. rewrite <- (rne_Z 0). apply rne_mono. exact H. Qed.

Lemma mag_comp x y : (0 < x)%Q -> (x == y)%Q -> mag x = mag y.
Proof.
  intros Hx E. symmetry. apply mag_unique. rewrite <- E. apply mag_spec. exact Hx.
Qed.

Lemma cexp_comp x y : (0 < x)%Q -> (x == y)%Q -> cexp x = cexp y.
Proof. intros. unfold cexp. now rewrite (mag_comp x y). Qed.

Lemma RN_comp x y : (0 < x)%Q -> (x == y)%Q -> (RN x == RN y)%Q.
Proof.
  intros Hx E. unfold RN. rewrite (cexp_comp x y Hx E).
  rewrite (rne_comp (x / pow2 (cexp y)) (y / pow2 (cexp y))); [reflexivity |].
  rewrite E. reflexivity.
Qed.

Lemma cexp_le x y : (0 < x)%Q -> (x <= y)%Q -> cexp x <= cexp y.
Proof. intros Hx Hxy. unfold cexp. pose proof (mag_le x y Hx Hxy). lia. Qed.

Lemma scaled_bounds x :
  (0 < x)%Q ->
  (x / pow2 (cexp x) < inject_Z (2 ^ 53))%Q /\
  (-1074 < cexp x -> (inject_Z (2 ^ 52) <= x / pow2 (cexp x))%Q).
Proof.
  intros Hx. destruct (mag_spec x Hx) as [M1 M2].
  pose proof (pow2_pos (cexp x)) as Pc.
  rewrite <- !pow2_inject by lia.
  split.
  - apply Qlt_shift_div_r; [exact Pc |].
    rewrite <- pow2_add.
    assert (pow2 (mag x) <= pow2 (53 + cexp x))%Q by (apply pow2_le; unfold cexp; lia).
    lra.
  - intros Hc. apply Qle_shift_div_l; [exact Pc |].
    rewrite <- pow2_add.
    assert (pow2 (52 + cexp x) <= pow2 (mag x - 1))%Q by (apply pow2_le; unfold cexp in *; lia).
    lra.
Qed.

Lemma RN_mantissa x :
  (0 < x)%Q ->
  0 <= rne (x / pow2 (cexp x)) <= 2 ^ 53 /\
  (-1074 < cexp x -> 2 ^ 52 <= rne (x / pow2 (cexp x))).
Proof.
  intros Hx. destruct (scaled_bounds x Hx) as [S1 S2].
  pose proof (pow2_pos (cexp x)) as Pc.
  split; [split |].
  - apply rne_nonneg. apply Qle_shift_div_l; [exact Pc | lra].
  - rewrite <- (rne_Z (2 ^ 53)). apply rne_mono. lra.
  - intros Hc. rewrite <- (rne_Z (2 ^ 52)). apply rne_mono. auto.
Qed.

Lemma RN_nonneg x : (0 < x)%Q -> (0 <= RN x)%Q.
Proof.
  intros Hx. unfold RN. destruct (RN_mantissa x Hx) as [[M0 _] _].
  pose proof (pow2_pos (cexp x)).
  apply Qmult_le_0_compat; [| lra]. rewrite <- (Zle_Qle 0). exact M0.
Qed.

Lemma RN_mono x y : (0 < x)%Q -> (x <= y)%Q -> (RN x <= RN y)%Q.
Proof.
  intros Hx Hxy. assert (0 < y)%Q as Hy by lra.
  pose proof (cexp_le x y Hx Hxy) as Hc.
  pose proof (pow2_pos (cexp x)) as Px. pose proof (pow2_pos (cexp y)) as Py.
  unfold RN.
  destruct (Z.eq_dec (cexp x) (cexp y)) as [E | N].
  - rewrite E. apply Qmult_le_compat_r; [| lra].
    rewrite <- Zle_Qle. apply rne_mono.
    apply Qmult_le_compat_r; [exact Hxy |].
    apply Qlt_le_weak, Qinv_lt_0_compat. exact Py.
  - destruct (RN_mantissa x Hx) as [[_ Mx] _].
    destruct (RN_mantissa y Hy) as [_ My].
    assert (2 ^ 52 <= rne (y / pow2 (cexp y))) as My' by (apply My; unfold cexp in *; lia).
    rewrite Zle_Qle in Mx, My'.
    assert (pow2 (cexp x + 1) <= pow2 (cexp y))%Q as Hp by (apply pow2_le; lia).
    rewrite pow2_succ in Hp.
    change (inject_Z (2 ^ 53)) with (2 * inject_Z (2 ^ 52))%Q in Mx.
    set (a := inject_Z (rne (x / pow2 (cexp x)))) in *.
    set (b := inject_Z (rne (y / pow2 (cexp y)))) in *.
    assert (0 < inject_Z (2 ^ 52))%Q by reflexivity.
    set (c := inject_Z (2 ^ 52)) in *.
    apply Qle_trans with (2 * c * pow2 (cexp x))%Q; [nra |].
    apply Qle_trans with (c * pow2 (cexp y))%Q; nra.
Qed.

Lemma mag_of_scaled M E :
  0 < M -> mag (inject_Z M * pow2 E) = Z.log2 M + 1 + E.
Proof.
  intros HM. apply mag_unique.
  destruct (Z.log2_spec M HM) as [L1 L2]. pose proof (Z.log2_nonneg M) as L0.
  unfold Z.succ in L2.
  rewrite Zle_Qle in L1. rewrite Zlt_Qlt in L2.
  rewrite <- pow2_inject in L1, L2 by lia.
  pose proof (pow2_pos E) as PE.
  replace (Z.log2 M + 1 + E - 1) with (Z.log2 M + E) by ring.
  replace (Z.log2 M + 1 + E) with (Z.log2 M + 1 + E) by ring.
  rewrite !pow2_add. rewrite pow2_add in L2. split; nra.
Qed.

Lemma RN_exact x : representable x -> (RN x == x)%Q.
Proof.
  intros (M & E & [M0 M1] & [HE _] & Ex).
  pose proof (pow2_pos E) as PE.
  assert (0 < x)%Q as Hx.
  { rewrite Ex. apply Qmult_lt_0_compat; [| exact PE]. rewrite <- (Zlt_Qlt 0). exact M0. }
  assert (cexp x <= E) as Hc.
  { unfold cexp. rewrite (mag_comp x _ Hx Ex), mag_of_scaled by assumption.
    assert (Z.log2 M < 53) by (apply Z.log2_lt_pow2; lia). lia. }
  unfold RN. remember (cexp x) as c eqn:Ec. clear Ec.
  pose proof (pow2_pos c) as Pc.
  assert (x / pow2 c == inject_Z (M * 2 ^ (E - c)))%Q as Es.
  { rewrite inject_Z_mult, <- pow2_inject by lia.
    rewrite Ex, pow2_sub. field. lra. }
  rewrite (rne_comp _ _ Es), rne_Z.
  rewrite inject_Z_mult, <- pow2_inject by lia.
  rewrite Ex, pow2_sub. field. lra.
Qed.

Lemma RN_error x :
  (0 < x)%Q ->
  (RN x - pow2 (cexp x - 1) <= x <= RN x + pow2 (cexp x - 1))%Q.
Proof.
  intros Hx. unfold RN. remember (cexp x) as c eqn:Ec. clear Ec.
  pose proof (pow2_pos c) as Pc. rewrite pow2_pred.
  destruct (rne_bound (x / pow2 c)) as [B1 B2].
  set (r := inject_Z (rne (x / pow2 c))) in *. clearbody r.
  assert (x == x / pow2 c * pow2 c)%Q as E by (field; lra).
  set (s := (x / pow2 c)%Q) in *. clearbody s.
  set (p := pow2 c) in *. clearbody p.
  split; nra.
Qed.

Lemma RN_relative x :
  (pow2 (-1022) <= x)%Q ->
  (x * (1 - pow2 (-53)) <= RN x <= x * (1 + pow2 (-53)))%Q.
Proof.
  intros Hn. assert (0 < x)%Q as Hx by (pose proof (pow2_pos (-1022)); lra).
  destruct (mag_spec x Hx) as [M1 M2].
  assert (-1022 < mag x) by (apply pow2_lt_inv; lra).
  assert (cexp x = mag x - 53) as Ec by (unfold cexp; lia).
  destruct (RN_error x Hx) as [E1 E2]. rewrite Ec in E1, E2.
  assert (pow2 (mag x - 53 - 1) <= x * pow2 (-53))%Q.
  { replace (mag x - 53 - 1) with (mag x - 1 + -53) by ring.
    rewrite !pow2_add.
    pose proof (pow2_pos (-53)). set (u := pow2 (-53)) in *.
    set (p := pow2 (mag x - 1)) in *. nra. }
  split; lra.
Qed.

Lemma loc_of_exact m y : (y == inject_Z m)%Q -> loc_of m y = loc_Exact.
Proof. intros E. unfold loc_of. apply Qeq_bool_iff in E. now rewrite E. Qed.

Lemma loc_of_inexact m y c :
  ~ (y == inject_Z m)%Q -> Qcompare (y - inject_Z m) (1 # 2) = c ->
  loc_of m y = loc_Inexact c.
Proof.
  intros N E. unfold loc_of. destruct (Qeq_bool y (inject_Z m)) eqn:B.
  - apply Qeq_bool_iff in B. contradiction.
  - now rewrite E.
Qed.

Lemma loc_of_lt m y : (inject_Z m < y)%Q -> (y - inject_Z m < 1 # 2)%Q ->
  loc_of m y = loc_Inexact Lt.
Proof.
  intros H1 H2. apply loc_of_inexact; [lra |]. now apply (proj1 (Qlt_alt _ _)).
Qed.

Lemma loc_of_eq m y : (y - inject_Z m == 1 # 2)%Q -> loc_of m y = loc_Inexact Eq.
Proof.
  intros H1. apply loc_of_inexact; [lra |]. now apply (proj1 (Qeq_alt _ _)).
Qed.

Lemma loc_of_gt m y : ((1 # 2) < y - inject_Z m)%Q -> loc_of m y = loc_Inexact Gt.
Proof.
  intros H1. apply loc_of_inexact; [lra |]. now apply (proj1 (Qgt_alt _ _)).
Qed.

Lemma loc_of_inv m y :
  match loc_of m y with
  | loc_Exact => (y == inject_Z m)%Q
  | loc_Inexact Lt => ~ (y == inject_Z m)%Q /\ (y - inject_Z m < 1 # 2)%Q
  | loc_Inexact Eq => (y - inject_Z m == 1 # 2)%Q
  | loc_Inexact Gt => ((1 # 2) < y - inject_Z m)%Q
  end.
Proof.
  unfold loc_of. destruct (Qeq_bool y (inject_Z m)) eqn:B.
  - now apply Qeq_bool_iff.
  - assert (~ (y == inject_Z m)%Q) as N
      by (intros E; apply Qeq_bool_iff in E; congruence).
    destruct (Qcompare_spec (y - inject_Z m) (1 # 2)); auto.
Qed.

Lemma shr_1_spec m r s :
  0 <= m -> shr_1 (Build_shr_record m r s)
            = Build_shr_record (m / 2) (Z.odd m) (r || s).
Proof.
  intros Hm. destruct m as [| p | p]; [reflexivity | | lia].
  destruct p as [p | p |]; simpl.
  - f_equal. rewrite Pos2Z.inj_xI.
    apply (Z.div_unique _ _ _ 1); lia.
  - f_equal. rewrite Pos2Z.inj_xO.
    apply (Z.div_unique _ _ _ 0); lia.
  - reflexivity.
Qed.

Lemma half_parts m : 0 <= m -> m = 2 * (m / 2) + (if Z.odd m then 1 else 0).
Proof.
  intros Hm. rewrite (Z.div_mod m 2) at 1 by lia. f_equal.
  rewrite Zmod_odd. reflexivity.
Qed.

Lemma shr_1_inbetween mrs y :
  0 <= shr_m mrs -> inbetween (shr_m mrs) (loc_of_shr_record mrs) y ->
  0 <= shr_m (shr_1 mrs) /\
  inbetween (shr_m (shr_1 mrs)) (loc_of_shr_record (shr_1 mrs)) (y * (1 # 2)).
Proof.
  destruct mrs as [m r s]. cbn [shr_m]. intros Hm [[B1 B2] L].
  rewrite shr_1_spec by assumption. cbn [shr_m].
  split; [apply Z.div_pos; lia |].
  pose proof (half_parts m Hm) as E.
  assert (inject_Z m == 2 * inject_Z (m / 2) + inject_Z (if Z.odd m then 1 else 0))%Q as EQ.
  { rewrite E at 1. rewrite inject_Z_plus, inject_Z_mult. reflexivity. }
  pose proof (loc_of_inv m y) as Inv. rewrite <- L in Inv.
  unfold inbetween.
  set (h := inject_Z (m / 2)) in *.
  set (im := inject_Z m) in *.
  destruct (Z.odd m); change (inject_Z 1) with 1%Q in EQ; change (inject_Z 0) with 0%Q in EQ;
    destruct r, s; simpl in Inv |- *; (split; [lra |]); symmetry;
      first [ apply loc_of_exact; fold h; lra
            | apply loc_of_lt; fold h; lra
            | apply loc_of_eq; fold h; lra
            | apply loc_of_gt; fold h; lra ].
Qed.

Lemma loc_of_comp m y y' : (y == y')%Q -> loc_of m y = loc_of m y'.
Proof.
  intros E. unfold loc_of.
  assert (y - inject_Z m == y' - inject_Z m)%Q as E' by lra.
  rewrite (Qcompare_comp _ _ E' _ _ (Qeq_refl _)).
  destruct (Qeq_bool y (inject_Z m)) eqn:B1; destruct (Qeq_bool y' (inject_Z m)) eqn:B2;
    try reflexivity; exfalso.
  - apply Qeq_bool_iff in B1. assert (y' == inject_Z m)%Q as B3 by lra.
    apply Qeq_bool_iff in B3. congruence.
  - apply Qeq_bool_iff in B2. assert (y == inject_Z m)%Q as B3 by lra.
    apply Qeq_bool_iff in B3. congruence.
Qed.

Lemma inbetween_comp m l y y' : (y == y')%Q -> inbetween m l y -> inbetween m l y'.
Proof.
  intros E [[B1 B2] L]. split; [lra |]. rewrite L. apply loc_of_comp, E.
Qed.

Lemma iter_shr_1_inbetween p :
  forall mrs y,
    0 <= shr_m mrs -> inbetween (shr_m mrs) (loc_of_shr_record mrs) y ->
    0 <= shr_m (iter_pos shr_1 p mrs) /\
    inbetween (shr_m (iter_pos shr_1 p mrs))
              (loc_of_shr_record (iter_pos shr_1 p mrs))
              (y * pow2 (- Z.pos p)).
Proof.
  assert (forall y a b, (y * pow2 a * pow2 b == y * pow2 (a + b))%Q) as Hp.
  { intros. rewrite pow2_add. ring. }
  pose proof inbetween_comp as Hc.
  assert (forall a b, a = b -> (pow2 a == pow2 b)%Q) as He
    by (intros a b ->; reflexivity).
  induction p as [p IH | p IH |]; intros mrs y Hm Hin; cbn [iter_pos].
  - destruct (shr_1_inbetween mrs y Hm Hin) as [H1 I1].
    destruct (IH _ _ H1 I1) as [H2 I2].
    destruct (IH _ _ H2 I2) as [H3 I3].
    split; [exact H3 |]. eapply Hc; [| exact I3].
    change (1 # 2)%Q with (pow2 (-1)).
    rewrite <- !Qmult_assoc, <- !pow2_add.
    apply Qmult_comp; [reflexivity | apply He; lia].
  - destruct (IH _ _ Hm Hin) as [H2 I2].
    destruct (IH _ _ H2 I2) as [H3 I3].
    split; [exact H3 |]. eapply Hc; [| exact I3].
    rewrite <- !Qmult_assoc, <- !pow2_add.
    apply Qmult_comp; [reflexivity | apply He; lia].
  - destruct (shr_1_inbetween mrs y Hm Hin) as [H1 I1].
    split; [exact H1 |]. exact I1.
Qed.

Lemma fexp_eq k : fexp prec emax k = Z.max (k - 53) (-1074).
Proof. reflexivity. Qed.

Lemma digits2_size p : digits2_pos p = Pos.size p.
Proof. induction p; simpl; congruence. Qed.

Lemma digits_bounds p :
  2 ^ (Z.pos (digits2_pos p) - 1) <= Z.pos p < 2 ^ Z.pos (digits2_pos p).
Proof.
  rewrite digits2_size.
  pose proof (Pos.size_gt p) as G. pose proof (Pos.size_le p) as L.
  assert (Z.pos p < Z.pos (2 ^ Pos.size p)) as G' by (apply Pos2Z.pos_lt_pos, G).
  assert (Z.pos (2 ^ Pos.size p) <= Z.pos p~0) as L' by (apply Pos2Z.pos_le_pos, L).
  rewrite Pos2Z.inj_pow in G', L'. change (Z.pos p~0) with (2 * Z.pos p) in L'.
  split; [| exact G'].
  replace (Z.pos (Pos.size p)) with (Z.pos (Pos.size p) - 1 + 1) in L' by lia.
  rewrite Z.pow_add_r, Z.pow_1_r in L' by lia. lia.
Qed.

Lemma mag_inbetween m e x :
  0 < m -> (inject_Z m <= x / pow2 e < inject_Z m + 1)%Q ->
  mag x = Zdigits2 m + e.
Proof.
  intros Hm [B1 B2]. destruct m as [| p | p]; try lia. cbn [Zdigits2].
  destruct (digits_bounds p) as [D1 D2].
  set (d := Z.pos (digits2_pos p)) in *.
  assert (0 < d) as Hd by (unfold d; lia).
  pose proof (pow2_pos e) as Pe.
  assert (x == x / pow2 e * pow2 e)%Q as Ex by (field; lra).
  set (y := (x / pow2 e)%Q) in *. clearbody y.
  rewrite Zle_Qle in D1.
  assert (Z.pos p + 1 <= 2 ^ d) as D2' by lia. rewrite Zle_Qle in D2'.
  rewrite inject_Z_plus in D2'. change (inject_Z 1) with 1%Q in D2'.
  rewrite <- pow2_inject in D1, D2' by lia.
  apply mag_unique.
  replace (d + e - 1) with (d - 1 + e) by ring. rewrite !pow2_add.
  set (a := pow2 (d - 1)) in *. set (b := pow2 d) in *. set (q := pow2 e) in *.
  set (ip := inject_Z (Z.pos p)) in *.
  split; nra.
Qed.

Lemma shr_record_of_loc_m m l : shr_m (shr_record_of_loc m l) = m.
Proof. destruct l as [| []]; reflexivity. Qed.

Lemma loc_of_shr_record_of_loc m l :
  loc_of_shr_record (shr_record_of_loc m l) = l.
Proof. destruct l as [| []]; reflexivity. Qed.

Lemma shr_fexp_spec m e l x :
  0 <= m -> (0 < x)%Q -> inbetween m l (x / pow2 e) -> e <= cexp x ->
  let mrs := fst (shr_fexp prec emax m e l) in
  snd (shr_fexp prec emax m e l) = cexp x /\
  0 <= shr_m mrs /\
  inbetween (shr_m mrs) (loc_of_shr_record mrs) (x / pow2 (cexp x)).
Proof.
  intros Hm Hx Hin He.
  assert (fexp prec emax (Zdigits2 m + e) = cexp x) as Ef.
  { rewrite fexp_eq. unfold cexp.
    destruct (Z.eq_dec m 0) as [-> | N].
    - cbn [Zdigits2].
      destruct Hin as [[B1 B2] _]. change (inject_Z 0) with 0%Q in B1, B2.
      destruct (mag_spec x Hx) as [M1 M2].
      pose proof (pow2_pos e) as Pe.
      assert (x == x / pow2 e * pow2 e)%Q as Ex by (field; lra).
      assert (x < pow2 e)%Q as Hlt.
      { set (y := (x / pow2 e)%Q) in *. clearbody y. nra. }
      assert (mag x - 1 < e) by (apply pow2_lt_inv; lra).
      unfold cexp in He. lia.
    - rewrite (mag_inbetween m e x); [reflexivity | lia | apply Hin]. }
  unfold shr_fexp. rewrite Ef. unfold shr.
  destruct (cexp x - e) as [| n | n] eqn:En; try lia; cbn [fst snd].
  - assert (e = cexp x) as <- by lia.
    rewrite shr_record_of_loc_m, loc_of_shr_record_of_loc. auto.
  - split; [lia |].
    destruct (iter_shr_1_inbetween n (shr_record_of_loc m l) (x / pow2 e))
      as [H1 I1].
    + now rewrite shr_record_of_loc_m.
    + now rewrite shr_record_of_loc_m, loc_of_shr_record_of_loc.
    + split; [exact H1 |]. eapply inbetween_comp; [| exact I1].
      rewrite <- En. replace (- (cexp x - e)) with (e - cexp x) by ring.
      rewrite pow2_sub. pose proof (pow2_pos e). pose proof (pow2_pos (cexp x)).
      field. split; lra.
Qed.

Lemma rne_inbetween m l y : inbetween m l y -> round_nearest_even m l = rne y.
Proof.
  intros [B L]. unfold rne. rewrite (Qfloor_unique y m B). rewrite L.
  unfold loc_of. destruct (Qeq_bool y (inject_Z m)) eqn:E.
  - apply Qeq_bool_iff in E. simpl.
    destruct (Qcompare_spec (y - inject_Z m) (1 # 2)); try lra. reflexivity.
  - reflexivity.
Qed.

Lemma shr_fexp_renormalize M c :
  0 <= M <= 2 ^ 53 -> -1074 <= c -> (-1074 < c -> 2 ^ 52 <= M) ->
  shr_fexp prec emax M c loc_Exact
  = if M =? 2 ^ 53
    then (Build_shr_record (2 ^ 52) false false, c + 1)
    else (Build_shr_record M false false, c).
Proof.
  intros [M0 M1] Hc Hn. unfold shr_fexp. rewrite fexp_eq.
  cbn [shr_record_of_loc].
  destruct (Z.eqb_spec M (2 ^ 53)) as [-> | N].
  - change (Zdigits2 (2 ^ 53)) with 54.
    replace (Z.max (54 + c - 53) (-1074) - c) with 1 by lia.
    reflexivity.
  - assert (Z.max (Zdigits2 M + c - 53) (-1074) - c <= 0) as Hle.
    { destruct M as [| p | p]; try lia.
      - cbn [Zdigits2]. lia.
      - cbn [Zdigits2]. destruct (digits_bounds p) as [D1 D2].
        assert (Z.pos (digits2_pos p) - 1 < 53)
          by (apply (Z.pow_lt_mono_r_iff 2); lia).
        lia. }
    unfold shr. destruct (Z.max (Zdigits2 M + c - 53) (-1074) - c); try lia; reflexivity.
Qed.

Lemma cexp_min x : -1074 <= cexp x.
Proof. unfold cexp. lia. Qed.

Theorem binary_round_aux_spec s m e l x :
  0 <= m -> (0 < x)%Q -> inbetween m l (x / pow2 e) -> e <= cexp x ->
  rounded s x (binary_round_aux prec emax s m e l).
Proof.
  intros Hm Hx Hin He. unfold binary_round_aux.
  pose proof (shr_fexp_spec m e l x Hm Hx Hin He) as Spec.
  destruct (shr_fexp prec emax m e l) as [mrs' e'].
  cbn [fst snd] in Spec. destruct Spec as (-> & Hm' & Hin').
  rewrite (rne_inbetween _ _ _ Hin').
  destruct (RN_mantissa x Hx) as [HM Hnorm].
  pose proof (cexp_min x) as Hc.
  assert (RN x == inject_Z (rne (x / pow2 (cexp x))) * pow2 (cexp x))%Q as ERN
    by reflexivity.
  set (M := rne (x / pow2 (cexp x))) in *. set (c := cexp x) in *.
  clearbody M c.
  rewrite (shr_fexp_renormalize M c HM Hc Hnorm).
  pose proof (pow2_pos c) as Pc.
  destruct (Z.eqb_spec M (2 ^ 53)) as [-> | N]; cbn [shr_m].
  - change (2 ^ 52) with (Z.pos (2 ^ 52)).
    cbv beta iota.
    destruct (Z.leb_spec (c + 1) (emax - prec)) as [Hle | Hgt]; cbn [rounded].
    + split; [reflexivity | split].
      * rewrite ERN, pow2_succ. change (inject_Z (2 ^ 53)) with (2 * inject_Z (Z.pos (2 ^ 52)))%Q.
        ring.
      * unfold bounded, canonical_mantissa. rewrite fexp_eq.
        change (Z.pos (digits2_pos (2 ^ 52))) with 53.
        apply andb_true_intro. split; [apply Z.eqb_eq; lia | apply Z.leb_le; exact Hle].
    + split; [reflexivity |]. rewrite ERN.
      change (emax - prec) with 971 in Hgt.
      assert (pow2 971 <= pow2 c)%Q by (apply pow2_le; lia).
      change (pow2 1024) with (inject_Z (2 ^ 53) * pow2 971)%Q.
      apply Qmult_le_l; [reflexivity | assumption].
  - destruct M as [| p | p]; try lia.
    + cbn [rounded]. split; [reflexivity |]. rewrite ERN. ring.
    + destruct (Z.leb_spec c (emax - prec)) as [Hle | Hgt]; cbn [rounded].
      * split; [reflexivity | split; [symmetry; exact ERN |]].
        unfold bounded, canonical_mantissa. rewrite fexp_eq.
        apply andb_true_intro. split; [| apply Z.leb_le; exact Hle].
        apply Z.eqb_eq.
        destruct (digits_bounds p) as [D1 D2].
        assert (Z.pos (digits2_pos p) - 1 < 53)
          by (apply (Z.pow_lt_mono_r_iff 2); lia).
        destruct (Z.eq_dec c (-1074)) as [-> | Nc]; [lia |].
        assert (2 ^ 52 <= Z.pos p) by (apply Hnorm; lia).
        assert (52 < Z.pos (digits2_pos p))
          by (apply (Z.pow_lt_mono_r_iff 2); lia).
        lia.
      * split; [reflexivity |]. rewrite ERN.
        change (emax - prec) with 971 in Hgt.
        assert (2 ^ 52 <= Z.pos p) as Hp by (apply Hnorm; lia).
        rewrite Zle_Qle in Hp.
        assert (pow2 972 <= pow2 c)%Q by (apply pow2_le; lia).
        change (pow2 1024) with (inject_Z (2 ^ 52) * pow2 972)%Q.
        assert (0 < inject_Z (2 ^ 52))%Q by reflexivity.
        pose proof (pow2_pos 972).
        set (a := inject_Z (2 ^ 52)) in *. set (b := inject_Z (Z.pos p)) in *.
        set (u := pow2 972) in *. set (v := pow2 c) in *. clearbody a b u v.
        nra.
Qed.

Lemma digits2_log2 p : Z.pos (digits2_pos p) = Z.log2 (Z.pos p) + 1.
Proof.
  destruct (digits_bounds p) as [D1 D2].
  symmetry. apply Z.add_move_r. apply Z.log2_unique; [lia |].
  split; [exact D1 |].
  replace (Z.succ (Z.pos (digits2_pos p) - 1)) with (Z.pos (digits2_pos p)) by lia.
  exact D2.
Qed.

Lemma mag_finite m e :
  mag (inject_Z (Z.pos m) * pow2 e) = Z.pos (digits2_pos m) + e.
Proof. rewrite mag_of_scaled by lia. rewrite digits2_log2. ring. Qed.

Lemma bounded_inv m e :
  bounded prec emax m e = true ->
  Z.max (Z.pos (digits2_pos m) + e - 53) (-1074) = e /\ e <= 971.
Proof.
  unfold bounded, canonical_mantissa. rewrite fexp_eq. intros H.
  apply andb_prop in H. destruct H as [H1 H2].
  apply Z.eqb_eq in H1. apply Z.leb_le in H2. split; [exact H1 | exact H2].
Qed.

Lemma finite_pos m e : (0 < inject_Z (Z.pos m) * pow2 e)%Q.
Proof.
  apply Qmult_lt_0_compat; [reflexivity | apply pow2_pos].
Qed.

Lemma inbetween_exact m x : (x == inject_Z m)%Q -> inbetween m loc_Exact x.
Proof.
  intros E. split; [lra |]. symmetry. apply loc_of_exact, E.
Qed.

Lemma finite_representable m e :
  bounded prec emax m e = true -> representable (inject_Z (Z.pos m) * pow2 e).
Proof.
  intros B. destruct (bounded_inv m e B) as [B1 B2].
  exists (Z.pos m), e. destruct (digits_bounds m) as [D1 D2].
  assert (2 ^ Z.pos (digits2_pos m) <= 2 ^ 53) by (apply Z.pow_le_mono_r; lia).
  split; [lia | split; [lia | reflexivity]].
Qed.

(** *** Multiplication *)

Lemma SFmul_finite sx mx ex sy my ey :
  bounded prec emax mx ex = true -> bounded prec emax my ey = true ->
  rounded (xorb sx sy)
          ((inject_Z (Z.pos mx) * pow2 ex) * (inject_Z (Z.pos my) * pow2 ey))
          (SFmul prec emax (S754_finite sx mx ex) (S754_finite sy my ey)).
Proof.
  intros Bx By. cbn [SFmul].
  destruct (bounded_inv mx ex Bx) as [Cx _].
  destruct (bounded_inv my ey By) as [Cy _].
  set (x := (inject_Z (Z.pos mx) * pow2 ex * (inject_Z (Z.pos my) * pow2 ey))%Q).
  assert (x == inject_Z (Z.pos (mx * my)) * pow2 (ex + ey))%Q as Ex.
  { unfold x. rewrite Pos2Z.inj_mul, inject_Z_mult, pow2_add. ring. }
  assert (0 < x)%Q as Hx by (rewrite Ex; apply finite_pos).
  apply binary_round_aux_spec; try assumption; try lia.
  - apply inbetween_exact. rewrite Ex. field.
    pose proof (pow2_pos (ex + ey)). lra.
  - unfold cexp. rewrite (mag_comp _ _ Hx Ex), mag_finite.
    destruct (digits_bounds mx) as [X1 X2]. destruct (digits_bounds my) as [Y1 Y2].
    destruct (digits_bounds (mx * my)) as [P1 P2].
    set (dx := Z.pos (digits2_pos mx)) in *.
    set (dy := Z.pos (digits2_pos my)) in *.
    set (d := Z.pos (digits2_pos (mx * my))) in *.
    assert (0 < dx) by (unfold dx; lia). assert (0 < dy) by (unfold dy; lia).
    assert (dx + dy - 2 < d).
    { apply (Z.pow_lt_mono_r_iff 2); [lia | unfold d; lia |].
      replace (dx + dy - 2) with ((dx - 1) + (dy - 1)) by ring.
      rewrite Z.pow_add_r by lia. rewrite Pos2Z.inj_mul in P2. nia. }
    lia.
Qed.

(** *** Division *)

Lemma new_location_spec nb r q y :
  0 < nb -> 0 <= r < nb ->
  (y * inject_Z nb == inject_Z q * inject_Z nb + inject_Z r)%Q ->
  new_location nb r = loc_of q y.
Proof.
  intros Hnb Hr Ey.
  assert (0 < inject_Z nb)%Q as Hn by (rewrite <- (Zlt_Qlt 0); exact Hnb).
  assert (0 <= inject_Z r)%Q as Hr0 by (rewrite <- (Zle_Qle 0); lia).
  assert ((r = 0 -> (y == inject_Z q)%Q) /\ (r <> 0 -> ~ (y == inject_Z q)%Q))
    as [Z0 Z1].
  { split; intros H.
    - subst r. change (inject_Z 0) with 0%Q in Ey. nra.
    - intros E. assert (inject_Z r == 0)%Q as E0 by (rewrite E in Ey; lra).
      unfold Qeq in E0. simpl in E0. lia. }
  assert (Qcompare (y - inject_Z q) (1 # 2) = Z.compare (2 * r) nb) as Ec.
  { destruct (Z.compare_spec (2 * r) nb) as [E | L | G].
    - apply (proj1 (Qeq_alt _ _)). assert (2 * inject_Z r == inject_Z nb)%Q as E'
        by (rewrite <- E, inject_Z_mult; reflexivity).
      nra.
    - apply (proj1 (Qlt_alt _ _)). rewrite Zlt_Qlt, inject_Z_mult in L.
      change (inject_Z 2) with 2%Q in L. nra.
    - apply (proj1 (Qgt_alt _ _)). rewrite Zlt_Qlt, inject_Z_mult in G.
      change (inject_Z 2) with 2%Q in G. nra. }
  unfold new_location.
  destruct (Z.even nb) eqn:Ev; unfold new_location_even, new_location_odd;
    (destruct (Z.eqb_spec r 0) as [E0 | N0];
     [rewrite (loc_of_exact q y (Z0 E0)); reflexivity
     | rewrite (loc_of_inexact q y _ (Z1 N0) Ec)]).
  - reflexivity.
  - f_equal.
    assert (Z.odd nb = true) as Od by (rewrite <- Z.negb_even, Ev; reflexivity).
    apply Z.odd_spec in Od. destruct Od as [k Hk].
    destruct (Z.compare_spec (2 * r + 1) nb);
      destruct (Z.compare_spec (2 * r) nb); try reflexivity; lia.
Qed.

Lemma SFdiv_core_spec mx ex my ey :
  let x := ((inject_Z (Z.pos mx) * pow2 ex) / (inject_Z (Z.pos my) * pow2 ey))%Q in
  let r := SFdiv_core_binary prec emax (Z.pos mx) ex (Z.pos my) ey in
  0 <= fst (fst r) /\
  inbetween (fst (fst r)) (snd r) (x / pow2 (snd (fst r))) /\
  snd (fst r) <= cexp x.
Proof.
  intros x r. unfold r, SFdiv_core_binary. clear r.
  cbn [Zdigits2]. rewrite fexp_eq.
  set (d1 := Z.pos (digits2_pos mx)). set (d2 := Z.pos (digits2_pos my)).
  set (e' := Z.min (Z.max (d1 + ex - (d2 + ey) - 53) (-1074)) (ex - ey)).
  set (s := ex - ey - e').
  assert (0 <= s) as Hs by (unfold s, e'; lia).
  assert (s = ex - ey - e') as Es by reflexivity. clearbody s.
  set (m' := match s with
             | 0 => Z.pos mx
             | Z.pos _ => Z.shiftl (Z.pos mx) s
             | Z.neg _ => 0
             end).
  assert (m' = Z.pos mx * 2 ^ s) as Em.
  { unfold m'. clear m' Es. destruct s as [| p | p]; try lia.
    apply Z.shiftl_mul_pow2. lia. }
  clearbody m'.
  pose proof (Z_div_mod m' (Z.pos my) ltac:(lia)) as DM.
  destruct (Z.div_eucl m' (Z.pos my)) as [q rr]. destruct DM as [Eq Hr].
  cbn [fst snd].
  pose proof (pow2_pos ex) as Pex. pose proof (pow2_pos ey) as Pey.
  pose proof (pow2_pos e') as Pe'.
  assert (0 < inject_Z (Z.pos mx))%Q as Pmx by reflexivity.
  assert (0 < inject_Z (Z.pos my))%Q as Pmy by reflexivity.
  assert (0 < x)%Q as Hx.
  { unfold x. apply Qlt_shift_div_l; [nra |]. nra. }
  assert (x / pow2 e' * inject_Z (Z.pos my) == inject_Z m')%Q as Ey.
  { rewrite Em, inject_Z_mult, <- pow2_inject by assumption.
    rewrite Es, !pow2_sub. unfold x. field. repeat split; lra. }
  assert (0 <= q) as Hq.
  { assert (0 <= m') by (rewrite Em; apply Z.mul_nonneg_nonneg; [lia | apply Z.pow_nonneg; lia]).
    destruct (Z_lt_le_dec q 0); [| assumption]. nia. }
  split; [exact Hq | split].
  - assert (x / pow2 e' * inject_Z (Z.pos my)
            == inject_Z q * inject_Z (Z.pos my) + inject_Z rr)%Q as Ey'.
    { rewrite Ey, Eq, inject_Z_plus, inject_Z_mult. ring. }
    split.
    + assert (0 <= inject_Z rr)%Q by (rewrite <- (Zle_Qle 0); lia).
      assert (inject_Z rr < inject_Z (Z.pos my))%Q by (rewrite <- Zlt_Qlt; lia).
      set (y := (x / pow2 e')%Q) in *. clearbody y.
      split; nra.
    + apply new_location_spec; [lia | exact Hr | exact Ey'].
  - (* the exponent is not above the canonical one *)
    destruct (digits_bounds mx) as [X1 X2]. destruct (digits_bounds my) as [Y1 Y2].
    fold d1 in X1, X2. fold d2 in Y1, Y2.
    assert (0 < d1) by (unfold d1; lia). assert (0 < d2) by (unfold d2; lia).
    assert (d1 + ex - (d2 + ey) <= mag x) as Hmag.
    { destruct (mag_spec x Hx) as [M1 M2].
      assert (d1 + ex - (d2 + ey) - 1 < mag x); [| lia].
      apply pow2_lt_inv. eapply Qle_lt_trans; [| exact M2].
      rewrite Zle_Qle in X1. rewrite Zlt_Qlt in Y2.
      rewrite <- pow2_inject in X1, Y2 by lia.
      replace (d1 + ex - (d2 + ey) - 1) with ((d1 - 1 + ex) - (d2 + ey)) by ring.
      rewrite pow2_sub, !pow2_add. unfold x.
      pose proof (pow2_pos d2). pose proof (pow2_pos (d1 - 1)).
      apply Qle_shift_div_l; [nra |].
      assert (forall a b c : Q, a / b * c == a * c / b)%Q as Hd.
      { intros a b c. unfold Qdiv. ring. }
      rewrite Hd. apply Qle_shift_div_r; [nra |].
      set (a := pow2 (d1 - 1)) in *. set (b := pow2 d2) in *.
      set (u := pow2 ex) in *. set (v := pow2 ey) in *.
      set (p := inject_Z (Z.pos mx)) in *. set (w := inject_Z (Z.pos my)) in *.
      clearbody a b u v p w.
      clear - Pex Pey Pmx Pmy X1 Y2 H1 H2.
      assert (a * w <= p * b)%Q as Hab by nra.
      assert (0 <= u * v)%Q as Huv by nra.
      setoid_replace (a * u * (w * v))%Q with ((a * w) * (u * v))%Q by ring.
      setoid_replace (p * u * (b * v))%Q with ((p * b) * (u * v))%Q by ring.
      apply Qmult_le_compat_r; assumption. }
    unfold cexp, e'. lia.
Qed.

Lemma SFdiv_finite sx mx ex sy my ey :
  rounded (xorb sx sy)
          ((inject_Z (Z.pos mx) * pow2 ex) / (inject_Z (Z.pos my) * pow2 ey))
          (SFdiv prec emax (S754_finite sx mx ex) (S754_finite sy my ey)).
Proof.
  cbn [SFdiv].
  pose proof (SFdiv_core_spec mx ex my ey) as Spec. cbv zeta in Spec.
  destruct (SFdiv_core_binary prec emax (Z.pos mx) ex (Z.pos my) ey) as [[mz ez] lz].
  cbn [fst snd] in Spec. destruct Spec as (Hm & Hin & He).
  apply binary_round_aux_spec; try assumption.
  pose proof (pow2_pos ex). pose proof (pow2_pos ey).
  assert (0 < inject_Z (Z.pos mx))%Q by reflexivity.
  assert (0 < inject_Z (Z.pos my))%Q by reflexivity.
  apply Qlt_shift_div_l; nra.
Qed.

(** *** Normalisation, conversion from integers, addition *)

Lemma iter_xO m d : Z.pos (Pos.iter xO m d) = Z.pos m * 2 ^ Z.pos d.
Proof.
  induction d as [| d IH] using Pos.peano_ind.
  - simpl. lia.
  - rewrite Pos.iter_succ, Pos2Z.inj_xO, IH, Pos2Z.inj_succ.
    rewrite Z.pow_succ_r by lia. ring.
Qed.

Lemma shl_align_spec m e e' :
  snd (shl_align m e e') = Z.min e e' /\
  Z.pos (fst (shl_align m e e')) = Z.pos m * 2 ^ (e - Z.min e e').
Proof.
  unfold shl_align. destruct (e' - e) as [| d | d] eqn:Ed; cbn [fst snd].
  - replace (Z.min e e') with e by lia. rewrite Z.sub_diag. split; lia.
  - replace (Z.min e e') with e by lia. rewrite Z.sub_diag. split; lia.
  - replace (Z.min e e') with e' by lia. split; [reflexivity |].
    rewrite iter_xO. f_equal. f_equal. lia.
Qed.

Lemma shl_align_value m e e' :
  (inject_Z (Z.pos (fst (shl_align m e e'))) * pow2 (snd (shl_align m e e'))
   == inject_Z (Z.pos m) * pow2 e)%Q.
Proof.
  destruct (shl_align_spec m e e') as [-> ->].
  rewrite inject_Z_mult, <- pow2_inject by lia.
  rewrite <- Qmult_assoc, <- pow2_add.
  replace (e - Z.min e e' + Z.min e e') with e by ring. reflexivity.
Qed.

Lemma binary_round_spec s m e :
  rounded s (inject_Z (Z.pos m) * pow2 e) (binary_round prec emax s m e).
Proof.
  unfold binary_round.
  pose proof (shl_align_value m e (fexp prec emax (Z.pos (digits2_pos m) + e))) as V.
  destruct (shl_align_spec m e (fexp prec emax (Z.pos (digits2_pos m) + e))) as [E1 _].
  destruct (shl_align m e (fexp prec emax (Z.pos (digits2_pos m) + e))) as [mz ez].
  cbn [fst snd] in *.
  pose proof (finite_pos m e) as Hx.
  apply binary_round_aux_spec; try lia; try assumption.
  - apply inbetween_exact. rewrite <- V. field.
    pose proof (pow2_pos ez). lra.
  - unfold cexp. rewrite mag_finite. rewrite E1, fexp_eq. lia.
Qed.

Lemma rounded_valid s x f : rounded s x f -> valid_binary f = true.
Proof. destruct f; simpl; try reflexivity. intros (_ & _ & B). exact B. Qed.

Lemma rounded_not_nan s x f : rounded s x f -> f <> S754_nan.
Proof. intros R E. subst f. exact R. Qed.

Lemma rounded_comp s x y f : (0 < x)%Q -> (x == y)%Q -> rounded s x f -> rounded s y f.
Proof.
  intros Hx E R. pose proof (RN_comp x y Hx E) as ER.
  destruct f; simpl in *; try assumption.
  - destruct R as [-> R]. split; [reflexivity | lra].
  - destruct R as [-> R]. split; [reflexivity | lra].
  - destruct R as (-> & R & B). split; [reflexivity | split; [lra | exact B]].
Qed.

Lemma SF2Q_finite s m e :
  SF2Q (S754_finite s m e) = cond_Qopp s (inject_Z (Z.pos m) * pow2 e).
Proof. reflexivity. Qed.

Lemma binary_normalize_spec z e :
  let r := binary_normalize prec emax z e false in
  (z = 0 -> r = S754_zero false) /\
  (0 < z -> rounded false (inject_Z z * pow2 e) r) /\
  (z < 0 -> rounded true (- (inject_Z z * pow2 e)) r).
Proof.
  intros r. unfold r, binary_normalize. clear r.
  destruct z as [| p | p]; (split; [| split]); intros H; try lia; try reflexivity.
  - apply binary_round_spec.
  - eapply rounded_comp; [apply finite_pos | | apply binary_round_spec].
    change (Z.neg p) with (- Z.pos p). rewrite inject_Z_opp. ring.
Qed.

Lemma SFadd_finite sx mx ex sy my ey :
  let v := (SF2Q (S754_finite sx mx ex) + SF2Q (S754_finite sy my ey))%Q in
  let r := SFadd prec emax (S754_finite sx mx ex) (S754_finite sy my ey) in
  ((v == 0)%Q -> r = S754_zero false) /\
  ((0 < v)%Q -> rounded false v r) /\
  ((v < 0)%Q -> rounded true (- v) r).
Proof.
  intros v r. unfold r. cbn [SFadd]. clear r.
  set (ez := Z.min ex ey).
  destruct (shl_align_spec mx ex ez) as [_ Ex].
  destruct (shl_align_spec my ey ez) as [_ Ey].
  replace (Z.min ex ez) with ez in Ex by (unfold ez; lia).
  replace (Z.min ey ez) with ez in Ey by (unfold ez; lia).
  set (S := cond_Zopp sx (Z.pos (fst (shl_align mx ex ez)))
            + cond_Zopp sy (Z.pos (fst (shl_align my ey ez)))).
  assert (inject_Z S * pow2 ez == v)%Q as EV.
  { unfold S, v. rewrite !SF2Q_finite, Ex, Ey.
    assert (forall s m e, (inject_Z (cond_Zopp s (Z.pos m * 2 ^ (e - ez))) * pow2 ez
                           == cond_Qopp s (inject_Z (Z.pos m) * pow2 e))%Q
                          \/ e < ez) as Hc.
    { intros s m e. destruct (Z_lt_le_dec e ez); [right; assumption | left].
      assert (inject_Z (Z.pos m * 2 ^ (e - ez)) * pow2 ez == inject_Z (Z.pos m) * pow2 e)%Q as E0.
      { rewrite inject_Z_mult, <- pow2_inject by lia.
        rewrite <- Qmult_assoc, <- pow2_add.
        replace (e - ez + ez) with e by ring. reflexivity. }
      destruct s; cbn [cond_Zopp cond_Qopp]; [| exact E0].
      rewrite inject_Z_opp. rewrite <- E0. ring. }
    rewrite inject_Z_plus, Qmult_plus_distr_l.
    destruct (Hc sx mx ex) as [-> |]; [| unfold ez in *; lia].
    destruct (Hc sy my ey) as [-> |]; [| unfold ez in *; lia].
    reflexivity. }
  clearbody S. pose proof (pow2_pos ez) as Pz.
  destruct (binary_normalize_spec S ez) as (N0 & N1 & N2).
  split; [| split]; intros Hv.
  - apply N0. assert (inject_Z S == 0)%Q as E0 by nra.
    unfold Qeq in E0. simpl in E0. lia.
  - assert (0 < S) as HS.
    { rewrite Zlt_Qlt. change (inject_Z 0) with 0%Q. nra. }
    eapply rounded_comp; [| exact EV | apply N1, HS]. lra.
  - assert (S < 0) as HS.
    { rewrite Zlt_Qlt. change (inject_Z 0) with 0%Q. nra. }
    eapply rounded_comp; [| | apply N2, HS]; lra.
Qed.

(** *** Comparison *)

Lemma bounded_mantissa m e :
  bounded prec emax m e = true ->
  (inject_Z (Z.pos m) < pow2 53)%Q /\ -1074 <= e <= 971 /\
  (-1074 < e -> (pow2 52 <= inject_Z (Z.pos m))%Q).
Proof.
  intros B. destruct (bounded_inv m e B) as [C1 C2].
  destruct (digits_bounds m) as [D1 D2].
  set (d := Z.pos (digits2_pos m)) in *.
  rewrite !pow2_inject by lia.
  split; [| split; [lia |]].
  - rewrite <- Zlt_Qlt.
    assert (2 ^ d <= 2 ^ 53) by (apply Z.pow_le_mono_r; lia). lia.
  - intros He. rewrite <- Zle_Qle.
    assert (2 ^ 52 <= 2 ^ (d - 1)) by (apply Z.pow_le_mono_r; lia). lia.
Qed.

Lemma finite_lt_of_exponent m1 e1 m2 e2 :
  bounded prec emax m1 e1 = true -> bounded prec emax m2 e2 = true ->
  e1 < e2 ->
  (inject_Z (Z.pos m1) * pow2 e1 < inject_Z (Z.pos m2) * pow2 e2)%Q.
Proof.
  intros B1 B2 He.
  destruct (bounded_mantissa m1 e1 B1) as (U1 & R1 & _).
  destruct (bounded_mantissa m2 e2 B2) as (_ & R2 & L2).
  assert (pow2 52 <= inject_Z (Z.pos m2))%Q as L by (apply L2; lia).
  pose proof (pow2_pos e1) as P1. pose proof (pow2_pos e2) as P2.
  assert (pow2 (53 + e1) <= pow2 (52 + e2))%Q as Hp by (apply pow2_le; lia).
  rewrite !pow2_add in Hp.
  set (a := inject_Z (Z.pos m1)) in *. set (b := inject_Z (Z.pos m2)) in *.
  set (p := pow2 e1) in *. set (q := pow2 e2) in *.
  set (u := pow2 53) in *. set (w := pow2 52) in *.
  clearbody a b p q u w.
  assert (a * p < u * p)%Q by nra.
  assert (w * q <= b * q)%Q by nra.
  lra.
Qed.

Lemma compare_finite_pos m1 e1 m2 e2 :
  bounded prec emax m1 e1 = true -> bounded prec emax m2 e2 = true ->
  match e1 ?= e2 with
  | Lt => Lt
  | Gt => Gt
  | Eq => Pos.compare_cont Eq m1 m2
  end
  = Qcompare (inject_Z (Z.pos m1) * pow2 e1) (inject_Z (Z.pos m2) * pow2 e2).
Proof.
  intros B1 B2. symmetry.
  destruct (Z.compare_spec e1 e2) as [E | L | G].
  - subst e2. pose proof (pow2_pos e1) as P.
    change (Pos.compare_cont Eq m1 m2) with (Pos.compare m1 m2).
    destruct (Pos.compare_spec m1 m2) as [E | L | G].
    + subst. apply (proj1 (Qeq_alt _ _)). reflexivity.
    + apply (proj1 (Qlt_alt _ _)). apply Qmult_lt_r; [exact P |].
      rewrite <- Zlt_Qlt. lia.
    + apply (proj1 (Qgt_alt _ _)). apply Qmult_lt_r; [exact P |].
      rewrite <- Zlt_Qlt. lia.
  - apply (proj1 (Qlt_alt _ _)). now apply finite_lt_of_exponent.
  - apply (proj1 (Qgt_alt _ _)). now apply finite_lt_of_exponent.
Qed.

Lemma SFcompare_finite f1 f2 :
  valid_binary f1 = true -> valid_binary f2 = true ->
  SFfinite f1 = true -> SFfinite f2 = true ->
  SFcompare f1 f2 = Some (Qcompare (SF2Q f1) (SF2Q f2)).
Proof.
  intros V1 V2 F1 F2.
  destruct f1 as [s1 | s1 | | s1 m1 e1]; try discriminate;
    destruct f2 as [s2 | s2 | | s2 m2 e2]; try discriminate; cbn [SFcompare];
      f_equal; symmetry.
  - destruct s1, s2; reflexivity.
  - pose proof (finite_pos m2 e2) as P. unfold SF2Q. cbn [SFsign SFabsQ].
    destruct s1, s2; [apply (proj1 (Qgt_alt _ _)) | apply (proj1 (Qlt_alt _ _))
                      | apply (proj1 (Qgt_alt _ _)) | apply (proj1 (Qlt_alt _ _))]; lra.
  - pose proof (finite_pos m1 e1) as P. unfold SF2Q. cbn [SFsign SFabsQ].
    destruct s1, s2; [apply (proj1 (Qlt_alt _ _)) | apply (proj1 (Qlt_alt _ _))
                      | apply (proj1 (Qgt_alt _ _)) | apply (proj1 (Qgt_alt _ _))]; lra.
  - pose proof (finite_pos m1 e1) as P1. pose proof (finite_pos m2 e2) as P2.
    simpl in V1, V2. unfold SF2Q. cbn [SFsign SFabsQ].
    destruct s1, s2.
    + assert (match e1 ?= e2 with
              | Eq => CompOpp (Pos.compare_cont Eq m1 m2)
              | Lt => Gt
              | Gt => Lt
              end
              = CompOpp match e1 ?= e2 with
                        | Eq => Pos.compare_cont Eq m1 m2
                        | Lt => Lt
                        | Gt => Gt
                        end) as -> by (destruct (e1 ?= e2); reflexivity).
      rewrite (compare_finite_pos m1 e1 m2 e2 V1 V2).
      destruct (Qcompare_spec (inject_Z (Z.pos m1) * pow2 e1) (inject_Z (Z.pos m2) * pow2 e2));
        cbn [CompOpp];
        [apply (proj1 (Qeq_alt _ _)) | apply (proj1 (Qgt_alt _ _))
         | apply (proj1 (Qlt_alt _ _))]; lra.
    + apply (proj1 (Qlt_alt _ _)). lra.
    + apply (proj1 (Qgt_alt _ _)). lra.
    + symmetry. now apply compare_finite_pos.
Qed.

Lemma rounded_value s q f :
  rounded s q f -> (RN q < pow2 1024)%Q ->
  SFfinite f = true /\ (SF2Q f == cond_Qopp s (RN q))%Q.
Proof.
  destruct f as [s' | s' | | s' m e]; cbn [rounded]; intros R Hb.
  - destruct R as [-> E]. split; [reflexivity |].
    unfold SF2Q. destruct s; cbn [SFsign SFabsQ cond_Qopp]; lra.
  - destruct R as [_ R]. lra.
  - contradiction.
  - destruct R as (-> & E & _). split; [reflexivity |].
    rewrite SF2Q_finite. destruct s; cbn [cond_Qopp]; lra.
Qed.

Lemma finite_is_rounded s m e :
  bounded prec emax m e = true ->
  rounded s (inject_Z (Z.pos m) * pow2 e) (S754_finite s m e).
Proof.
  intros B. cbn [rounded]. split; [reflexivity | split; [| exact B]].
  symmetry. apply RN_exact, finite_representable, B.
Qed.

Lemma SFzero_value s : (SF2Q (S754_zero s) == 0)%Q.
Proof. destruct s; reflexivity. Qed.

Lemma SF2Q_value_cases f :
  SFfinite f = true ->
  (exists s, f = S754_zero s /\ (SF2Q f == 0)%Q) \/
  (exists s m e, f = S754_finite s m e /\
                 (0 < inject_Z (Z.pos m) * pow2 e)%Q /\
                 SF2Q f = cond_Qopp s (inject_Z (Z.pos m) * pow2 e)).
Proof.
  destruct f as [s | s | | s m e]; try discriminate; intros _.
  - left. exists s. split; [reflexivity | apply SFzero_value].
  - right. exists s, m, e. split; [reflexivity | split; [apply finite_pos | reflexivity]].
Qed.

Lemma SFmul_spec f1 f2 :
  valid_binary f1 = true -> valid_binary f2 = true ->
  SFfinite f1 = true -> SFfinite f2 = true ->
  rounding_of (SF2Q f1 * SF2Q f2) (SFmul prec emax f1 f2).
Proof.
  intros V1 V2 F1 F2.
  destruct (SF2Q_value_cases f1 F1) as [(s1 & -> & E1) | (s1 & m1 & e1 & -> & P1 & E1)];
    destruct (SF2Q_value_cases f2 F2) as [(s2 & -> & E2) | (s2 & m2 & e2 & -> & P2 & E2)].
  - cbn [SFmul]. repeat split; intros; try nra; try reflexivity; apply SFzero_value.
  - cbn [SFmul]. repeat split; intros; try nra; try reflexivity; apply SFzero_value.
  - cbn [SFmul]. repeat split; intros; try nra; try reflexivity; apply SFzero_value.
  - pose proof (SFmul_finite s1 m1 e1 s2 m2 e2 V1 V2) as R.
    rewrite E1, E2. clear E1 E2.
    set (a := (inject_Z (Z.pos m1) * pow2 e1)%Q) in *.
    set (b := (inject_Z (Z.pos m2) * pow2 e2)%Q) in *.
    assert (0 < a * b)%Q as Pab by nra.
    split; [| split]; intros H.
    + exfalso. destruct s1, s2; cbn [cond_Qopp] in H; nra.
    + destruct s1, s2; cbn [cond_Qopp xorb] in *; try nra;
        (eapply rounded_comp; [exact Pab | | exact R]); ring.
    + destruct s1, s2; cbn [cond_Qopp xorb] in *; try nra;
        (eapply rounded_comp; [exact Pab | | exact R]); ring.
Qed.

Lemma SFdiv_spec f1 f2 :
  valid_binary f1 = true -> valid_binary f2 = true ->
  SFfinite f1 = true -> SFfinite f2 = true -> ~ (SF2Q f2 == 0)%Q ->
  rounding_of (SF2Q f1 / SF2Q f2) (SFdiv prec emax f1 f2).
Proof.
  intros V1 V2 F1 F2 N2.
  destruct (SF2Q_value_cases f2 F2) as [(s2 & -> & E2) | (s2 & m2 & e2 & -> & P2 & E2)];
    [contradiction |].
  destruct (SF2Q_value_cases f1 F1) as [(s1 & -> & E1) | (s1 & m1 & e1 & -> & P1 & E1)].
  - cbn [SFdiv]. 
    assert (SF2Q (S754_zero s1) / SF2Q (S754_finite s2 m2 e2) == 0)%Q as E0.
    { rewrite E1. unfold Qdiv. ring. }
    repeat split; intros; try lra; try reflexivity; apply SFzero_value.
  - pose proof (SFdiv_finite s1 m1 e1 s2 m2 e2) as R.
    rewrite E1, E2. clear E1 E2 N2.
    set (a := (inject_Z (Z.pos m1) * pow2 e1)%Q) in *.
    set (b := (inject_Z (Z.pos m2) * pow2 e2)%Q) in *.
    assert (0 < a / b)%Q as Pab by (apply Qlt_shift_div_l; lra).
    assert (cond_Qopp s1 a / cond_Qopp s2 b
            == cond_Qopp (xorb s1 s2) (a / b))%Q as Eq1
      by (destruct s1, s2; cbn [cond_Qopp xorb]; field; lra).
    split; [| split]; intros H; rewrite Eq1 in H;
      destruct (xorb s1 s2); cbn [cond_Qopp] in *; try lra;
      (eapply rounded_comp; [exact Pab | | exact R]); rewrite Eq1; lra.
Qed.

Lemma rounding_of_self f :
  valid_binary f = true -> SFfinite f = true -> rounding_of (SF2Q f) f.
Proof.
  intros V F.
  destruct (SF2Q_value_cases f F) as [(s & -> & E) | (s & m & e & -> & P & E)].
  - repeat split; intros; try lra; try reflexivity; assumption.
  - rewrite E. simpl in V.
    set (a := (inject_Z (Z.pos m) * pow2 e)%Q) in *.
    split; [| split]; intros H; destruct s; cbn [cond_Qopp] in *; try lra.
    + apply finite_is_rounded, V.
    + eapply rounded_comp; [exact P | | apply finite_is_rounded, V]. ring.
Qed.

Lemma rounding_of_comp q q' f : (q == q')%Q -> rounding_of q f -> rounding_of q' f.
Proof.
  intros E (R0 & R1 & R2). split; [| split]; intros H.
  - apply R0. lra.
  - eapply rounded_comp; [| exact E | apply R1]; lra.
  - eapply rounded_comp; [| | apply R2]; lra.
Qed.

Lemma SFadd_spec f1 f2 :
  valid_binary f1 = true -> valid_binary f2 = true ->
  SFfinite f1 = true -> SFfinite f2 = true ->
  rounding_of (SF2Q f1 + SF2Q f2) (SFadd prec emax f1 f2).
Proof.
  intros V1 V2 F1 F2.
  destruct f1 as [s1 | s1 | | s1 m1 e1]; try discriminate;
    destruct f2 as [s2 | s2 | | s2 m2 e2]; try discriminate.
  - assert (SFadd prec emax (S754_zero s1) (S754_zero s2) = S754_zero (s1 && s2)) as ->
      by (destruct s1, s2; reflexivity).
    pose proof (SFzero_value s1). pose proof (SFzero_value s2).
    repeat split; intros; try lra; apply SFzero_value.
  - cbn [SFadd]. eapply rounding_of_comp; [| apply rounding_of_self; assumption].
    pose proof (SFzero_value s1). lra.
  - cbn [SFadd]. eapply rounding_of_comp; [| apply rounding_of_self; assumption].
    pose proof (SFzero_value s2). lra.
  - destruct (SFadd_finite s1 m1 e1 s2 m2 e2) as (A0 & A1 & A2).
    split; [| split]; intros H.
    + rewrite (A0 H). split; [reflexivity | reflexivity].
    + apply A1, H.
    + apply A2, H.
Qed.

Lemma binary_normalize_rounding z :
  rounding_of (inject_Z z) (binary_normalize prec emax z 0 false).
Proof.
  destruct (binary_normalize_spec z 0) as (N0 & N1 & N2).
  assert (inject_Z z * pow2 0 == inject_Z z)%Q as E by (change (pow2 0) with 1%Q; ring).
  split; [| split]; intros H.
  - rewrite N0; [split; reflexivity |]. unfold Qeq in H. simpl in H. lia.
  - eapply rounded_comp; [| exact E | apply N1].
    + lra.
    + rewrite Zlt_Qlt. exact H.
  - eapply rounded_comp; [| | apply N2].
    + lra.
    + lra.
    + rewrite Zlt_Qlt. exact H.
Qed.

Lemma rounding_of_valid q f : rounding_of q f -> valid_binary f = true.
Proof.
  intros (R0 & R1 & R2).
  destruct (Qcompare_spec q 0) as [E | L | G].
  - destruct (R0 E) as [F _]. destruct f; try discriminate; try reflexivity.
    (* a finite number with value 0 does not exist *)
    destruct (R0 E) as [_ V]. rewrite SF2Q_finite in V.
    pose proof (finite_pos m e). destruct s; cbn [cond_Qopp] in V; lra.
  - eapply rounded_valid, R2, L.
  - eapply rounded_valid, R1, G.
Qed.

(** *** Primitive floats *)

Lemma mul_rounding x y :
  finite x -> finite y -> rounding_of (B2Q x * B2Q y) (Prim2SF (x * y)).
Proof.
  intros Fx Fy. rewrite mul_spec.
  apply SFmul_spec; try assumption; apply Prim2SF_valid.
Qed.

Lemma div_rounding x y :
  finite x -> finite y -> ~ (B2Q y == 0)%Q ->
  rounding_of (B2Q x / B2Q y) (Prim2SF (x / y)).
Proof.
  intros Fx Fy N. rewrite div_spec.
  apply SFdiv_spec; try assumption; apply Prim2SF_valid.
Qed.

Lemma add_rounding x y :
  finite x -> finite y -> rounding_of (B2Q x + B2Q y) (Prim2SF (x + y)).
Proof.
  intros Fx Fy. rewrite add_spec.
  apply SFadd_spec; try assumption; apply Prim2SF_valid.
Qed.

Lemma of_Z_rounding z : rounding_of (inject_Z z) (Prim2SF (Binary64.of_Z z)).
Proof.
  unfold Binary64.of_Z. rewrite Prim2SF_SF2Prim.
  - apply binary_normalize_rounding.
  - eapply rounding_of_valid, binary_normalize_rounding.
Qed.

Lemma rounding_of_exact q f :
  rounding_of q f -> (0 < q)%Q -> representable q ->
  SFfinite f = true /\ (SF2Q f == q)%Q.
Proof.
  intros (_ & R & _) Hq Rep.
  pose proof (RN_exact q Rep) as E.
  destruct (rounded_value false q f (R Hq)) as [F V].
  - rewrite E. destruct Rep as (M & e & [M0 M1] & [E0 E1] & Eq). rewrite Eq.
    assert (pow2 e <= pow2 971)%Q by (apply pow2_le; lia).
    pose proof (pow2_pos e).
    change (pow2 1024) with (pow2 53 * pow2 971)%Q.
    rewrite Zlt_Qlt in M0, M1. rewrite <- pow2_inject in M1 by lia.
    change (inject_Z 0) with 0%Q in M0.
    assert (0 < pow2 53)%Q by reflexivity.
    set (a := inject_Z M) in *. set (p := pow2 e) in *.
    set (u := pow2 53) in *. set (w := pow2 971) in *. clearbody a p u w.
    assert (a * p < u * p)%Q by nra. assert (u * p <= u * w)%Q by nra. lra.
  - split; [exact F |]. cbn [cond_Qopp] in V. lra.
Qed.

Lemma rounding_of_zero q f :
  rounding_of q f -> (q == 0)%Q -> SFfinite f = true /\ (SF2Q f == 0)%Q.
Proof. intros (R & _ & _) E. exact (R E). Qed.

Lemma representable_Z z : 0 < z < 2 ^ 53 -> representable (inject_Z z).
Proof.
  intros H. exists z, 0. split; [exact H | split; [lia |]].
  change (pow2 0) with 1%Q. ring.
Qed.

(** Integers below 2^53 convert without error. *)
Lemma of_Z_exact z :
  0 <= z < 2 ^ 53 ->
  finite (Binary64.of_Z z) /\ (B2Q (Binary64.of_Z z) == inject_Z z)%Q.
Proof.
  intros [H0 H1]. pose proof (of_Z_rounding z) as R.
  destruct (Z.eq_dec z 0) as [-> | N].
  - apply (rounding_of_zero _ _ R). reflexivity.
  - apply (rounding_of_exact _ _ R).
    + rewrite <- (Zlt_Qlt 0). lia.
    + apply representable_Z. lia.
Qed.

(** *** Comparisons *)

Lemma compare_finite x y :
  finite x -> finite y ->
  SFcompare (Prim2SF x) (Prim2SF y) = Some (Qcompare (B2Q x) (B2Q y)).
Proof.
  intros Fx Fy. apply SFcompare_finite; try assumption; apply Prim2SF_valid.
Qed.

Lemma ltb_finite x y :
  finite x -> finite y ->
  ((x <? y)%float = true <-> (B2Q x < B2Q y)%Q).
Proof.
  intros Fx Fy. rewrite FloatAxioms.ltb_spec. unfold SFltb. rewrite (compare_finite x y Fx Fy).
  destruct (Qcompare_spec (B2Q x) (B2Q y)); split; intros; try discriminate; try reflexivity; lra.
Qed.

Lemma leb_finite x y :
  finite x -> finite y ->
  ((x <=? y)%float = true <-> (B2Q x <= B2Q y)%Q).
Proof.
  intros Fx Fy. rewrite FloatAxioms.leb_spec. unfold SFleb. rewrite (compare_finite x y Fx Fy).
  destruct (Qcompare_spec (B2Q x) (B2Q y)); split; intros; try discriminate; try reflexivity; lra.
Qed.

Lemma eqb_finite x y :
  finite x -> finite y ->
  ((x =? y)%float = true <-> (B2Q x == B2Q y)%Q).
Proof.
  intros Fx Fy. rewrite FloatAxioms.eqb_spec. unfold SFeqb. rewrite (compare_finite x y Fx Fy).
  destruct (Qcompare_spec (B2Q x) (B2Q y)); split; intros; try discriminate; try reflexivity; lra.
Qed.

Lemma SFcompare_refl f : f <> S754_nan -> SFcompare f f = Some Eq.
Proof.
  destruct f as [s | s | | s m e]; intros N; try congruence; cbn [SFcompare].
  - reflexivity.
  - destruct s; reflexivity.
  - rewrite Z.compare_refl.
    change (Pos.compare_cont Eq m m) with (Pos.compare m m).
    rewrite Pos.compare_refl. destruct s; reflexivity.
Qed.

Lemma is_nan_spec x :
  PrimFloat.is_nan x = match Prim2SF x with S754_nan => true | _ => false end.
Proof.
  unfold PrimFloat.is_nan. rewrite FloatAxioms.eqb_spec. unfold SFeqb.
  destruct (Prim2SF x) eqn:E; try (rewrite SFcompare_refl by discriminate; reflexivity).
  reflexivity.
Qed.

(** *** [int()] *)

Lemma trunc_nonneg x :
  finite x -> (0 <= B2Q x)%Q -> Binary64.trunc x = Ok (Qfloor (B2Q x)).
Proof.
  unfold finite, B2Q, Binary64.trunc. intros F H.
  destruct (Prim2SF x) as [s | s | | s m e]; try discriminate.
  - f_equal. rewrite (Qfloor_comp _ 0 (SFzero_value s)). reflexivity.
  - rewrite SF2Q_finite in *. pose proof (finite_pos m e) as P.
    destruct s; cbn [cond_Qopp] in *; [lra |]. f_equal.
    destruct (Z.leb_spec 0 e) as [He | He].
    + rewrite Z.shiftl_mul_pow2 by assumption.
      assert (inject_Z (Z.pos m) * pow2 e == inject_Z (Z.pos m * 2 ^ e))%Q as E
        by (rewrite inject_Z_mult, pow2_inject by assumption; reflexivity).
      rewrite (Qfloor_comp _ _ E), Qfloor_Z. reflexivity.
    + rewrite Z.shiftr_div_pow2 by lia. rewrite Zdiv_Qdiv.
      apply Qfloor_comp.
      assert (pow2 e == / pow2 (- e))%Q as Ep
        by (unfold pow2; rewrite <- Qpower_opp, Z.opp_involutive; reflexivity).
      rewrite Ep, pow2_inject by lia. reflexivity.
Qed.

Lemma representable_bound b : representable b -> (0 < b < pow2 1024)%Q.
Proof.
  intros (M & e & [M0 M1] & [E0 E1] & Eq). rewrite Eq.
  assert (pow2 e <= pow2 971)%Q by (apply pow2_le; lia).
  pose proof (pow2_pos e).
  change (pow2 1024) with (pow2 53 * pow2 971)%Q.
  rewrite Zlt_Qlt in M0, M1. rewrite <- pow2_inject in M1 by lia.
  change (inject_Z 0) with 0%Q in M0.
  assert (0 < pow2 53)%Q by reflexivity.
  set (a := inject_Z M) in *. set (p := pow2 e) in *.
  set (u := pow2 53) in *. set (w := pow2 971) in *. clearbody a p u w.
  assert (a * p < u * p)%Q by nra. assert (u * p <= u * w)%Q by nra.
  split; nra.
Qed.

Lemma RN_le_representable q b :
  (0 < q)%Q -> (q <= b)%Q -> representable b -> (RN q <= b)%Q.
Proof.
  intros Hq Hb R. rewrite <- (RN_exact b R). now apply RN_mono.
Qed.

Lemma RN_ge_representable q b :
  (b <= q)%Q -> representable b -> (b <= RN q)%Q.
Proof.
  intros Hb R. rewrite <- (RN_exact b R). apply RN_mono; [| exact Hb].
  apply representable_bound, R.
Qed.

Lemma rounding_pos q b f :
  rounding_of q f -> (0 < q)%Q -> (q <= b)%Q -> representable b ->
  SFfinite f = true /\ (SF2Q f == RN q)%Q.
Proof.
  intros (_ & R & _) Hq Hb Rb.
  destruct (rounded_value false q f (R Hq)) as [F V].
  - pose proof (RN_le_representable q b Hq Hb Rb).
    destruct (representable_bound b Rb). lra.
  - split; [exact F | exact V].
Qed.

Lemma mul_pos x y b :
  finite x -> finite y -> (0 < B2Q x)%Q -> (0 < B2Q y)%Q ->
  (B2Q x * B2Q y <= b)%Q -> representable b ->
  finite (x * y) /\ (B2Q (x * y) == RN (B2Q x * B2Q y))%Q.
Proof.
  intros Fx Fy Px Py Hb Rb.
  apply (rounding_pos _ b _ (mul_rounding x y Fx Fy)); try assumption. nra.
Qed.

Lemma div_pos x y b :
  finite x -> finite y -> (0 < B2Q x)%Q -> (0 < B2Q y)%Q ->
  (B2Q x / B2Q y <= b)%Q -> representable b ->
  finite (x / y) /\ (B2Q (x / y) == RN (B2Q x / B2Q y))%Q.
Proof.
  intros Fx Fy Px Py Hb Rb.
  apply (rounding_pos _ b _ (div_rounding x y Fx Fy ltac:(lra))); try assumption.
  apply Qlt_shift_div_l; lra.
Qed.

Lemma mul_zero x y :
  finite x -> finite y -> (B2Q x * B2Q y == 0)%Q ->
  finite (x * y) /\ (B2Q (x * y) == 0)%Q.
Proof.
  intros Fx Fy E. apply (rounding_of_zero _ _ (mul_rounding x y Fx Fy) E).
Qed.

Lemma div_zero x y :
  finite x -> finite y -> (B2Q x == 0)%Q -> ~ (B2Q y == 0)%Q ->
  finite (x / y) /\ (B2Q (x / y) == 0)%Q.
Proof.
  intros Fx Fy E N. apply (rounding_of_zero _ _ (div_rounding x y Fx Fy N)).
  rewrite E. unfold Qdiv. ring.
Qed.

Lemma representable_pow2 k : -1074 <= k <= 1023 -> representable (pow2 k).
Proof.
  intros H. destruct (Z_le_gt_dec k 971).
  - exists 1, k. split; [lia | split; [lia |]]. ring.
  - exists (2 ^ (k - 971)), 971. split; [| split; [lia |]].
    + split; [apply Z.pow_pos_nonneg; lia | apply Z.pow_lt_mono_r; lia].
    + rewrite <- pow2_inject, <- pow2_add by lia.
      replace (k - 971 + 971) with k by ring. reflexivity.
Qed.

(** A float of value at least [2^-1021] halves without error. *)
Lemma RN_half v :
  representable v -> (pow2 (-1021) <= v)%Q -> representable (v * (1 # 2)).
Proof.
  intros (M & e & [M0 M1] & [E0 E1] & Eq) Hv.
  exists M, (e - 1). split; [lia | split].
  - assert (-1074 < e); [| lia].
    apply pow2_lt_inv.
    rewrite Eq in Hv. rewrite Zlt_Qlt in M1. rewrite <- pow2_inject in M1 by lia.
    pose proof (pow2_pos e). 
    assert (pow2 (-1021) == pow2 53 * pow2 (-1074))%Q as E21
      by (rewrite <- pow2_add; reflexivity).
    rewrite E21 in Hv.
    assert (0 < pow2 53)%Q by reflexivity. pose proof (pow2_pos (-1074)).
    set (a := inject_Z M) in *. set (p := pow2 e) in *.
    set (u := pow2 53) in *. set (w := pow2 (-1074)) in *. clearbody a p u w.
    assert (a * p < u * p)%Q by nra. nra.
  - rewrite Eq, pow2_pred. ring.
Qed.

Lemma finite_value_representable x :
  finite x -> (0 < B2Q x)%Q -> representable (B2Q x).
Proof.
  unfold finite, B2Q. intros F P. pose proof (Prim2SF_valid x) as V.
  destruct (Prim2SF x) as [s | s | | s m e]; try discriminate.
  - pose proof (SFzero_value s). lra.
  - rewrite SF2Q_finite in *. pose proof (finite_pos m e).
    destruct s; cbn [cond_Qopp] in *; [lra |].
    apply finite_representable, V.
Qed.

Lemma half_value :
  finite (of_dec (F:=float) 0.5) /\ (B2Q (of_dec (F:=float) 0.5) == 1 # 2)%Q.
Proof. split; vm_compute; reflexivity. Qed.

Lemma of_int_pos z :
  0 < z < 2 ^ 53 ->
  finite (of_int (F:=float) z) /\ (B2Q (of_int (F:=float) z) == inject_Z z)%Q /\
  (0 < B2Q (of_int (F:=float) z))%Q.
Proof.
  intros H. destruct (of_Z_exact z ltac:(lia)) as [F V].
  split; [exact F | split; [exact V |]].
  change (of_int z) with (Binary64.of_Z z). rewrite V.
  rewrite <- (Zlt_Qlt 0). lia.
Qed.

Lemma of_int_zero :
  finite (of_int (F:=float) 0) /\ (B2Q (of_int (F:=float) 0) == 0)%Q.
Proof. split; vm_compute; reflexivity. Qed.

(** *** Results that may be zero *)

Lemma RN0_pos q : (0 < q)%Q -> RN0 q = RN q.
Proof. intros H. unfold RN0. destruct (Qlt_le_dec 0 q); [reflexivity | lra]. Qed.

Lemma RN0_nonpos q : (q <= 0)%Q -> RN0 q = 0%Q.
Proof. intros H. unfold RN0. destruct (Qlt_le_dec 0 q); [lra | reflexivity]. Qed.

Lemma RN0_nonneg q : (0 <= RN0 q)%Q.
Proof.
  unfold RN0. destruct (Qlt_le_dec 0 q); [now apply RN_nonneg | lra].
Qed.

Lemma RN0_mono p q : (p <= q)%Q -> (RN0 p <= RN0 q)%Q.
Proof.
  intros H. unfold RN0.
  destruct (Qlt_le_dec 0 p), (Qlt_le_dec 0 q); try lra.
  - now apply RN_mono.
  - now apply RN_nonneg.
Qed.

Lemma RN0_comp p q : (p == q)%Q -> (RN0 p == RN0 q)%Q.
Proof.
  intros H. unfold RN0.
  destruct (Qlt_le_dec 0 p), (Qlt_le_dec 0 q); try lra.
  now apply RN_comp.
Qed.

#[export] Instance RN0_proper : Proper (Qeq ==> Qeq) RN0.
Proof. intros p q E. now apply RN0_comp. Qed.

Lemma RN0_exact q : representable q -> (RN0 q == q)%Q.
Proof.
  intros R. rewrite RN0_pos by apply (representable_bound q R).
  now apply RN_exact.
Qed.

Lemma RN0_le_representable q b :
  (q <= b)%Q -> representable b -> (RN0 q <= b)%Q.
Proof.
  intros H R. rewrite <- (RN0_exact b R). now apply RN0_mono.
Qed.

Lemma RN0_ge_representable q b :
  (b <= q)%Q -> representable b -> (b <= RN0 q)%Q.
Proof.
  intros H R. rewrite <- (RN0_exact b R). now apply RN0_mono.
Qed.

(** A non-negative result below a representable bound is rounded
    without overflow. *)
Lemma rounding_nonneg q b f :
  rounding_of q f -> (0 <= q)%Q -> (q <= b)%Q -> representable b ->
  SFfinite f = true /\ (SF2Q f == RN0 q)%Q.
Proof.
  intros R Hq Hb Rb.
  destruct (Qlt_le_dec 0 q) as [P | Z].
  - rewrite (RN0_pos q P). exact (rounding_pos q b f R P Hb Rb).
  - rewrite (RN0_nonpos q Z). apply (rounding_of_zero q f R). lra.
Qed.

Lemma mul_nonneg x y b :
  finite x -> finite y -> (0 <= B2Q x)%Q -> (0 <= B2Q y)%Q ->
  (B2Q x * B2Q y <= b)%Q -> representable b ->
  finite (x * y) /\ (B2Q (x * y) == RN0 (B2Q x * B2Q y))%Q.
Proof.
  intros Fx Fy Px Py Hb Rb.
  apply (rounding_nonneg _ b _ (mul_rounding x y Fx Fy)); try assumption. nra.
Qed.

Lemma div_nonneg x y b :
  finite x -> finite y -> (0 <= B2Q x)%Q -> (0 < B2Q y)%Q ->
  (B2Q x / B2Q y <= b)%Q -> representable b ->
  finite (x / y) /\ (B2Q (x / y) == RN0 (B2Q x / B2Q y))%Q.
Proof.
  intros Fx Fy Px Py Hb Rb.
  apply (rounding_nonneg _ b _ (div_rounding x y Fx Fy ltac:(lra)));
    try assumption.
  apply Qle_shift_div_l; lra.
Qed.

(** An int up to 2^63 converts to the nearest double. *)
Lemma of_int_round z :
  1 <= z <= 2 ^ 63 ->
  finite (of_int (F:=float) z) /\
  (B2Q (of_int (F:=float) z) == RN (inject_Z z))%Q /\
  (1 <= B2Q (of_int (F:=float) z) <= pow2 63)%Q.
Proof.
  intros [H1 H2]. change (of_int z) with (Binary64.of_Z z).
  assert (1 <= inject_Z z <= pow2 63)%Q as B.
  { change 1%Q with (inject_Z 1). change (pow2 63) with (inject_Z (2 ^ 63)).
    rewrite <- !Zle_Qle. lia. }
  destruct (rounding_pos _ (pow2 63) _ (of_Z_rounding z)) as [F V];
    [lra | lra | apply representable_pow2; lia |].
  split; [exact F | split; [exact V |]].
  change (SF2Q (Prim2SF (Binary64.of_Z z))) with (B2Q (Binary64.of_Z z)) in V.
  rewrite V. split.
  - apply RN_ge_representable; [lra |].
    change 1%Q with (pow2 0). apply representable_pow2. lia.
  - apply RN_le_representable; [lra | lra | apply representable_pow2; lia].
Qed.

Lemma of_int_finite z :
  - 2 ^ 53 < z < 2 ^ 53 ->
  finite (of_int (F:=float) z) /\ (B2Q (of_int (F:=float) z) == inject_Z z)%Q.
Proof.
  intros H. destruct (Z_le_gt_dec 0 z) as [P | N].
  - apply of_Z_exact. lia.
  - change (of_int z) with (Binary64.of_Z z).
    destruct (of_Z_rounding z) as (_ & _ & R).
    assert (inject_Z z < 0)%Q as L
      by (change 0%Q with (inject_Z 0); rewrite <- Zlt_Qlt; lia).
    assert (representable (- inject_Z z)) as Rz.
    { rewrite <- inject_Z_opp. apply representable_Z. lia. }
    destruct (rounded_value true (- inject_Z z) _ (R L)) as [F V].
    + rewrite (RN_exact _ Rz). apply (representable_bound _ Rz).
    + split; [exact F |]. unfold B2Q. rewrite V. cbn [cond_Qopp].
      rewrite (RN_exact _ Rz). ring.
Qed.

(** A result of magnitude below a representable bound is finite. *)
Lemma rounding_finite q b f :
  rounding_of q f -> (- b <= q <= b)%Q -> representable b ->
  SFfinite f = true.
Proof.
  intros R Hb Rb. destruct (representable_bound b Rb) as [Pb Ub].
  destruct (Qcompare_spec q 0) as [E | L | G].
  - apply (rounding_of_zero q f R E).
  - destruct R as (_ & _ & R).
    apply (rounded_value true (- q) f (R L)).
    assert (RN (- q) <= b)%Q; [| lra].
    apply RN_le_representable; [lra | lra | exact Rb].
  - apply (rounding_pos q b f R G); [lra | exact Rb].
Qed.

Lemma trunc_finite (x : float) :
  finite x -> exists z, Binary64.trunc x = Ok z.
Proof.
  unfold finite, Binary64.trunc.
  destruct (Prim2SF x); try discriminate; eauto.
Qed.

Lemma trunc_zero (x : float) :
  finite x -> (B2Q x == 0)%Q -> Binary64.trunc x = Ok 0.
Proof.
  intros Fx E. rewrite (trunc_nonneg x Fx) by lra.
  now rewrite (Qfloor_comp _ _ E).
Qed.

Lemma representable_shift v k :
  representable v -> (pow2 (k - 1021) <= v)%Q -> 0 <= k ->
  representable (v / pow2 k).
Proof.
  intros (M & e & [M0 M1] & [E0 E1] & Eq) Hv Hk.
  exists M, (e - k). split; [lia | split].
  - assert (k - 1074 < e); [| lia].
    apply pow2_lt_inv.
    rewrite Eq in Hv. rewrite Zlt_Qlt in M1.
    rewrite <- pow2_inject in M1 by lia.
    pose proof (pow2_pos e).
    assert (pow2 (k - 1021) == pow2 53 * pow2 (k - 1074))%Q as E21
      by (replace (k - 1021) with (53 + (k - 1074)) by lia; apply pow2_add).
    rewrite E21 in Hv.
    assert (0 < pow2 53)%Q by reflexivity. pose proof (pow2_pos (k - 1074)).
    set (a := inject_Z M) in *. set (p := pow2 e) in *.
    set (u := pow2 53) in *. set (w := pow2 (k - 1074)) in *.
    clearbody a p u w.
    assert (a * p < u * p)%Q by nra. nra.
  - rewrite Eq, pow2_sub. unfold Qdiv. ring.
Qed.

(** *** NaN, infinities and comparisons *)

Lemma rounding_of_not_nan q f : rounding_of q f -> f <> S754_nan.
Proof.
  intros (R0 & R1 & R2). destruct (Qcompare_spec q 0) as [E | L | G].
  - destruct (R0 E) as [Ff _]. intros ->. discriminate.
  - exact (rounded_not_nan _ _ _ (R2 L)).
  - exact (rounded_not_nan _ _ _ (R1 G)).
Qed.

Lemma mul_not_nan x y :
  finite x -> finite y -> Prim2SF (x * y) <> S754_nan.
Proof.
  intros Fx Fy. exact (rounding_of_not_nan _ _ (mul_rounding x y Fx Fy)).
Qed.

(** Adding a finite number to a number or an infinity. *)
Lemma add_not_nan x y :
  Prim2SF x <> S754_nan -> finite y -> Prim2SF (x + y) <> S754_nan.
Proof.
  intros Nx Fy.
  destruct (Prim2SF x) as [s | s | | s m e] eqn:Ex.
  - apply (rounding_of_not_nan (B2Q x + B2Q y)), add_rounding;
      [unfold finite; now rewrite Ex | exact Fy].
  - rewrite add_spec, Ex. unfold finite in Fy.
    destruct (Prim2SF y); try discriminate; cbn; discriminate.
  - congruence.
  - apply (rounding_of_not_nan (B2Q x + B2Q y)), add_rounding;
      [unfold finite; now rewrite Ex | exact Fy].
Qed.

Lemma is_nan_false x : Prim2SF x <> S754_nan -> PrimFloat.is_nan x = false.
Proof.
  intros N. rewrite is_nan_spec. destruct (Prim2SF x); congruence.
Qed.

(** A result of at least [b] is rounded to at least [b], or overflows
    to +infinity. *)
Lemma rounding_at_least q b f :
  rounding_of q f -> (0 < b)%Q -> (b <= q)%Q -> representable b ->
  f = S754_infinity false \/ (SFfinite f = true /\ (b <= SF2Q f)%Q).
Proof.
  intros (_ & R & _) Pb Hb Rb. specialize (R ltac:(lra)).
  pose proof (RN_ge_representable q b Hb Rb) as G.
  destruct f as [s | s | | s m e]; cbn [rounded] in R.
  - destruct R as [_ E]. lra.
  - destruct R as [-> _]. now left.
  - contradiction.
  - destruct R as (-> & E & _). right. split; [reflexivity |].
    rewrite SF2Q_finite. cbn [cond_Qopp]. lra.
Qed.

Lemma positive_is_finite_false x :
  finite x -> (0 < B2Q x)%Q ->
  exists m e, Prim2SF x = S754_finite false m e.
Proof.
  unfold finite, B2Q. intros F P.
  destruct (Prim2SF x) as [s | s | | s m e]; try discriminate.
  - rewrite (SFzero_value s) in P. lra.
  - rewrite SF2Q_finite in P. pose proof (finite_pos m e).
    destruct s; cbn [cond_Qopp] in P; [lra | eauto].
Qed.

Lemma leb_between lo hi v :
  finite lo -> finite hi ->
  (lo <=? v)%float = true -> (v <=? hi)%float = true ->
  finite v /\ (B2Q lo <= B2Q v <= B2Q hi)%Q.
Proof.
  intros Flo Fhi L U.
  assert (finite v) as Fv.
  { unfold finite in *. rewrite FloatAxioms.leb_spec in L, U.
    unfold SFleb in L, U.
    destruct (Prim2SF v) as [s | s | | s m e]; try reflexivity.
    - destruct s.
      + destruct (Prim2SF lo) as [? | ? | | [] ? ?]; discriminate.
      + destruct (Prim2SF hi) as [? | ? | | [] ? ?]; discriminate.
    - destruct (Prim2SF lo) as [? | ? | | ? ? ?]; discriminate. }
  split; [exact Fv |].
  apply (leb_finite lo v Flo Fv) in L. apply (leb_finite v hi Fv Fhi) in U.
  lra.
Qed.

Lemma leb_chain lo hi v1 v2 :
  finite lo -> finite hi ->
  (lo <=? v1)%float = true -> (v1 <=? v2)%float = true ->
  (v2 <=? hi)%float = true ->
  finite v1 /\ finite v2.
Proof.
  unfold finite. rewrite !FloatAxioms.leb_spec. unfold SFleb.
  intros Flo Fhi L M U.
  destruct (Prim2SF v1) as [s1 | s1 | | s1 m1 e1],
           (Prim2SF v2) as [s2 | s2 | | s2 m2 e2];
    try (split; reflexivity); exfalso;
    try destruct s1; try destruct s2;
    destruct (Prim2SF lo) as [? | ? | | [] ? ?];
    destruct (Prim2SF hi) as [? | ? | | [] ? ?];
    discriminate.
Qed.

(** What [lo < x] tells about [x] when [lo] is finite. *)
Lemma ltb_true_cases lo x :
  finite lo -> (lo <? x)%float = true ->
  Prim2SF x = S754_infinity false \/ (finite x /\ (B2Q lo < B2Q x)%Q).
Proof.
  intros Flo L. pose proof L as L'.
  rewrite FloatAxioms.ltb_spec in L'. unfold SFltb in L'. unfold finite in *.
  destruct (Prim2SF x) as [s | s | | s m e] eqn:Ex.
  - right. assert (finite x) as Fx by (unfold finite; now rewrite Ex).
    split; [reflexivity | now apply (ltb_finite lo x Flo Fx)].
  - destruct s; [| now left].
    destruct (Prim2SF lo) as [? | ? | | [] ? ?]; discriminate.
  - destruct (Prim2SF lo) as [? | ? | | ? ? ?]; discriminate.
  - right. assert (finite x) as Fx by (unfold finite; now rewrite Ex).
    split; [reflexivity | now apply (ltb_finite lo x Flo Fx)].
Qed.



(** *** The product [tw * (h / w) * 0.5] *)

(** The value of [tw * (h / w) * 0.5] in binary64: the quotient is
    rounded, then the product; the halving is exact. *)
Lemma height_value (h w tw : Z) :
  1 <= w < 2 ^ 31 -> 1 <= h < 2 ^ 31 -> 1 <= tw < 2 ^ 20 ->
  let c := (PrimFloat.mul
              (PrimFloat.mul (of_int (F:=float) tw)
                             (PrimFloat.div (of_int (F:=float) h)
                                            (of_int (F:=float) w)))
              (of_dec (F:=float) 0.5)) in
  finite c /\
  (B2Q c == RN (inject_Z tw * RN (inject_Z h / inject_Z w)) * (1 # 2))%Q /\
  (pow2 (-31) <= inject_Z h / inject_Z w <= pow2 31)%Q /\
  (pow2 (-32) <= inject_Z tw * RN (inject_Z h / inject_Z w) <= pow2 52)%Q.
Proof.
  intros Hw Hh Ht c.
  destruct (of_int_pos w ltac:(lia)) as (Fw & Vw & Pw).
  destruct (of_int_pos h ltac:(lia)) as (Fh & Vh & Ph).
  destruct (of_int_pos tw ltac:(lia)) as (Ft & Vt & Pt).
  destruct half_value as [Fhalf Vhalf].
  assert (1 <= inject_Z w <= inject_Z (2 ^ 31))%Q as Bw
    by (split; [change 1%Q with (inject_Z 1) |]; rewrite <- Zle_Qle; lia).
  assert (1 <= inject_Z h <= inject_Z (2 ^ 31))%Q as Bh
    by (split; [change 1%Q with (inject_Z 1) |]; rewrite <- Zle_Qle; lia).
  assert (1 <= inject_Z tw <= inject_Z (2 ^ 20))%Q as Bt
    by (split; [change 1%Q with (inject_Z 1) |]; rewrite <- Zle_Qle; lia).
  set (W := inject_Z w) in *. set (H := inject_Z h) in *.
  set (T := inject_Z tw) in *.
  (* the aspect ratio *)
  set (a := PrimFloat.div (of_int h) (of_int w)) in *.
  assert (B2Q (of_int h) / B2Q (of_int w) == H / W)%Q as Eq1
    by (rewrite Vh, Vw; reflexivity).
  assert (pow2 (-31) <= H / W <= pow2 31)%Q as Bq1.
  { change (pow2 31) with (inject_Z (2 ^ 31)).
    assert (pow2 (-31) == 1 / inject_Z (2 ^ 31))%Q as -> by reflexivity.
    split; (apply Qle_shift_div_l; [lra |]) || (apply Qle_shift_div_r; [lra |]).
    - unfold Qdiv. rewrite Qmult_1_l.
      assert (/ inject_Z (2 ^ 31) * W <= 1)%Q; [| lra].
      rewrite Qmult_comm. apply Qle_shift_div_r; [reflexivity | lra].
    - nra. }
  destruct (div_pos (of_int h) (of_int w) (pow2 31)) as [Fa Va];
    try assumption.
  { rewrite Eq1. apply Bq1. }
  { apply representable_pow2. lia. }
  fold a in Fa, Va.
  assert (0 < H / W)%Q as Pq1 by (pose proof (pow2_pos (-31)); lra).
  assert (RN (B2Q (of_int h) / B2Q (of_int w)) == RN (H / W))%Q as ERN1
    by (apply RN_comp; [rewrite Eq1; exact Pq1 | exact Eq1]).
  rewrite ERN1 in Va.
  assert (pow2 (-31) <= B2Q a <= pow2 31)%Q as Bva.
  { rewrite Va. split.
    - apply RN_ge_representable; [apply Bq1 | apply representable_pow2; lia].
    - apply RN_le_representable;
        [exact Pq1 | apply Bq1 | apply representable_pow2; lia]. }
  assert (0 < B2Q a)%Q as Pva by (pose proof (pow2_pos (-31)); lra).
  (* the product with the target width *)
  set (b := PrimFloat.mul (of_int tw) a) in *.
  assert (B2Q (of_int tw) * B2Q a == T * RN (H / W))%Q as Eq2
    by (rewrite Vt, Va; reflexivity).
  assert (pow2 (-32) <= T * RN (H / W) <= pow2 52)%Q as Bq2.
  { rewrite <- Va.
    assert (pow2 52 == inject_Z (2 ^ 20) * pow2 32)%Q as -> by reflexivity.
    assert (pow2 (-32) == pow2 (-31) * (1 # 2))%Q as E32 by reflexivity.
    assert (pow2 32 == pow2 31 * 2)%Q as E32' by reflexivity.
    pose proof (pow2_pos (-31)). pose proof (pow2_pos 31).
    split; nra. }
  destruct (mul_pos (of_int tw) a (pow2 52)) as [Fb Vb]; try assumption.
  { rewrite Eq2. apply Bq2. }
  { apply representable_pow2. lia. }
  fold b in Fb, Vb.
  assert (0 < T * RN (H / W))%Q as Pq2
    by (pose proof (pow2_pos (-32)); lra).
  assert (RN (B2Q (of_int tw) * B2Q a) == RN (T * RN (H / W)))%Q as ERN2
    by (apply RN_comp; [rewrite Eq2; exact Pq2 | exact Eq2]).
  rewrite ERN2 in Vb.
  assert (pow2 (-32) <= B2Q b)%Q as Lb.
  { rewrite Vb. apply RN_ge_representable;
      [apply Bq2 | apply representable_pow2; lia]. }
  assert (0 < B2Q b)%Q as Pvb by (pose proof (pow2_pos (-32)); lra).
  (* halving is exact *)
  assert (representable (B2Q b * (1 # 2))) as Rh.
  { apply RN_half.
    - apply finite_value_representable; assumption.
    - assert (pow2 (-1021) <= pow2 (-32))%Q by (apply pow2_le; lia). lra. }
  assert (B2Q b * B2Q (of_dec 0.5) == B2Q b * (1 # 2))%Q as Eq3
    by (rewrite Vhalf; reflexivity).
  destruct (rounding_of_exact _ _ (mul_rounding b (of_dec 0.5) Fb Fhalf))
    as [Fc Vc].
  { rewrite Eq3. lra. }
  { destruct Rh as (M & e & HM & He & E). exists M, e.
    split; [exact HM | split; [exact He |]]. rewrite Eq3. exact E. }
  fold c in Fc, Vc. change (SF2Q (Prim2SF c)) with (B2Q c) in Vc.
  split; [exact Fc | split; [| split; [exact Bq1 | exact Bq2]]].
  rewrite Vc, Eq3, Vb. reflexivity.
Qed.

(** The error of the two roundings is below 3/4 of a unit of the
    product [tw * h]. *)
Lemma height_product (h w tw : Z) :
  1 <= w < 2 ^ 31 -> 1 <= h < 2 ^ 31 -> 1 <= tw < 2 ^ 20 ->
  let c := (PrimFloat.mul
              (PrimFloat.mul (of_int (F:=float) tw)
                             (PrimFloat.div (of_int (F:=float) h)
                                            (of_int (F:=float) w)))
              (of_dec (F:=float) 0.5)) in
  finite c /\
  (inject_Z (tw * h) - (3 # 4) <= B2Q c * inject_Z (2 * w)
   <= inject_Z (tw * h) + (3 # 4))%Q.
Proof.
  intros Hw Hh Ht c.
  destruct (height_value h w tw Hw Hh Ht) as (Fc & Vc & Bq1 & Bq2).
  fold c in Fc, Vc. split; [exact Fc |]. rewrite Vc.
  assert (1 <= inject_Z w <= inject_Z (2 ^ 31))%Q as Bw
    by (split; [change 1%Q with (inject_Z 1) |]; rewrite <- Zle_Qle; lia).
  assert (1 <= inject_Z h <= inject_Z (2 ^ 31))%Q as Bh
    by (split; [change 1%Q with (inject_Z 1) |]; rewrite <- Zle_Qle; lia).
  assert (1 <= inject_Z tw <= inject_Z (2 ^ 20))%Q as Bt
    by (split; [change 1%Q with (inject_Z 1) |]; rewrite <- Zle_Qle; lia).
  set (W := inject_Z w) in *. set (H := inject_Z h) in *.
  set (T := inject_Z tw) in *.
  assert (pow2 (-53) == 1 # 9007199254740992)%Q as Eu by reflexivity.
  destruct (RN_relative (H / W)) as [Ra1 Ra2].
  { assert (pow2 (-1022) <= pow2 (-31))%Q by (apply pow2_le; lia). lra. }
  destruct (RN_relative (T * RN (H / W))) as [Rb1 Rb2].
  { assert (pow2 (-1022) <= pow2 (-32))%Q by (apply pow2_le; lia). lra. }
  rewrite Eu in Ra1, Ra2, Rb1, Rb2.
  assert (0 < H / W)%Q as Pq1 by (pose proof (pow2_pos (-31)); lra).
  set (va := RN (H / W)) in *. set (vb := RN (T * va)) in *.
  assert (0 < va)%Q as Pva.
  { assert (0 < H / W * (1 - (1 # 9007199254740992)))%Q; [| lra].
    apply Qmult_lt_0_compat; [exact Pq1 | reflexivity]. }
  assert (inject_Z (tw * h) == T * H)%Q as ET
    by (rewrite inject_Z_mult; reflexivity).
  assert (inject_Z (2 * w) == 2 * W)%Q as EW
    by (rewrite inject_Z_mult; reflexivity).
  rewrite ET, EW.
  assert (T * H <= 2251799813685248)%Q as BT.
  { change 2251799813685248%Q with (inject_Z (2 ^ 20) * inject_Z (2 ^ 31))%Q.
    nra. }
  assert (H / W * W == H)%Q as EHW by (field; lra).
  set (r := (H / W)%Q) in *.
  clearbody r va vb T H W.
  clear - Ra1 Ra2 Rb1 Rb2 EHW Bw Bh Bt BT Pva Pq1.
  assert (vb * W <= T * H * ((1 + (1 # 9007199254740992))
                             * (1 + (1 # 9007199254740992))))%Q.
  { assert (vb * W <= T * va * (1 + (1 # 9007199254740992)) * W)%Q by nra.
    assert (va * W <= r * (1 + (1 # 9007199254740992)) * W)%Q by nra.
    nra. }
  assert (T * H * ((1 - (1 # 9007199254740992))
                   * (1 - (1 # 9007199254740992))) <= vb * W)%Q.
  { assert (T * va * (1 - (1 # 9007199254740992)) * W <= vb * W)%Q by nra.
    assert (r * (1 - (1 # 9007199254740992)) * W <= va * W)%Q by nra.
    nra. }
  split; nra.
Qed.

(* ================================================================= *)
(** ** The reference arithmetic: truncation and floor *)

Section ExactFacts.
Local Open Scope Q_scope.

Lemma Qtrunc_floor (q : Q) : 0 <= q -> Qtrunc q = Qfloor q.
Proof.
  destruct q as [n d]. unfold Qle, Qtrunc, Qfloor. simpl. intros Hn.
  apply Z.quot_div_nonneg; lia.
Qed.

Lemma Qtrunc_nonneg (q : Q) : 0 <= q -> (0 <= Qtrunc q)%Z.
Proof.
  intros Hq. rewrite (Qtrunc_floor q Hq).
  change 0%Z with (Qfloor 0). now apply Qfloor_resp_le.
Qed.

(** The value whose integer part picks the glyph. *)
Lemma scaled_nonneg (v : Q) (n : Z) :
  0 <= v -> (0 <= n)%Z -> 0 <= v / inject_Z 256 * inject_Z n.
Proof.
  intros Hv Hn. apply Qmult_le_0_compat.
  - apply Qle_shift_div_l; [reflexivity | now rewrite Qmult_0_l].
  - change 0 with (inject_Z 0). now rewrite <- Zle_Qle.
Qed.

End ExactFacts.

Lemma str_len_pos (a : ascii) (s : string) : 1 <= str_len (String a s).
Proof. unfold str_len. simpl String.length. lia. Qed.

Lemma getitem_in_range {A} (l : list A) (i : Z) :
  0 <= i < len l -> exists a, getitem l i = Ok a.
Proof.
  intros [H0 Hl]. unfold getitem, len in *.
  destruct (i <? 0) eqn:E; [apply Z.ltb_lt in E; lia |]. rewrite E.
  destruct (nth_error l (Z.to_nat i)) eqn:N; [eauto |].
  apply nth_error_None in N. lia.
Qed.

Lemma str_len_list (s : string) : len (list_ascii_of_string s) = str_len s.
Proof.
  unfold len, str_len. f_equal.
  induction s as [| a s IH]; simpl; [reflexivity | now rewrite IH].
Qed.

Lemma mapM_all_ok {A B} (f : A -> result B) (l : list A) :
  Forall (fun x => exists y, f x = Ok y) l -> exists ys, mapM f l = Ok ys.
Proof.
  induction 1 as [| x l [y Hy] _ [ys Hys]]; simpl.
  - now exists [].
  - rewrite Hy. simpl. rewrite Hys. simpl. now exists (y :: ys).
Qed.

(* ================================================================= *)
(** ** The glyph index in exact arithmetic *)

Section GlyphIndex.
Local Open Scope Q_scope.

Lemma char_index_exact (self : AC.t Q) (v : Q) :
  AC.char_index self v =
  Ok (Z.min (Qtrunc (v / inject_Z 256 * inject_Z (ramp_length self)))
            (ramp_length self - 1)).
Proof. reflexivity. Qed.

Lemma char_index_bounds (self : AC.t Q) (v : Q) :
  (1 <= ramp_length self)%Z -> 0 <= v ->
  exists i, AC.char_index self v = Ok i /\ (0 <= i < ramp_length self)%Z.
Proof.
  intros HN Hv. rewrite char_index_exact. eexists. split; [reflexivity |].
  assert (0 <= Qtrunc (v / inject_Z 256 * inject_Z (ramp_length self)))%Z
    by (apply Qtrunc_nonneg, scaled_nonneg; [exact Hv | lia]).
  lia.
Qed.

Lemma pixel_to_char_ok (self : AC.t Q) (v : Q) :
  (1 <= ramp_length self)%Z -> 0 <= v ->
  exists ch, AC._pixel_to_char self v = Ok ch.
Proof.
  intros HN Hv. destruct (char_index_bounds self v HN Hv) as (i & Hi & Hr).
  unfold AC._pixel_to_char. rewrite Hi. simpl.
  apply getitem_in_range. rewrite str_len_list. exact Hr.
Qed.

End GlyphIndex.

(** The constructor never stores an empty ramp, whatever the float
    interpretation. *)
Lemma init_charset_nonempty {F} `{PyFloat F} (charset : option string)
    (contrast : F) :
  1 <= str_len (AC.charset (AC.__init__ charset contrast)).
Proof.
  destruct charset as [[| a s] |]; simpl AC.charset;
    solve [apply str_len_pos | vm_compute; discriminate].
Qed.

(* ================================================================= *)
(** ** The glyph index in binary64 *)

Section GlyphIndexBinary64.

Lemma of_int_256 :
  finite (of_int (F:=float) 256) /\ (B2Q (of_int (F:=float) 256) == 256)%Q.
Proof. split; vm_compute; reflexivity. Qed.

Lemma scaled_luminance_mono (n : Z) (v1 v2 : Q) :
  1 <= n -> (v1 <= v2)%Q ->
  (scaled_luminance n v1 <= scaled_luminance n v2)%Q.
Proof.
  intros Hn H. unfold scaled_luminance. apply RN0_mono.
  assert (0 <= RN (inject_Z n))%Q as Pn.
  { apply RN_nonneg. rewrite <- (Zlt_Qlt 0). lia. }
  assert (RN0 (v1 / 256) <= RN0 (v2 / 256))%Q as M.
  { apply RN0_mono. unfold Qdiv.
    apply Qmult_le_compat_r; [exact H | discriminate]. }
  nra.
Qed.

(** [char_index] on a finite luminance in [0, 255]. *)
Lemma char_index_binary64 (self : AC.t float) (v : float) :
  1 <= str_len (AC.charset self) <= 2 ^ 63 ->
  finite v -> (0 <= B2Q v <= 255)%Q ->
  AC.char_index self v
  = Ok (Z.min (Qfloor (scaled_luminance (str_len (AC.charset self)) (B2Q v)))
              (str_len (AC.charset self) - 1)) /\
  (0 <= scaled_luminance (str_len (AC.charset self)) (B2Q v))%Q.
Proof.
  intros HN Fv Bv. set (N := str_len (AC.charset self)) in *.
  destruct of_int_256 as [F256 V256].
  destruct (of_int_round N HN) as (Fn & Vn & Bn).
  (* the quotient *)
  assert (B2Q v / B2Q (of_int (F:=float) 256) == B2Q v / 256)%Q as Eq1
    by (rewrite V256; reflexivity).
  destruct (div_nonneg v (of_int 256) 1) as [Fa Va]; try assumption;
    try tauto.
  { rewrite V256. reflexivity. }
  { rewrite Eq1. apply Qle_shift_div_r; [reflexivity | lra]. }
  { change 1%Q with (pow2 0). apply representable_pow2. lia. }
  rewrite (RN0_comp _ _ Eq1) in Va.
  assert (0 <= B2Q (v / of_int 256)%float <= 1)%Q as Ba.
  { rewrite Va. split; [apply RN0_nonneg |].
    apply RN0_le_representable.
    - apply Qle_shift_div_r; [reflexivity | lra].
    - change 1%Q with (pow2 0). apply representable_pow2. lia. }
  (* the product *)
  destruct (mul_nonneg (v / of_int 256)%float (of_int N) (pow2 63))
    as [Fc Vc]; try assumption; try tauto; try lra.
  { nra. }
  { apply representable_pow2. lia. }
  assert (B2Q (v / of_int 256)%float * B2Q (of_int (F:=float) N)
          == RN0 (B2Q v / 256) * RN (inject_Z N))%Q as Eq2
    by (rewrite Va, Vn; reflexivity).
  rewrite (RN0_comp _ _ Eq2) in Vc. fold (scaled_luminance N (B2Q v)) in Vc.
  split; [| apply RN0_nonneg].
  assert (0 <= B2Q (v / of_int 256 * of_int N)%float)%Q as Pc
    by (rewrite Vc; apply RN0_nonneg).
  assert (to_int (fmul (fdiv v (of_int 256)) (of_int N))
          = Ok (Qfloor (B2Q (v / of_int 256 * of_int N)%float))) as E
    by exact (trunc_nonneg _ Fc Pc).
  unfold AC.char_index. fold N. rewrite E.
  cbn [bind]. rewrite (Qfloor_comp _ _ Vc). reflexivity.
Qed.

Lemma of_int_sample (p : Z) :
  0 <= p <= 255 ->
  finite (of_int (F:=float) p) /\ (B2Q (of_int (F:=float) p) == inject_Z p)%Q.
Proof. intros H. apply of_Z_exact. lia. Qed.

Lemma sample_bounds (p : Z) : 0 <= p <= 255 -> (0 <= inject_Z p <= 255)%Q.
Proof.
  intros H. change 0%Q with (inject_Z 0). change 255%Q with (inject_Z 255).
  rewrite <- !Zle_Qle. exact H.
Qed.

(** On a [uint8] sample, which is what reaches the lookup when the
    contrast is 1.0, no operation of the lookup rounds (ramps shorter
    than 2^45): the index is the bucket of the design formula. *)
Lemma char_index_of_sample (self : AC.t float) (p : Z) :
  1 <= str_len (AC.charset self) < 2 ^ 45 -> 0 <= p <= 255 ->
  AC.char_index self (of_int p)
  = Ok (Z.min (Qfloor (inject_Z p / 256
                       * inject_Z (str_len (AC.charset self))))
              (str_len (AC.charset self) - 1)).
Proof.
  intros HN Hp. set (N := str_len (AC.charset self)) in *.
  destruct (of_int_sample p Hp) as [Fp Vp].
  pose proof (sample_bounds p Hp) as Bp.
  destruct (char_index_binary64 self (of_int p)) as [E _];
    [fold N; lia | exact Fp | rewrite Vp; exact Bp |].
  fold N in E. rewrite E. f_equal. f_equal. apply Qfloor_comp.
  unfold scaled_luminance.
  assert (RN (inject_Z N) == inject_Z N)%Q as EN
    by (apply RN_exact, representable_Z; lia).
  destruct (Z.eq_dec p 0) as [-> | Np].
  - assert (B2Q (of_int (F:=float) 0) / 256 <= 0)%Q as Z1
      by (rewrite Vp; discriminate).
    rewrite (RN0_nonpos _ Z1).
    rewrite RN0_nonpos by lra.
    unfold Qdiv. change (inject_Z 0) with 0%Q. ring.
  - assert (representable (inject_Z p / 256)) as R1.
    { exists p, (-8). split; [lia | split; [lia |]].
      change (pow2 (-8)) with (/ 256)%Q. reflexivity. }
    assert (B2Q (of_int (F:=float) p) / 256 == inject_Z p / 256)%Q as E1
      by (rewrite Vp; reflexivity).
    rewrite E1, (RN0_exact _ R1), EN.
    apply RN0_exact.
    exists (p * N), (-8). split; [nia | split; [lia |]].
    change (pow2 (-8)) with (/ 256)%Q. rewrite inject_Z_mult.
    unfold Qdiv. ring.
Qed.

(** On any double in [0, 255] the product is rounded before it is
    truncated, which can carry it up to the next integer, never down:
    the index is the bucket of the design formula or the next one. *)
Lemma char_index_near_formula (self : AC.t float) (v : float) :
  1 <= str_len (AC.charset self) < 2 ^ 53 ->
  (of_int 0 <=? v)%float = true -> (v <=? of_int 255)%float = true ->
  exists i,
    AC.char_index self v = Ok i /\
    Z.min (Qfloor (B2Q v / 256 * inject_Z (str_len (AC.charset self))))
          (str_len (AC.charset self) - 1) <= i /\
    i <= Z.min (Qfloor (B2Q v / 256 * inject_Z (str_len (AC.charset self)))
                + 1)
               (str_len (AC.charset self) - 1).
Proof.
  intros HN L U. set (N := str_len (AC.charset self)) in *.
  destruct (of_int_sample 0 ltac:(lia)) as [F0 V0].
  destruct (of_int_sample 255 ltac:(lia)) as [F255 V255].
  destruct (leb_between _ _ _ F0 F255 L U) as [Fv Bv].
  rewrite V0, V255 in Bv.
  change (inject_Z 0) with 0%Q in Bv. change (inject_Z 255) with 255%Q in Bv.
  destruct (char_index_binary64 self v) as [E P];
    [fold N; lia | exact Fv | exact Bv |].
  fold N in E, P. eexists. split; [exact E |].
  set (x := (B2Q v / 256 * inject_Z N)%Q).
  set (s := scaled_luminance N (B2Q v)) in *.
  assert (1 <= inject_Z N < inject_Z (2 ^ 53))%Q as BN.
  { change 1%Q with (inject_Z 1). rewrite <- Zle_Qle, <- Zlt_Qlt. lia. }
  assert (RN (inject_Z N) == inject_Z N)%Q as EN
    by (apply RN_exact, representable_Z; lia).
  assert (0 <= x)%Q as Px.
  { unfold x. unfold Qdiv.
    assert (0 <= B2Q v * / 256)%Q by (apply Qmult_le_0_compat; [lra | discriminate]).
    nra. }
  assert (x <= inject_Z N * (255 # 256))%Q as Ux.
  { unfold x.
    assert (B2Q v / 256 <= 255 # 256)%Q
      by (apply Qle_shift_div_r; [reflexivity | lra]).
    assert (0 <= B2Q v / 256)%Q
      by (apply Qle_shift_div_l; [reflexivity | lra]).
    nra. }
  pose proof (Qfloor_bounds x) as [K1 K2]. set (k := Qfloor x) in *.
  assert (0 <= k) as Pk.
  { unfold k. change 0 with (Qfloor 0). apply Qfloor_resp_le. exact Px. }
  assert (k + 1 <= N) as Uk.
  { assert (inject_Z k < inject_Z N)%Q as Lt by nra.
    rewrite <- Zlt_Qlt in Lt. lia. }
  assert (k <= Qfloor s /\ Qfloor s <= k + 1); [| lia].
  destruct (Qlt_le_dec (B2Q v) (pow2 (-1013))) as [Tiny | Normal].
  - (* a luminance too small to count *)
    assert (x < 1)%Q as X1.
    { unfold x.
      assert (B2Q v / 256 <= pow2 (-1021))%Q as A.
      { apply Qle_shift_div_r; [reflexivity |].
        assert (pow2 (-1021) * 256 == pow2 (-1013))%Q as ->
          by (change 256%Q with (pow2 8); rewrite <- pow2_add; reflexivity).
        lra. }
      assert (pow2 (-1021) * inject_Z (2 ^ 53) < 1)%Q as B.
      { rewrite <- pow2_inject, <- pow2_add by lia. reflexivity. }
      pose proof (pow2_pos (-1021)). nra. }
    assert (k = 0) as ->.
    { apply Qfloor_unique. change (inject_Z 0) with 0%Q. lra. }
    assert (s <= pow2 (-968))%Q as S1.
    { unfold s, scaled_luminance. apply RN0_le_representable;
        [| apply representable_pow2; lia].
      assert (RN0 (B2Q v / 256) <= pow2 (-1021))%Q as A.
      { apply RN0_le_representable; [| apply representable_pow2; lia].
        apply Qle_shift_div_r; [reflexivity |].
        assert (pow2 (-1021) * 256 == pow2 (-1013))%Q as ->
          by (change 256%Q with (pow2 8); rewrite <- pow2_add; reflexivity).
        lra. }
      pose proof (RN0_nonneg (B2Q v / 256)).
      assert (pow2 (-968) == pow2 (-1021) * inject_Z (2 ^ 53))%Q as ->
        by (rewrite <- pow2_inject, <- pow2_add by lia; reflexivity).
      rewrite EN. pose proof (pow2_pos (-1021)). nra. }
    assert (Qfloor s = 0) as ->.
    { apply Qfloor_unique. change (inject_Z 0) with 0%Q.
      assert (pow2 (-968) < 1)%Q by reflexivity. lra. }
    lia.
  - (* the division by 256 is exact *)
    assert (0 < B2Q v)%Q as Pv by (pose proof (pow2_pos (-1013)); lra).
    assert (representable (B2Q v / 256)) as R1.
    { change 256%Q with (pow2 8). apply representable_shift; [| exact Normal | lia].
      apply finite_value_representable; assumption. }
    assert (s == RN0 x)%Q as Es.
    { unfold s, scaled_luminance, x. apply RN0_comp.
      rewrite (RN0_exact _ R1), EN. reflexivity. }
    rewrite (Qfloor_comp _ _ Es). split.
    + destruct (Z.eq_dec k 0) as [-> | Nk].
      * change 0 with (Qfloor 0). apply Qfloor_resp_le, RN0_nonneg.
      * rewrite <- (Qfloor_Z k). apply Qfloor_resp_le.
        apply RN0_ge_representable; [exact K1 |].
        apply representable_Z. lia.
    + rewrite <- (Qfloor_Z (k + 1)). apply Qfloor_resp_le.
      apply RN0_le_representable.
      * rewrite inject_Z_plus. change (inject_Z 1) with 1%Q. lra.
      * apply representable_Z. lia.
Qed.

Lemma pixel_to_char_binary64 (self : AC.t float) (v : float) :
  1 <= str_len (AC.charset self) < 2 ^ 63 ->
  finite v /\ (0 <= B2Q v <= 255)%Q ->
  exists ch, AC._pixel_to_char self v = Ok ch.
Proof.
  intros HN [Fv Bv].
  destruct (char_index_binary64 self v) as [E P]; [lia | exact Fv | exact Bv |].
  unfold AC._pixel_to_char. rewrite E. cbn [bind].
  apply getitem_in_range. rewrite str_len_list.
  assert (0 <= Qfloor (scaled_luminance (str_len (AC.charset self)) (B2Q v))).
  { change 0 with (Qfloor 0). now apply Qfloor_resp_le. }
  lia.
Qed.

End GlyphIndexBinary64.

(* ================================================================= *)
(** ** Glyph lookup: claims C8, C9, C10 *)

Section GlyphClaims.

(** C8.  For every glyph ramp of length N >= 1 and every pair of
    luminances 0 <= v1 <= v2 <= 255, the glyph indices i1, i2 that
    [_pixel_to_char] computes exist and satisfy 0 <= i1 <= i2 < N: the
    index is in range (take v1 = v2) and non-decreasing in the
    luminance.  The luminances are doubles, compared as Python compares
    them; N is below 2^63, as the length of a Python string is. *)
Theorem glyph_index_in_range_and_monotone
    (self : AC.t float) (v1 v2 : float) :
  1 <= str_len (AC.charset self) < 2 ^ 63 ->
  (of_int 0 <=? v1)%float = true ->
  (v1 <=? v2)%float = true ->
  (v2 <=? of_int 255)%float = true ->
  exists i1 i2,
    AC.char_index self v1 = Ok i1 /\
    AC.char_index self v2 = Ok i2 /\
    0 <= i1 /\ i1 <= i2 /\ i2 < str_len (AC.charset self).
Proof.
  intros HN L M U.
  destruct (of_int_sample 0 ltac:(lia)) as [F0 V0].
  destruct (of_int_sample 255 ltac:(lia)) as [F255 V255].
  destruct (leb_chain _ _ _ _ F0 F255 L M U) as [F1 F2].
  apply (leb_finite _ _ F0 F1) in L. apply (leb_finite _ _ F1 F2) in M.
  apply (leb_finite _ _ F2 F255) in U.
  rewrite V0 in L. rewrite V255 in U.
  change (inject_Z 0) with 0%Q in L. change (inject_Z 255) with 255%Q in U.
  destruct (char_index_binary64 self v1) as [E1 P1];
    [lia | exact F1 | lra |].
  destruct (char_index_binary64 self v2) as [E2 P2];
    [lia | exact F2 | lra |].
  eexists. eexists. split; [exact E1 | split; [exact E2 |]].
  set (N := str_len (AC.charset self)) in *.
  assert (0 <= Qfloor (scaled_luminance N (B2Q v1))) as Q1.
  { change 0 with (Qfloor 0). apply Qfloor_resp_le. exact P1. }
  assert (Qfloor (scaled_luminance N (B2Q v1))
          <= Qfloor (scaled_luminance N (B2Q v2))) as Q12.
  { apply Qfloor_resp_le, scaled_luminance_mono; [lia | exact M]. }
  lia.
Qed.

Lemma glyph_index_in_range_and_monotone_witness :
  exists i1 i2,
    AC.char_index (AC.__init__ None (of_dec 1.0 : float)) (of_dec 100.5)
      = Ok i1 /\
    AC.char_index (AC.__init__ None (of_dec 1.0 : float)) (of_dec 200.25)
      = Ok i2 /\
    0 <= i1 /\ i1 <= i2 /\
    i2 < str_len (AC.charset (AC.__init__ None (of_dec 1.0 : float))).
Proof.
  apply (glyph_index_in_range_and_monotone
           (AC.__init__ None (of_dec 1.0 : float))
           (of_dec 100.5) (of_dec 200.25));
    vm_compute; (reflexivity || (split; [discriminate | reflexivity])).
Defined.

(** C9, as stated, fails on its last example: with the default ramp
    and contrast 1.0 the sample 128 has index 5, whose glyph is '+',
    not '*'. *)
Lemma sample_128_is_plus_not_star :
  AC.char_index (AC.__init__ None (of_dec 1.0 : float)) (of_int 128) = Ok 5%Z /\
  AC._pixel_to_char (AC.__init__ None (of_dec 1.0 : float)) (of_int 128)
    = Ok "+"%char /\
  "+"%char <> "*"%char.
Proof.
  split; [| split].
  - vm_compute. reflexivity.
  - vm_compute. reflexivity.
  - discriminate.
Qed.

(** C9, amended.  On every [uint8] sample p, which is what reaches the
    lookup when the contrast is 1.0, the glyph index is
    min(floor(p / 256 * N), N - 1) for every ramp of length
    1 <= N < 2^45: no operation rounds.  On any other double v in
    [0, 255] (ramps shorter than 2^53) the product v / 256 * N is
    rounded before it is truncated, so the index is the bucket of that
    formula or the next one: min(k, N - 1) <= index <= min(k + 1, N - 1)
    with k = floor(v / 256 * N).  With the default ramp and contrast
    1.0, sample 0 maps to ' ', sample 255 to '@', and sample 128 to
    index 5, the glyph '+'. *)
Theorem glyph_index_formula :
  (forall (self : AC.t float) (p : Z),
      1 <= str_len (AC.charset self) < 2 ^ 45 -> 0 <= p <= 255 ->
      AC.char_index self (of_int p)
      = Ok (Z.min (Qfloor (inject_Z p / 256
                           * inject_Z (str_len (AC.charset self))))
                  (str_len (AC.charset self) - 1))) /\
  (forall (self : AC.t float) (v : float),
      1 <= str_len (AC.charset self) < 2 ^ 53 ->
      (of_int 0 <=? v)%float = true -> (v <=? of_int 255)%float = true ->
      exists i,
        AC.char_index self v = Ok i /\
        Z.min (Qfloor (B2Q v / 256 * inject_Z (str_len (AC.charset self))))
              (str_len (AC.charset self) - 1) <= i /\
        i <= Z.min (Qfloor (B2Q v / 256
                            * inject_Z (str_len (AC.charset self))) + 1)
                   (str_len (AC.charset self) - 1)) /\
  AC.convert_frame (AC.__init__ None (of_dec 1.0 : float))
                   (fixed_image 3 2 [[0; 255; 128]]) 3 = Ok " @+" /\
  AC.char_index (AC.__init__ None (of_dec 1.0 : float)) (of_int 128) = Ok 5.
Proof.
  split; [exact char_index_of_sample |].
  split; [exact char_index_near_formula |].
  split; vm_compute; reflexivity.
Qed.

Lemma glyph_index_formula_witness :
  AC.char_index (AC.__init__ None (of_dec 1.0 : float)) (of_int 128)
  = Ok (Z.min (Qfloor (inject_Z 128 / 256
                       * inject_Z (str_len (AC.charset
                                     (AC.__init__ None (of_dec 1.0 : float))))))
              (str_len (AC.charset (AC.__init__ None (of_dec 1.0 : float)))
               - 1)).
Proof.
  apply (proj1 glyph_index_formula
               (AC.__init__ None (of_dec 1.0 : float)) 128).
  - vm_compute. split; [discriminate | reflexivity].
  - lia.
Defined.

(** A luminance that the contrast step produces and on which rounding
    carries the product over an integer: contrast 0.2 turns the sample
    0 into 153.6 less one rounding error, whose bucket by the formula
    is 5 and whose index is 6. *)
Lemma rounded_product_reaches_the_next_glyph :
  let self := AC.__init__ None (of_dec 0.2 : float) in
  let v := AC.adjust self 0 in
  AC.char_index self v = Ok 6 /\
  Z.min (Qfloor (B2Q v / 256 * inject_Z (str_len (AC.charset self))))
        (str_len (AC.charset self) - 1) = 5 /\
  AC.convert_frame self (fixed_image 1 1 [[0; 0]]) 2 = Ok "**".
Proof. vm_compute. repeat split. Qed.

Local Open Scope Q_scope.

(** C10.  Constructing the converter with no charset or with the empty
    string stores the default ramp; whatever the argument, the stored
    ramp has length >= 1, and the glyph lookup of every luminance in
    [0, 255] returns a character instead of failing. *)
Theorem constructed_ramp_is_never_empty
    (charset : option string) (contrast : Q) (v : Q) :
  0 <= v -> v <= 255 ->
  AC.charset (AC.__init__ None contrast) = AC.DEFAULT_CHARSET /\
  AC.charset (AC.__init__ (Some EmptyString) contrast) = AC.DEFAULT_CHARSET /\
  (1 <= str_len (AC.charset (AC.__init__ charset contrast)))%Z /\
  exists ch, AC._pixel_to_char (AC.__init__ charset contrast) v = Ok ch.
Proof.
  intros H0 H255. split; [reflexivity | split; [reflexivity | split]].
  - apply init_charset_nonempty.
  - apply pixel_to_char_ok; [apply init_charset_nonempty | exact H0].
Qed.

Lemma constructed_ramp_is_never_empty_witness :
  AC.charset (AC.__init__ None 2) = AC.DEFAULT_CHARSET /\
  AC.charset (AC.__init__ (Some EmptyString) 2) = AC.DEFAULT_CHARSET /\
  (1 <= str_len (AC.charset (AC.__init__ (Some EmptyString) 2)))%Z /\
  exists ch, AC._pixel_to_char (AC.__init__ (Some EmptyString) 2) 255 = Ok ch.
Proof.
  apply (constructed_ramp_is_never_empty (Some EmptyString) 2 255);
    vm_compute; discriminate.
Defined.

End GlyphClaims.

(* ================================================================= *)
(** ** The contrast step: claim C1 *)

Section Contrast.
Local Open Scope Q_scope.

Lemma uint8_sub_high (p : Z) :
  (128 <= p <= 255)%Z -> uint8_sub p 128 = (p - 128)%Z.
Proof. intros Hp. unfold uint8_sub. apply Z.mod_small. lia. Qed.

Lemma uint8_sub_low (p : Z) :
  (0 <= p < 128)%Z -> uint8_sub p 128 = (p + 128)%Z.
Proof.
  intros Hp. unfold uint8_sub.
  replace (p - 128)%Z with (p + 128 + (-1) * 256)%Z by lia.
  rewrite Z.mod_add by lia. apply Z.mod_small. lia.
Qed.

Lemma clamp_compat (x y : Q) :
  x == y -> Qmin (Qmax x 0) 255 == Qmin (Qmax y 0) 255.
Proof. intros E. now rewrite E. Qed.

(** From the midpoint up the code computes the documented formula. *)
Lemma adjust_bright (self : AC.t Q) (p : Z) :
  (128 <= p <= 255)%Z ->
  AC.adjust self p == contrast_formula (AC.contrast self) (inject_Z p).
Proof.
  intros Hp. unfold AC.adjust, contrast_formula. cbn -[Qmin Qmax Qmult Qplus].
  rewrite (uint8_sub_high p Hp). apply clamp_compat.
  unfold Zminus. rewrite inject_Z_plus. reflexivity.
Qed.

(** Below the midpoint the subtraction wraps: the sample is scaled as
    if it were 256 levels brighter. *)
Lemma adjust_dark (self : AC.t Q) (p : Z) :
  (0 <= p < 128)%Z ->
  AC.adjust self p ==
  contrast_formula (AC.contrast self) (inject_Z p + 256).
Proof.
  intros Hp. unfold AC.adjust, contrast_formula. cbn -[Qmin Qmax Qmult Qplus].
  rewrite (uint8_sub_low p Hp). apply clamp_compat.
  rewrite inject_Z_plus. ring.
Qed.

(** The adjusted sample always lies in [0, 255]. *)
Lemma adjust_range (self : AC.t Q) (p : Z) :
  0 <= AC.adjust self p /\ AC.adjust self p <= 255.
Proof.
  unfold AC.adjust. cbn -[Qmin Qmax Qmult Qplus]. split.
  - apply Q.min_glb; [apply Q.le_max_r | discriminate].
  - apply Q.le_min_r.
Qed.

(** C1: the code at luma 0, contrast 2.0.  The documented formula
    gives clamp((0 - 128) * 2 + 128) = 0; the code subtracts in uint8,
    so 0 - 128 wraps to 128 and the sample becomes
    clamp(128 * 2 + 128) = 255: a black picture is drawn with the
    brightest glyph. *)
Theorem dark_sample_wraps_to_white :
  contrast_formula 2 0 == 0 /\
  AC.adjust (AC.__init__ None (of_dec 2.0 : float)) 0 = (of_int 255 : float) /\
  AC.adjust (AC.__init__ None (2 : Q)) 0 == 255 /\
  AC.convert_frame (AC.__init__ None (of_dec 2.0 : float))
                   (fixed_image 2 2 [[0; 0]%Z]) 2 = Ok "@@"%string /\
  AC.convert_frame (AC.__init__ None (of_dec 1.0 : float))
                   (fixed_image 2 2 [[0; 0]%Z]) 2 = Ok "  "%string.
Proof.
  repeat split; vm_compute; reflexivity.
Qed.

End Contrast.

(* ================================================================= *)
(** ** The contrast step in binary64 *)

Section ContrastBinary64.

(** [np.clip(x, 0, 255)] of anything but a NaN is a finite number
    between 0 and 255. *)
Lemma clip_range (a : float) :
  Prim2SF a <> S754_nan ->
  finite (minimum (maximum a (of_int 0)) (of_int 255)) /\
  (0 <= B2Q (minimum (maximum a (of_int 0)) (of_int 255)) <= 255)%Q.
Proof.
  intros Na.
  change (minimum (maximum a (of_int 0)) (of_int 255))
    with (Binary64.fmin (Binary64.fmax a (of_int 0)) (of_int 255)).
  destruct (of_int_sample 0 ltac:(lia)) as [F0 V0].
  destruct (of_int_sample 255 ltac:(lia)) as [F255 V255].
  change (inject_Z 0) with 0%Q in V0. change (inject_Z 255) with 255%Q in V255.
  assert (Binary64.fmin (of_int 0) (of_int 255) = of_int 0) as Low
    by (vm_compute; reflexivity).
  assert (PrimFloat.is_nan (of_int (F:=float) 255) = false) as N255
    by (vm_compute; reflexivity).
  assert (finite a -> (a <? of_int 0)%float = false ->
          finite (Binary64.fmin a (of_int 255)) /\
          (0 <= B2Q (Binary64.fmin a (of_int 255)) <= 255)%Q) as Upper.
  { intros Fa L0. unfold Binary64.fmin. rewrite (is_nan_false a Na), N255.
    assert (0 <= B2Q a)%Q as Pa.
    { destruct (Qlt_le_dec (B2Q a) 0) as [C |]; [| lra].
      rewrite <- V0 in C. apply (ltb_finite a _ Fa F0) in C. congruence. }
    destruct (of_int 255 <? a)%float eqn:L1.
    - split; [exact F255 | rewrite V255; lra].
    - split; [exact Fa | split; [exact Pa |]].
      destruct (Qlt_le_dec 255 (B2Q a)) as [C |]; [| lra].
      rewrite <- V255 in C. apply (ltb_finite _ a F255 Fa) in C. congruence. }
  unfold Binary64.fmax. rewrite (is_nan_false a Na).
  assert (PrimFloat.is_nan (of_int (F:=float) 0) = false) as ->
    by (vm_compute; reflexivity).
  destruct (a <? of_int 0)%float eqn:L0.
  - rewrite Low. split; [exact F0 | rewrite V0; lra].
  - destruct (Prim2SF a) as [s | s | | s m e] eqn:Ea.
    + apply Upper; [unfold finite; now rewrite Ea | reflexivity].
    + (* an infinity that is not below 0 is above 255 *)
      rewrite FloatAxioms.ltb_spec, Ea in L0.
      assert (Prim2SF (of_int (F:=float) 0) = S754_zero false) as P0
        by (vm_compute; reflexivity).
      rewrite P0 in L0. destruct s; [discriminate |].
      unfold Binary64.fmin. rewrite (is_nan_false a) by congruence.
      rewrite N255.
      assert ((of_int 255 <? a)%float = true) as ->.
      { rewrite FloatAxioms.ltb_spec, Ea.
        destruct (Prim2SF (of_int (F:=float) 255)) as [| | | [] ? ?] eqn:P255;
          try reflexivity; vm_compute in P255; discriminate. }
      split; [exact F255 | rewrite V255; lra].
    + congruence.
    + apply Upper; [unfold finite; now rewrite Ea | reflexivity].
Qed.

Lemma uint8_sub_range (p k : Z) : 0 <= uint8_sub p k <= 255.
Proof. unfold uint8_sub. pose proof (Z.mod_pos_bound (p - k) 256). lia. Qed.

(** With a finite contrast the adjusted sample is a finite number
    between 0 and 255. *)
Lemma adjust_in_range (self : AC.t float) (p : Z) :
  finite (AC.contrast self) ->
  finite (AC.adjust self p) /\ (0 <= B2Q (AC.adjust self p) <= 255)%Q.
Proof.
  intros Fc. unfold AC.adjust. apply clip_range.
  destruct (of_int_sample (uint8_sub p 128) (uint8_sub_range p 128))
    as [Fk _].
  destruct (of_int_sample 128 ltac:(lia)) as [F128 _].
  apply add_not_nan; [| exact F128].
  apply mul_not_nan; assumption.
Qed.

Lemma apply_contrast_in_range (self : AC.t float) (pixels : list (list Z)) :
  finite (AC.contrast self) ->
  Forall (Forall (fun p => 0 <= p <= 255)) pixels ->
  Forall (Forall (fun v => finite v /\ (0 <= B2Q v <= 255)%Q))
         (AC.apply_contrast self pixels).
Proof.
  intros Fc Hp. unfold AC.apply_contrast.
  destruct (negb _); apply Forall_map; eapply Forall_impl; try exact Hp;
    simpl; intros row Hrow; apply Forall_map;
    eapply Forall_impl; try exact Hrow; simpl; intros p Hr.
  - now apply adjust_in_range.
  - destruct (of_int_sample p Hr) as [Fp Vp]. split; [exact Fp |].
    change (Binary64.of_Z p) with (of_int (F:=float) p).
    rewrite Vp. now apply sample_bounds.
Qed.

(** [np.clip(x, 0, 255)] of a number above 255, or of +infinity, is
    255. *)
Lemma clip_above (x : float) :
  Prim2SF x = S754_infinity false \/ (finite x /\ (255 < B2Q x)%Q) ->
  minimum (maximum x (of_int 0)) (of_int 255) = of_int (F:=float) 255.
Proof.
  intros Hx.
  change (minimum (maximum x (of_int 0)) (of_int 255))
    with (Binary64.fmin (Binary64.fmax x (of_int 0)) (of_int 255)).
  destruct (of_int_sample 0 ltac:(lia)) as [F0 V0].
  destruct (of_int_sample 255 ltac:(lia)) as [F255 V255].
  change (inject_Z 0) with 0%Q in V0. change (inject_Z 255) with 255%Q in V255.
  assert (Prim2SF x <> S754_nan) as Nx.
  { destruct Hx as [E | [Fx _]]; [congruence |].
    unfold finite in Fx. intros E. rewrite E in Fx. discriminate. }
  assert ((x <? of_int 0)%float = false) as L0.
  { destruct Hx as [E | [Fx Bx]].
    - rewrite FloatAxioms.ltb_spec, E.
      destruct (Prim2SF (of_int (F:=float) 0)) as [| | | ? ? ?] eqn:P0;
        try reflexivity; vm_compute in P0; discriminate.
    - apply not_true_is_false. intros C.
      apply (ltb_finite x _ Fx F0) in C. rewrite V0 in C. lra. }
  assert ((of_int 255 <? x)%float = true) as L255.
  { destruct Hx as [E | [Fx Bx]].
    - rewrite FloatAxioms.ltb_spec, E.
      destruct (Prim2SF (of_int (F:=float) 255)) as [| | | [] ? ?] eqn:P255;
        try reflexivity; vm_compute in P255; discriminate.
    - apply (ltb_finite _ x F255 Fx). rewrite V255. exact Bx. }
  unfold Binary64.fmax. rewrite (is_nan_false x Nx).
  assert (PrimFloat.is_nan (of_int (F:=float) 0) = false) as ->
    by (vm_compute; reflexivity).
  rewrite L0. unfold Binary64.fmin. rewrite (is_nan_false x Nx).
  assert (PrimFloat.is_nan (of_int (F:=float) 255) = false) as ->
    by (vm_compute; reflexivity).
  rewrite L255. reflexivity.
Qed.

(** With a contrast above 1 the sum that the contrast step computes
    for a sample below the midpoint is at least 256, or +infinity. *)
Lemma boosted_sum (c : float) (p : Z) :
  (of_dec 1.0 <? c)%float = true -> 0 <= p < 128 ->
  let x := (of_int (uint8_sub p 128) * c + of_int 128)%float in
  Prim2SF x = S754_infinity false \/ (finite x /\ (255 < B2Q x)%Q).
Proof.
  intros Hc Hp. rewrite (uint8_sub_low p Hp). intros x.
  assert (finite (of_dec (F:=float) 1.0) /\
          (B2Q (of_dec (F:=float) 1.0) == 1)%Q) as [F1 V1]
    by (split; vm_compute; reflexivity).
  destruct (of_int_pos (p + 128) ltac:(lia)) as (Fk & Vk & Pk).
  destruct (of_int_pos 128 ltac:(lia)) as (Fg & Vg & Pg).
  change (inject_Z 128) with 128%Q in Vg.
  assert (128 <= B2Q (of_int (F:=float) (p + 128)))%Q as Bk.
  { rewrite Vk. change 128%Q with (inject_Z 128). rewrite <- Zle_Qle. lia. }
  (* the product *)
  assert (Prim2SF (of_int (p + 128) * c)%float = S754_infinity false \/
          (finite (of_int (p + 128) * c)%float /\
           (128 <= B2Q (of_int (p + 128) * c)%float)%Q)) as Hm.
  { destruct (ltb_true_cases _ c F1 Hc) as [Inf | [Fc Lc]].
    - left. rewrite mul_spec, Inf.
      destruct (positive_is_finite_false _ Fk Pk) as (m & e & ->).
      reflexivity.
    - rewrite V1 in Lc.
      apply (rounding_at_least _ 128 _ (mul_rounding _ c Fk Fc));
        [reflexivity | nra |].
      change 128%Q with (pow2 7). apply representable_pow2. lia. }
  (* the sum *)
  destruct Hm as [Inf | [Fm Bm]].
  - left. unfold x. rewrite add_spec, Inf.
    destruct (positive_is_finite_false _ Fg Pg) as (m & e & ->).
    reflexivity.
  - assert (representable 256) as R256
      by (change 256%Q with (pow2 8); apply representable_pow2; lia).
    assert (256 <= B2Q (of_int (p + 128) * c)%float
                   + B2Q (of_int (F:=float) 128))%Q as B256
      by (rewrite Vg; lra).
    destruct (rounding_at_least _ 256 _ (add_rounding _ _ Fm Fg)
                ltac:(reflexivity) B256 R256) as [Inf | [Fx Bx]].
    + now left.
    + right. split; [exact Fx |]. change (256 <= B2Q x)%Q in Bx. lra.
Qed.

End ContrastBinary64.

(* ================================================================= *)
(** ** The output grid height: claim C3 *)

Section TargetHeight.

(** C3, as stated, fails: for a 1920x1080 image and target width 70
    the code produces int(19.6875) = 19 rows, where rounding to the
    nearest integer gives 20. *)
Lemma height_is_truncated_not_rounded :
  AC.target_height (F:=float) (flat_image 1920 1080 0) 70 = Ok 19%Z /\
  rounded_target_height 70 1920 1080 = 20%Z /\
  AC.target_height (F:=float) (flat_image 1920 1080 0) 70
    <> Ok (rounded_target_height 70 1920 1080).
Proof.
  split; [| split]; try (vm_compute; reflexivity).
  vm_compute. discriminate.
Qed.

(** The height is computed, whatever the sign of the width. *)
Lemma target_height_returns (img : PIL.Image) (tw : Z) :
  1 <= PIL.width img < 2 ^ 31 -> 0 <= PIL.height img < 2 ^ 31 ->
  - 2 ^ 31 < tw < 2 ^ 31 ->
  exists ht, AC.target_height (F:=float) img tw = Ok ht.
Proof.
  intros Hw Hh Ht. unfold AC.target_height, truediv.
  destruct (PIL.width img =? 0) eqn:E; [apply Z.eqb_eq in E; lia |].
  cbn [bind]. apply trunc_finite.
  set (w := PIL.width img) in *. set (h := PIL.height img) in *.
  destruct (of_int_pos w ltac:(lia)) as (Fw & Vw & Pw).
  destruct (of_Z_exact h ltac:(lia)) as [Fh Vh].
  destruct (of_int_finite tw ltac:(lia)) as [Ft Vt].
  destruct half_value as [Fhalf Vhalf].
  change (Binary64.of_Z h) with (of_int (F:=float) h) in *.
  assert (0 <= inject_Z h <= inject_Z (2 ^ 31))%Q as Bh
    by (split; [change 0%Q with (inject_Z 0) |]; rewrite <- Zle_Qle; lia).
  assert (1 <= inject_Z w)%Q as Bw
    by (change 1%Q with (inject_Z 1); rewrite <- Zle_Qle; lia).
  assert (- inject_Z (2 ^ 31) <= inject_Z tw <= inject_Z (2 ^ 31))%Q as Bt
    by (rewrite <- inject_Z_opp, <- !Zle_Qle; lia).
  (* the aspect ratio *)
  assert (B2Q (of_int (F:=float) h) / B2Q (of_int (F:=float) w) <= pow2 31)%Q
    as Ua.
  { rewrite Vh, Vw. apply Qle_shift_div_r; [lra |].
    change (pow2 31) with (inject_Z (2 ^ 31)). nra. }
  destruct (div_nonneg (of_int h) (of_int w) (pow2 31)) as [Fa Va];
    try assumption; [rewrite Vh; tauto | apply representable_pow2; lia |].
  assert (0 <= B2Q (of_int h / of_int w)%float <= pow2 31)%Q as Ba.
  { rewrite Va. split; [apply RN0_nonneg |].
    apply RN0_le_representable; [exact Ua | apply representable_pow2; lia]. }
  set (a := (of_int h / of_int w)%float) in *.
  (* the product with the width *)
  assert (- pow2 62 <= B2Q (of_int (F:=float) tw) * B2Q a <= pow2 62)%Q as Ub.
  { rewrite Vt.
    assert (pow2 62 == inject_Z (2 ^ 31) * pow2 31)%Q as -> by reflexivity.
    pose proof (pow2_pos 31). split; nra. }
  pose proof (mul_rounding (of_int tw) a Ft Fa) as Rb.
  pose proof (rounding_finite _ _ _ Rb Ub
                (representable_pow2 62 ltac:(lia))) as Fb.
  (* the half *)
  apply (rounding_finite _ (pow2 1023) _
           (mul_rounding _ (of_dec 0.5) Fb Fhalf));
    [| apply representable_pow2; lia].
  rewrite Vhalf.
  pose proof (Prim2SF_valid (of_int tw * a)%float) as Vb.
  fold (finite (of_int tw * a)%float) in Fb.
  set (b := (of_int tw * a)%float) in *.
  assert (- pow2 1024 < B2Q b < pow2 1024)%Q as Bb.
  { unfold B2Q. unfold finite in Fb.
    destruct (Prim2SF b) as [s | s | | s m e]; try discriminate.
    - rewrite (SFzero_value s). split; reflexivity.
    - rewrite SF2Q_finite.
      pose proof (representable_bound _ (finite_representable m e Vb)).
      destruct s; cbn [cond_Qopp]; lra. }
  assert (pow2 1024 == 2 * pow2 1023)%Q as E24 by reflexivity.
  rewrite E24 in Bb. lra.
Qed.

(** The value of [int(tw * (h / w) * 0.5)] in binary64, against the
    quotient of the integers. *)
Lemma target_height_binary64 (img : PIL.Image) (tw : Z) :
  1 <= PIL.width img < 2 ^ 31 -> 1 <= PIL.height img < 2 ^ 31 ->
  1 <= tw < 2 ^ 20 ->
  exists ht,
    AC.target_height (F:=float) img tw = Ok ht /\
    tw * PIL.height img / (2 * PIL.width img) - 1 <= ht /\
    ht <= tw * PIL.height img / (2 * PIL.width img) /\
    ((tw * PIL.height img) mod (2 * PIL.width img) <> 0 ->
     ht = tw * PIL.height img / (2 * PIL.width img)).
Proof.
  intros Hw Hh Ht. unfold AC.target_height, truediv.
  destruct (PIL.width img =? 0) eqn:E; [apply Z.eqb_eq in E; lia |].
  cbn [bind]. clear E.
  set (w := PIL.width img) in *. set (h := PIL.height img) in *.
  destruct (height_product h w tw Hw Hh Ht) as [Fc Bc].
  set (c := PrimFloat.mul _ _) in *.
  assert (0 <= B2Q c)%Q as Pc.
  { assert (1 <= inject_Z (tw * h))%Q
      by (change 1%Q with (inject_Z 1); rewrite <- Zle_Qle; nia).
    assert (2 <= inject_Z (2 * w))%Q
      by (change 2%Q with (inject_Z 2); rewrite <- Zle_Qle; lia).
    nra. }
  exists (Qfloor (B2Q c)). split; [exact (trunc_nonneg c Fc Pc) |].
  set (T := tw * h) in *. set (D := 2 * w) in *.
  assert (2 <= D) as HD by (unfold D; lia).
  pose proof (Z.div_mod T D ltac:(lia)) as ET.
  pose proof (Z.mod_pos_bound T D ltac:(lia)) as Br.
  set (q := T / D) in *. set (r := T mod D) in *.
  assert (inject_Z T == inject_Z D * inject_Z q + inject_Z r)%Q as EQ
    by (rewrite ET, inject_Z_plus, inject_Z_mult; reflexivity).
  assert (2 <= inject_Z D)%Q as QD
    by (change 2%Q with (inject_Z 2); rewrite <- Zle_Qle; lia).
  assert (0 <= inject_Z r /\ inject_Z r + 1 <= inject_Z D)%Q as Qr.
  { change 0%Q with (inject_Z 0). change 1%Q with (inject_Z 1).
    rewrite <- inject_Z_plus, <- !Zle_Qle. lia. }
  rewrite EQ in Bc. destruct Bc as [Lc Uc].
  pose proof (Qfloor_bounds (B2Q c)) as [F1 F2].
  set (k := Qfloor (B2Q c)) in *.
  set (x := B2Q c) in *. set (d := inject_Z D) in *.
  set (qq := inject_Z q) in *. set (rr := inject_Z r) in *.
  assert (qq < inject_Z k + 2)%Q as A1 by (clearbody x d qq rr; nra).
  assert (inject_Z k < qq + 1)%Q as A2 by (clearbody x d qq rr; nra).
  unfold qq in A1, A2.
  change 2%Q with (inject_Z 2) in A1. change 1%Q with (inject_Z 1) in A2.
  rewrite <- inject_Z_plus, <- Zlt_Qlt in A1.
  rewrite <- inject_Z_plus, <- Zlt_Qlt in A2.
  split; [lia | split; [lia |]].
  intros Nr.
  assert (1 <= rr)%Q as R1.
  { unfold rr. change 1%Q with (inject_Z 1). rewrite <- Zle_Qle. lia. }
  assert (qq < inject_Z k + 1)%Q as A3.
  { change (inject_Z 1) with 1%Q in *. clearbody x d qq rr. nra. }
  unfold qq in A3. change 1%Q with (inject_Z 1) in A3.
  rewrite <- inject_Z_plus, <- Zlt_Qlt in A3. lia.
Qed.

(** An image without rows: the ratio, the product and the height are 0. *)
Lemma target_height_of_no_rows (img : PIL.Image) (tw : Z) :
  1 <= PIL.width img < 2 ^ 31 -> PIL.height img = 0 ->
  - 2 ^ 20 < tw < 2 ^ 20 ->
  AC.target_height (F:=float) img tw = Ok 0.
Proof.
  intros Hw Hh Ht. unfold AC.target_height, truediv.
  destruct (PIL.width img =? 0) eqn:E; [apply Z.eqb_eq in E; lia |].
  cbn [bind]. rewrite Hh.
  destruct (of_int_pos (PIL.width img) ltac:(lia)) as (Fw & Vw & Pw).
  destruct of_int_zero as [F0 V0].
  destruct (of_int_finite tw ltac:(lia)) as [Ft Vt].
  destruct half_value as [Fhalf Vhalf].
  destruct (div_zero (of_int 0) (of_int (PIL.width img)) F0 Fw V0
              ltac:(lra)) as [Fa Va].
  destruct (mul_zero (of_int tw) _ Ft Fa) as [Fb Vb];
    [rewrite Va; ring |].
  destruct (mul_zero _ (of_dec 0.5) Fb Fhalf) as [Fc Vc];
    [rewrite Vb; ring |].
  exact (trunc_zero _ Fc Vc).
Qed.

(** More than one row of product: the height is at least 1. *)
Lemma target_height_positive (img : PIL.Image) (tw : Z) :
  1 <= PIL.width img < 2 ^ 31 -> 1 <= PIL.height img < 2 ^ 31 ->
  1 <= tw < 2 ^ 20 ->
  2 * PIL.width img < tw * PIL.height img ->
  exists ht, AC.target_height (F:=float) img tw = Ok ht /\ 1 <= ht.
Proof.
  intros Hw Hh Ht Hbig.
  destruct (target_height_binary64 img tw Hw Hh Ht) as (ht & E & Lo & _ & Ex).
  exists ht. split; [exact E |].
  set (T := tw * PIL.height img) in *. set (D := 2 * PIL.width img) in *.
  pose proof (Z.div_mod T D ltac:(lia)) as ET.
  pose proof (Z.mod_pos_bound T D ltac:(lia)) as Br.
  destruct (Z.eq_dec (T mod D) 0) as [Z0 | N0].
  - assert (2 <= T / D) by nia. lia.
  - rewrite (Ex N0). nia.
Qed.

(** Less than one row of product: the height is 0. *)
Lemma target_height_flat (img : PIL.Image) (tw : Z) :
  1 <= PIL.width img < 2 ^ 31 -> 1 <= PIL.height img < 2 ^ 31 ->
  1 <= tw < 2 ^ 20 ->
  tw * PIL.height img < 2 * PIL.width img ->
  AC.target_height (F:=float) img tw = Ok 0.
Proof.
  intros Hw Hh Ht Hsmall.
  destruct (target_height_binary64 img tw Hw Hh Ht) as (ht & E & _ & _ & Ex).
  rewrite E. f_equal.
  rewrite Ex.
  - apply Z.div_small. nia.
  - rewrite Z.mod_small by nia. nia.
Qed.

(** Exactly one row of product at the minimum width 20, that is a
    source ten times as wide as it is high: the quotient 1/10 is
    rounded upward, and the height is 1. *)
Lemma target_height_tenth (img : PIL.Image) :
  1 <= PIL.height img -> PIL.width img < 2 ^ 31 ->
  PIL.width img = 10 * PIL.height img ->
  AC.target_height (F:=float) img 20 = Ok 1.
Proof.
  intros Hh Hw E. unfold AC.target_height, truediv.
  destruct (PIL.width img =? 0) eqn:Ez; [apply Z.eqb_eq in Ez; lia |].
  cbn [bind].
  destruct (height_value (PIL.height img) (PIL.width img) 20)
    as (Fc & Vc & Bq1 & Bq2); try lia.
  set (c := PrimFloat.mul _ _) in *.
  assert (inject_Z (PIL.height img) / inject_Z (PIL.width img) == 1 # 10)%Q
    as E10.
  { rewrite E, inject_Z_mult.
    assert (0 < inject_Z (PIL.height img))%Q
      by (change 0%Q with (inject_Z 0); rewrite <- Zlt_Qlt; lia).
    field. lra. }
  assert (RN (inject_Z (PIL.height img) / inject_Z (PIL.width img))
          == RN (1 # 10))%Q as E1
    by (apply RN_comp; [rewrite E10; reflexivity | exact E10]).
  assert (RN (inject_Z 20 * RN (inject_Z (PIL.height img)
                                / inject_Z (PIL.width img)))
          == RN (inject_Z 20 * RN (1 # 10)))%Q as E2.
  { apply RN_comp; [| rewrite E1; reflexivity].
    pose proof (pow2_pos (-32)). lra. }
  rewrite E2 in Vc.
  assert (RN (inject_Z 20 * RN (1 # 10)) * (1 # 2) == 1)%Q as E3
    by (vm_compute; reflexivity).
  rewrite E3 in Vc.
  assert (0 <= B2Q c)%Q as Pc by lra.
  pose proof (trunc_nonneg c Fc Pc) as Et.
  rewrite (Qfloor_comp _ _ Vc) in Et. exact Et.
Qed.

(** C3, amended.  For every image with width and height from 1 to
    2^31 - 1 and every target width from 1 to 2^20 - 1, the output grid
    height is int(targetWidth * (height / width) * 0.5) computed in
    binary64: the product is truncated, never rounded up.  With
    q = (targetWidth * height) div (2 * width), the height is q
    whenever the exact product is not an integer, and q or q - 1 when
    it is (the rounded aspect ratio can leave the product just below
    the integer).  For a 1920x1080 image and target width 70 this gives
    19 rows; for a 352x240 image and target width 88 it gives 29, one
    less than the exact quotient 30. *)
Theorem target_height_is_truncated_quotient
    (img : PIL.Image) (target_width : Z) :
  1 <= PIL.width img < 2 ^ 31 -> 1 <= PIL.height img < 2 ^ 31 ->
  1 <= target_width < 2 ^ 20 ->
  (exists height,
      AC.target_height (F:=float) img target_width = Ok height /\
      target_width * PIL.height img / (2 * PIL.width img) - 1 <= height /\
      height <= target_width * PIL.height img / (2 * PIL.width img) /\
      ((target_width * PIL.height img) mod (2 * PIL.width img) <> 0 ->
       height = target_width * PIL.height img / (2 * PIL.width img))) /\
  AC.target_height (F:=float) (flat_image 1920 1080 0) 70 = Ok 19 /\
  AC.target_height (F:=float) (flat_image 352 240 0) 88 = Ok 29 /\
  88 * 240 / (2 * 352) = 30.
Proof.
  intros Hw Hh Ht.
  split; [exact (target_height_binary64 img target_width Hw Hh Ht) |].
  repeat split; vm_compute; reflexivity.
Qed.

Lemma target_height_is_truncated_quotient_witness :
  (exists height,
      AC.target_height (F:=float) (flat_image 1920 1080 0) 70 = Ok height /\
      70 * 1080 / (2 * 1920) - 1 <= height /\
      height <= 70 * 1080 / (2 * 1920) /\
      ((70 * 1080) mod (2 * 1920) <> 0 ->
       height = 70 * 1080 / (2 * 1920))) /\
  AC.target_height (F:=float) (flat_image 1920 1080 0) 70 = Ok 19 /\
  AC.target_height (F:=float) (flat_image 352 240 0) 88 = Ok 29 /\
  88 * 240 / (2 * 352) = 30.
Proof.
  apply (target_height_is_truncated_quotient (flat_image 1920 1080 0) 70);
    simpl; lia.
Defined.

End TargetHeight.

(* ================================================================= *)
(** ** When a conversion succeeds: claim C4 *)

Section Conversion.

Lemma mapM_Forall2 {A B} (f : A -> result B) (l : list A) (ys : list B) :
  mapM f l = Ok ys -> Forall2 (fun x y => f x = Ok y) l ys.
Proof.
  revert ys. induction l as [| x l IH]; simpl; intros ys E.
  - injection E as <-. constructor.
  - destruct (f x) as [y |] eqn:Ey; simpl in E; [| discriminate].
    destruct (mapM f l) as [ys' |]; simpl in E; [| discriminate].
    injection E as <-. constructor; [exact Ey | now apply IH].
Qed.

Lemma string_of_list_length (l : list ascii) :
  String.length (string_of_list_ascii l) = List.length l.
Proof. induction l as [| a l IH]; simpl; [reflexivity | now rewrite IH]. Qed.

Lemma flat_image_well_formed (w h g : Z) :
  0 <= g <= 255 -> PIL.well_formed (flat_image w h g).
Proof.
  intros Hg w' h'. simpl. split; [apply repeat_length |].
  apply Forall_forall. intros row Hrow. apply repeat_spec in Hrow. subst row.
  split; [apply repeat_length |].
  apply Forall_forall. intros p Hp. apply repeat_spec in Hp. now subst p.
Qed.

(** Both entry points run the same pipeline. *)
Lemma convert_image_is_convert_frame {F} `{PyFloat F}
    (self : AC.t F) (image : PIL.Image) (width : Z) :
  AC.convert_image self image width = AC.convert_frame self image width.
Proof. reflexivity. Qed.

(** In every float interpretation, a target grid with a side below 1
    is refused by the resize. *)
Lemma convert_frame_rejects {F} `{PyFloat F}
    (self : AC.t F) (frame : PIL.Image) (width height : Z) :
  1 <= PIL.width frame -> 1 <= PIL.height frame ->
  AC.target_height frame width = Ok height ->
  width < 1 \/ height < 1 ->
  AC.convert_frame self frame width = Raise ValueError.
Proof.
  intros Hw Hh Eh Hside. unfold AC.convert_frame. rewrite Eh. simpl.
  unfold PIL.resize_gray.
  replace ((width =? PIL.width frame) && (height =? PIL.height frame))
    with false by (symmetry; apply andb_false_iff; lia).
  replace ((width <? 1) || (height <? 1)) with true
    by (symmetry; apply orb_true_iff; lia).
  reflexivity.
Qed.

(** In every float interpretation, an image of width zero stops at the
    division that computes the aspect ratio. *)
Lemma convert_frame_zero_width {F} `{PyFloat F}
    (self : AC.t F) (frame : PIL.Image) (width : Z) :
  PIL.width frame = 0 ->
  AC.convert_frame self frame width = Raise ZeroDivisionError.
Proof.
  intros Hw. unfold AC.convert_frame, AC.target_height, truediv.
  rewrite Hw. reflexivity.
Qed.

Lemma shape_of_lines (lines : list string) (rows : list (list Z))
    (w h : Z) :
  1 <= w -> 1 <= h ->
  map String.length lines = map (@List.length Z) rows ->
  List.length rows = Z.to_nat h ->
  Forall (fun row => List.length row = Z.to_nat w /\
                     Forall (fun p => 0 <= p <= 255) row) rows ->
  len lines = h /\ Forall (fun l => str_len l = w) lines.
Proof.
  intros Hw Hh Emap Elen Hrows. split.
  - unfold len. rewrite <- (length_map String.length), Emap, length_map.
    lia.
  - clear Elen. revert lines Emap.
    induction Hrows as [| row rows [Hrow _] _ IH]; intros lines Emap;
      destruct lines as [| l lines]; simpl in Emap; try discriminate;
      constructor.
    + injection Emap as E _. unfold str_len. rewrite E, Hrow. lia.
    + injection Emap as _ E. now apply IH.
Qed.

Lemma apply_contrast_shape {F} `{PyFloat F} (self : AC.t F) (pixels : list (list Z)) :
  map (@List.length F) (AC.apply_contrast self pixels) =
  map (@List.length Z) pixels.
Proof.
  unfold AC.apply_contrast. destruct (negb _); rewrite map_map;
    apply map_ext; intros row; apply length_map.
Qed.

(** Rows of samples whose glyph lookup succeeds become lines of the
    same lengths. *)
Lemma to_lines_ok {F} `{PyFloat F} (self : AC.t F) (rows : list (list F)) :
  Forall (Forall (fun v => exists ch, AC._pixel_to_char self v = Ok ch))
         rows ->
  exists lines,
    AC.to_lines self rows = Ok (join (String NL EmptyString) lines) /\
    map String.length lines = map (@List.length F) rows.
Proof.
  intros Hrows. unfold AC.to_lines.
  set (line_of := fun row : list F =>
         bind (mapM (AC._pixel_to_char self) row)
              (fun line => Ok (string_of_list_ascii line))).
  assert (Forall (fun row => exists s, line_of row = Ok s) rows) as Hall.
  { eapply Forall_impl; [| exact Hrows]. intros row Hrow. unfold line_of.
    destruct (mapM_all_ok (AC._pixel_to_char self) row Hrow) as [cs Hcs].
    rewrite Hcs. simpl. eauto. }
  destruct (mapM_all_ok line_of rows Hall) as [lines Hlines].
  exists lines. fold line_of. rewrite Hlines. simpl. split; [reflexivity |].
  apply mapM_Forall2 in Hlines. clear Hall Hrows.
  induction Hlines as [| row s rows lines Hs _ IH]; simpl; [reflexivity |].
  f_equal; [| exact IH].
  unfold line_of in Hs.
  destruct (mapM (AC._pixel_to_char self) row) as [cs |] eqn:Ecs;
    simpl in Hs; [| discriminate].
  injection Hs as <-. rewrite string_of_list_length.
  apply mapM_Forall2 in Ecs. symmetry. exact (Forall2_length Ecs).
Qed.

(** A grid with both sides at least 1 is converted: the resize accepts
    it, the contrast step keeps the samples in [0, 255], and every
    glyph lookup succeeds. *)
Lemma convert_frame_returns (self : AC.t float) (frame : PIL.Image)
    (width height : Z) :
  PIL.well_formed frame ->
  finite (AC.contrast self) ->
  1 <= str_len (AC.charset self) < 2 ^ 63 ->
  AC.target_height (F:=float) frame width = Ok height ->
  1 <= width -> 1 <= height ->
  exists lines,
    AC.convert_frame self frame width
      = Ok (join (String NL EmptyString) lines) /\
    len lines = height /\
    Forall (fun l => str_len l = width) lines.
Proof.
  intros Hwf Fc HN Eh Hw Hh. unfold AC.convert_frame. rewrite Eh. cbn [bind].
  assert (PIL.resize_gray frame width height
          = Ok (PIL.gray frame width height)) as ->.
  { unfold PIL.resize_gray. destruct (_ && _); [reflexivity |].
    replace ((width <? 1) || (height <? 1)) with false
      by (symmetry; apply orb_false_iff; lia).
    reflexivity. }
  cbn [bind]. destruct (Hwf width height) as [Hlen Hrows].
  destruct (to_lines_ok self
              (AC.apply_contrast self (PIL.gray frame width height)))
    as (lines & Elines & Eshape).
  - eapply Forall_impl;
      [| apply (apply_contrast_in_range self _ Fc);
         eapply Forall_impl; [| exact Hrows];
         intros row [_ Hrange]; exact Hrange].
    intros row Hrow. eapply Forall_impl; [| exact Hrow].
    intros v Hv. now apply pixel_to_char_binary64.
  - exists lines. split; [exact Elines |].
    rewrite apply_contrast_shape in Eshape.
    now apply (shape_of_lines lines (PIL.gray frame width height)).
Qed.

(** An image without rows at its own width: Pillow copies it, and the
    text has no line. *)
Lemma convert_frame_of_no_rows (self : AC.t float) (frame : PIL.Image)
    (width : Z) :
  PIL.well_formed frame ->
  1 <= PIL.width frame < 2 ^ 31 -> PIL.height frame = 0 ->
  - 2 ^ 20 < width < 2 ^ 20 ->
  AC.convert_frame self frame width
  = if width =? PIL.width frame then Ok EmptyString else Raise ValueError.
Proof.
  intros Hwf Hw Hh Ht. unfold AC.convert_frame.
  rewrite (target_height_of_no_rows frame width Hw Hh Ht). cbn [bind].
  unfold PIL.resize_gray. rewrite Hh.
  destruct (width =? PIL.width frame) eqn:E; cbn [andb Z.eqb bind].
  - destruct (Hwf width 0) as [Hlen _].
    destruct (PIL.gray frame width 0); [| discriminate].
    unfold AC.apply_contrast. destruct (negb _); reflexivity.
  - rewrite orb_true_r. reflexivity.
Qed.

(** Converting at a given width, by the size of the source. *)
Lemma convert_at_width (converter : AC.t float) (frame : PIL.Image)
    (w : Z) :
  PIL.well_formed frame ->
  finite (AC.contrast converter) ->
  1 <= str_len (AC.charset converter) < 2 ^ 63 ->
  1 <= PIL.width frame < 2 ^ 31 -> 1 <= PIL.height frame < 2 ^ 31 ->
  1 <= w < 2 ^ 20 ->
  (2 * PIL.width frame < w * PIL.height frame ->
   exists text, AC.convert_frame converter frame w = Ok text) /\
  (w * PIL.height frame < 2 * PIL.width frame ->
   AC.convert_frame converter frame w = Raise ValueError) /\
  (20 <= w -> PIL.width frame <= 10 * PIL.height frame ->
   exists text, AC.convert_frame converter frame w = Ok text).
Proof.
  intros Hwf Fc HN Hw Hh Ht.
  assert (2 * PIL.width frame < w * PIL.height frame ->
          exists text, AC.convert_frame converter frame w = Ok text) as Big.
  { intros Hbig.
    destruct (target_height_positive frame w Hw Hh Ht Hbig) as (ht & E & P).
    destruct (convert_frame_returns converter frame w ht Hwf Fc HN E)
      as (lines & El & _); [lia | exact P |]. eauto. }
  split; [exact Big | split].
  - intros Hsmall.
    apply (convert_frame_rejects converter frame w 0); try lia.
    now apply target_height_flat.
  - intros H20 Hshape.
    destruct (Z_lt_le_dec (2 * PIL.width frame) (w * PIL.height frame))
      as [Hbig | Heq]; [now apply Big |].
    assert (w = 20 /\ PIL.width frame = 10 * PIL.height frame) as [-> E]
      by nia.
    destruct (convert_frame_returns converter frame 20 1 Hwf Fc HN)
      as (lines & El & _); try lia; [| eauto].
    apply target_height_tenth; lia.
Qed.

End Conversion.

Section ConversionClaim.

(** C4, as stated, fails: a 1920x1080 image and target width 1 are
    both within the claimed domain, yet the truncated height is 0 and
    the resize refuses the 1x0 grid. *)
Lemma convert_fails_on_flat_grid :
  PIL.well_formed (flat_image 1920 1080 128) /\
  AC.target_height (F:=float) (flat_image 1920 1080 128) 1 = Ok 0 /\
  AC.convert_frame (AC.__init__ None (of_dec 1.0 : float))
                   (flat_image 1920 1080 128) 1 = Raise ValueError.
Proof.
  split; [apply flat_image_well_formed; lia |].
  split; vm_compute; reflexivity.
Qed.

(** C4, amended.  The converter validates nothing itself, and what
    it raises comes from the division or from the resize.  For a
    finite contrast, sides below 2^31 and a target width of magnitude
    below 2^20:
    - an image of width 0 raises [ZeroDivisionError];
    - an image of height 0 (width >= 1) is returned as the empty text
      when the target width is the image's own width, and raises the
      [ValueError] of the resize otherwise;
    - for an image with width >= 1 and height >= 1 the grid height
      int(targetWidth * (height / width) * 0.5) is computed, and the
      conversion succeeds exactly when targetWidth >= 1 and that
      height is >= 1, returning that many lines of targetWidth
      characters; otherwise it raises the [ValueError] of the resize.
      The height is >= 1 when targetWidth * height > 2 * width and is 0
      when targetWidth * height < 2 * width. *)
Theorem convert_succeeds_iff_grid_positive
    (charset : option string) (contrast : float)
    (image : PIL.Image) (target_width : Z) :
  PIL.well_formed image -> finite contrast ->
  str_len (AC.charset (AC.__init__ charset contrast)) < 2 ^ 63 ->
  0 <= PIL.width image < 2 ^ 31 -> 0 <= PIL.height image < 2 ^ 31 ->
  - 2 ^ 20 < target_width < 2 ^ 20 ->
  (PIL.width image = 0 ->
   AC.convert_frame (AC.__init__ charset contrast) image target_width
   = Raise ZeroDivisionError) /\
  (1 <= PIL.width image -> PIL.height image = 0 ->
   AC.convert_frame (AC.__init__ charset contrast) image target_width
   = if target_width =? PIL.width image then Ok EmptyString
     else Raise ValueError) /\
  (1 <= PIL.width image -> 1 <= PIL.height image ->
   exists height,
     AC.target_height (F:=float) image target_width = Ok height /\
     (1 <= target_width /\ 1 <= height ->
      exists lines,
        AC.convert_frame (AC.__init__ charset contrast) image target_width
          = Ok (join (String NL EmptyString) lines) /\
        len lines = height /\
        Forall (fun l => str_len l = target_width) lines) /\
     (target_width < 1 \/ height < 1 ->
      AC.convert_frame (AC.__init__ charset contrast) image target_width
        = Raise ValueError) /\
     (2 * PIL.width image < target_width * PIL.height image ->
      1 <= height) /\
     (1 <= target_width ->
      target_width * PIL.height image < 2 * PIL.width image ->
      height = 0)).
Proof.
  intros Hwf Fc HN Hw Hh Ht.
  set (converter := AC.__init__ charset contrast) in *.
  pose proof (init_charset_nonempty charset contrast) as HN1.
  fold converter in HN1.
  split; [| split].
  - intros E. now apply convert_frame_zero_width.
  - intros Hw1 Hh0. apply convert_frame_of_no_rows; try assumption; lia.
  - intros Hw1 Hh1.
    destruct (target_height_returns image target_width)
      as [height Eh]; try lia.
    exists height. split; [exact Eh |]. split; [| split; [| split]].
    + intros [Ht1 Hpos].
      apply (convert_frame_returns converter image target_width height);
        try assumption. lia.
    + intros Hside.
      now apply (convert_frame_rejects converter image target_width height).
    + intros Hbig.
      assert (1 <= target_width) as Ht1 by nia.
      destruct (target_height_positive image target_width) as (ht & E & P);
        try lia.
      rewrite Eh in E. injection E as ->. exact P.
    + intros Ht1 Hsmall.
      rewrite (target_height_flat image target_width) in Eh by lia.
      now injection Eh as <-.
Qed.

Lemma convert_succeeds_iff_grid_positive_witness :
  (PIL.width (flat_image 1920 1080 128) = 0 ->
   AC.convert_frame (AC.__init__ None (of_dec 1.0 : float))
                    (flat_image 1920 1080 128) 70
   = Raise ZeroDivisionError) /\
  (1 <= PIL.width (flat_image 1920 1080 128) ->
   PIL.height (flat_image 1920 1080 128) = 0 ->
   AC.convert_frame (AC.__init__ None (of_dec 1.0 : float))
                    (flat_image 1920 1080 128) 70
   = if 70 =? PIL.width (flat_image 1920 1080 128) then Ok EmptyString
     else Raise ValueError) /\
  (1 <= PIL.width (flat_image 1920 1080 128) ->
   1 <= PIL.height (flat_image 1920 1080 128) ->
   exists height,
     AC.target_height (F:=float) (flat_image 1920 1080 128) 70 = Ok height /\
     (1 <= 70 /\ 1 <= height ->
      exists lines,
        AC.convert_frame (AC.__init__ None (of_dec 1.0 : float))
                         (flat_image 1920 1080 128) 70
          = Ok (join (String NL EmptyString) lines) /\
        len lines = height /\
        Forall (fun l => str_len l = 70) lines) /\
     (70 < 1 \/ height < 1 ->
      AC.convert_frame (AC.__init__ None (of_dec 1.0 : float))
                       (flat_image 1920 1080 128) 70
        = Raise ValueError) /\
     (2 * PIL.width (flat_image 1920 1080 128)
      < 70 * PIL.height (flat_image 1920 1080 128) ->
      1 <= height) /\
     (1 <= 70 ->
      70 * PIL.height (flat_image 1920 1080 128)
      < 2 * PIL.width (flat_image 1920 1080 128) ->
      height = 0)).
Proof.
  apply (convert_succeeds_iff_grid_positive
           None (of_dec 1.0 : float) (flat_image 1920 1080 128) 70).
  - apply flat_image_well_formed. lia.
  - vm_compute. reflexivity.
  - vm_compute. reflexivity.
  - simpl. lia.
  - simpl. lia.
  - lia.
Defined.

(** The zero-sized images, and two sizes at which the exact product of
    the height formula is 1 while the binary64 height is 0. *)
Remark zero_sized_and_boundary_images :
  AC.convert_frame (AC.__init__ None (of_dec 1.0 : float))
                   (flat_image 0 4 128) 4 = Raise ZeroDivisionError /\
  AC.convert_frame (AC.__init__ None (of_dec 1.0 : float))
                   (flat_image 4 0 128) 4 = Ok EmptyString /\
  AC.convert_frame (AC.__init__ None (of_dec 1.0 : float))
                   (flat_image 4 0 128) 8 = Raise ValueError /\
  AC.convert_frame (AC.__init__ None (of_dec 1.0 : float))
                   (flat_image 49 1 128) 98 = Raise ValueError /\
  AC.convert_frame (AC.__init__ None (of_dec 1.0 : float))
                   (flat_image 4900 100 128) 98 = Raise ValueError.
Proof. repeat split; vm_compute; reflexivity. Qed.

(** A contrast that is not a number makes [int()] fail on every
    sample. *)
Remark nan_contrast_fails :
  AC.convert_frame (AC.__init__ None PrimFloat.nan) (flat_image 4 4 128) 4
  = Raise ValueError.
Proof. vm_compute. reflexivity. Qed.

End ConversionClaim.

(* ================================================================= *)
(** ** Sampling the terminal size: claim C6 *)

Section Sampling.
Context {F : Type} `{PyFloat F}.

Lemma size_from_spec (s : TP.source) (out : result (list (option Z)))
    (self : TP.t F) :
  TP.size_from s out self = (TP.Returns (reported out), self, [TP.Query s]).
Proof.
  destruct out as [[| x [| y [| z l]]] | e]; try reflexivity.
  - destruct x; reflexivity.
  - destruct x, y; reflexivity.
  - assert ((len (x :: y :: z :: l) =? 2) = false) as E
      by (apply Z.eqb_neq; unfold len; simpl List.length; lia).
    cbv beta iota delta [TP.size_from TP.try_except TP.seq
                         TP.popen_read_split TP.emit TP.lift].
    rewrite E. destruct x, y; reflexivity.
Qed.

Lemma get_size_spec (p : TP.probe) (self : TP.t F) :
  TP.get_size p self =
  (TP.Returns (external_size p), self, map TP.Query (external_queries p)).
Proof.
  unfold TP.get_size, TP.seq, external_size, external_queries.
  rewrite size_from_spec.
  destruct (reported (TP.stty_output p)) as [sz |]; [reflexivity |].
  rewrite size_from_spec.
  destruct (reported (TP.tput_output p)); reflexivity.
Qed.

(** What one sampling does, in full. *)
Lemma update_terminal_size_spec (p : TP.probe) (self : TP.t F) :
  TP._update_terminal_size p self =
  match escapes p with
  | Some e => (TP.Raises e, self, [TP.Query TP.Shutil])
  | None =>
      (TP.Returns tt,
       match external_size p with
       | Some (rows, cols) => with_size self cols rows
       | None => with_size self (fst (direct_size p self))
                                (snd (direct_size p self))
       end,
       TP.Query TP.Shutil :: map TP.Query (external_queries p))
  end.
Proof.
  destruct self as [fps0 fd0 tw0 th0].
  unfold TP._update_terminal_size, TP.seq, TP.try_except at 1 2.
  unfold escapes, direct_size, TP.shutil_get_terminal_size, TP.seq.
  destruct (TP.shutil_size p) as [[[c l] |] | e]; simpl.
  - rewrite get_size_spec.
    destruct (external_size p) as [[rows cols] |];
      simpl; rewrite ?app_nil_r; reflexivity.
  - rewrite get_size_spec.
    destruct (external_size p) as [[rows cols] |];
      simpl; rewrite ?app_nil_r; reflexivity.
  - destruct e; simpl; try reflexivity;
      rewrite get_size_spec;
      destruct (external_size p) as [[rows cols] |];
      simpl; rewrite ?app_nil_r; reflexivity.
Qed.

(** Sampling twice in the same environment changes nothing more. *)
Lemma update_terminal_size_idempotent (p : TP.probe) (self : TP.t F) :
  TP._update_terminal_size p (snd (fst (TP._update_terminal_size p self)))
  = TP._update_terminal_size p self.
Proof.
  rewrite (update_terminal_size_spec p self).
  destruct (escapes p) as [e |] eqn:Ee; simpl;
    rewrite update_terminal_size_spec, Ee; [reflexivity |].
  unfold direct_size.
  destruct (external_size p) as [[rows cols] |]; [reflexivity |].
  destruct (TP.shutil_size p) as [[[c l] |] | e]; reflexivity.
Qed.

End Sampling.

Section SamplingClaim.

(** C6, as stated, fails: the direct query succeeds with 100x30, yet
    the external command is run and its answer, 40 rows by 120
    columns, replaces that value. *)
Lemma external_command_overrides_direct_query :
  TP._update_terminal_size
    {| TP.shutil_size := Ok (Some (100, 30));
       TP.stty_output := Ok [Some 40; Some 120];
       TP.tput_output := Ok [] |}
    player0
  = (TP.Returns tt, with_size player0 120 40,
     [TP.Query TP.Shutil; TP.Query TP.Stty]).
Proof. vm_compute. reflexivity. Qed.

(** C6, amended.  One sampling asks the direct OS query first and then
    always runs the external size-reporting command (stty, then tput
    when stty reports no size).  The last source that succeeds
    determines the result: a size reported by the external command
    replaces the direct query's; the direct query's size stands only
    when the external command reports none; 80x24 is the result when
    the direct query has no terminal to report and the command reports
    nothing; and when the direct query fails with an error the method
    catches, the previous size is kept. *)
Theorem terminal_size_last_success_wins {F} `{PyFloat F}
    (p : TP.probe) (self : TP.t F) :
  escapes p = None ->
  exists self',
    TP._update_terminal_size p self =
    (TP.Returns tt, self',
     TP.Query TP.Shutil :: map TP.Query (external_queries p)) /\
    In TP.Stty (external_queries p) /\
    (forall rows cols,
        external_size p = Some (rows, cols) ->
        (TP.terminal_width self', TP.terminal_height self') = (cols, rows)) /\
    (external_size p = None ->
     (forall c l,
         TP.shutil_size p = Ok (Some (c, l)) ->
         (TP.terminal_width self', TP.terminal_height self') = (c, l)) /\
     (TP.shutil_size p = Ok None ->
      (TP.terminal_width self', TP.terminal_height self') = (80, 24)) /\
     (forall e,
         TP.shutil_size p = Raise e ->
         (TP.terminal_width self', TP.terminal_height self') =
         (TP.terminal_width self, TP.terminal_height self))).
Proof.
  intros Hesc. rewrite update_terminal_size_spec, Hesc.
  eexists. split; [reflexivity |]. split.
  - unfold external_queries. destruct (reported _); simpl; auto.
  - split.
    + intros rows cols E. rewrite E. reflexivity.
    + intros E. rewrite E. unfold direct_size.
      repeat split; intros; match goal with
                            | Hs : TP.shutil_size p = _ |- _ => rewrite Hs
                            end; reflexivity.
Qed.

Lemma terminal_size_last_success_wins_witness :
  exists self',
    TP._update_terminal_size (sized 100 30) player0 =
    (TP.Returns tt, self',
     TP.Query TP.Shutil :: map TP.Query (external_queries (sized 100 30))) /\
    In TP.Stty (external_queries (sized 100 30)) /\
    (forall rows cols,
        external_size (sized 100 30) = Some (rows, cols) ->
        (TP.terminal_width self', TP.terminal_height self') = (cols, rows)) /\
    (external_size (sized 100 30) = None ->
     (forall c l,
         TP.shutil_size (sized 100 30) = Ok (Some (c, l)) ->
         (TP.terminal_width self', TP.terminal_height self') = (c, l)) /\
     (TP.shutil_size (sized 100 30) = Ok None ->
      (TP.terminal_width self', TP.terminal_height self') = (80, 24)) /\
     (forall e,
         TP.shutil_size (sized 100 30) = Raise e ->
         (TP.terminal_width self', TP.terminal_height self') =
         (TP.terminal_width player0, TP.terminal_height player0))).
Proof.
  apply (terminal_size_last_success_wins (sized 100 30) player0).
  reflexivity.
Defined.

End SamplingClaim.

(* ================================================================= *)
(** ** Negotiating the frame size: claim C2 *)

Section MonadLaws.
Context {F : Type} `{PyFloat F}.

Lemma seq_get {A} (k : TP.t F -> TP.M F A) (self : TP.t F) :
  TP.seq TP.get k self = k self self.
Proof. unfold TP.seq, TP.get. destruct (k self self) as [[o s] tr]. reflexivity. Qed.

Lemma seq_ret {A B} (a : A) (k : A -> TP.M F B) (self : TP.t F) :
  TP.seq (TP.ret a) k self = k a self.
Proof. unfold TP.seq, TP.ret. destruct (k a self) as [[o s] tr]. reflexivity. Qed.

Lemma seq_lift_ok {A B} (a : A) (k : A -> TP.M F B) (self : TP.t F) :
  TP.seq (TP.lift (Ok a)) k self = k a self.
Proof. unfold TP.seq, TP.lift. destruct (k a self) as [[o s] tr]. reflexivity. Qed.

Lemma seq_lift_raise {A B} (e : exn) (k : A -> TP.M F B) (self : TP.t F) :
  TP.seq (TP.lift (Raise e)) k self = (TP.Raises e, self, []).
Proof. reflexivity. Qed.

Lemma seq_assoc {A B C} (c : TP.M F A) (k1 : A -> TP.M F B)
    (k2 : B -> TP.M F C) (self : TP.t F) :
  TP.seq (TP.seq c k1) k2 self = TP.seq c (fun a => TP.seq (k1 a) k2) self.
Proof.
  unfold TP.seq. destruct (c self) as [[[a | e |] s1] tr1]; try reflexivity.
  destruct (k1 a s1) as [[[b | e |] s2] tr2]; try reflexivity.
  destruct (k2 b s2) as [[o s3] tr3]. now rewrite app_assoc.
Qed.

End MonadLaws.

Ltac run_step :=
  first
    [ rewrite seq_assoc
    | rewrite seq_get
    | rewrite seq_ret
    | rewrite seq_lift_ok
    | rewrite seq_lift_raise
    | match goal with
      | |- context [TP.seq (TP.lift ?r) _ _] =>
          let E := fresh "E" in destruct r eqn:E
      | |- context [TP.seq (if ?c then _ else _) _ _] =>
          let E := fresh "E" in destruct c eqn:E
      end ].

Section Negotiation.
Context {F : Type} `{PyFloat F}.

(** The arithmetic after the sampling neither touches the object nor
    produces events. *)
Lemma fit_frame_pure (vw vh : Z) (self : TP.t F) :
  exists o, TP.fit_frame vw vh self = (o, self, []).
Proof.
  unfold TP.fit_frame. repeat run_step; unfold TP.ret; eauto.
Qed.

Lemma fit_frame_bounds (vw vh w h : Z) (self self' : TP.t F)
    (tr : list (TP.event F)) :
  TP.fit_frame vw vh self = (TP.Returns (w, h), self', tr) ->
  20 <= w /\ 10 <= h /\
  exists m, max_height (TP.terminal_height self) = Ok m /\ h <= Z.max 10 m.
Proof.
  unfold TP.fit_frame, max_height. repeat run_step; unfold TP.ret;
    intros Eq; try discriminate; injection Eq as <- <- _ _; cbn [fst snd];
    (repeat split; try lia; eexists; split; [reflexivity |]); lia.
Qed.

(** The steps of a [fit_frame] that returns. *)
Lemma fit_frame_inv (vw vh w h : Z) (self self' : TP.t F)
    (tr : list (TP.event F)) :
  TP.fit_frame vw vh self = (TP.Returns (w, h), self', tr) ->
  exists w0 a h0 mh,
    to_int (fmul (of_int (TP.terminal_width self)) (of_dec 0.7)) = Ok w0 /\
    truediv vh vw = Ok a /\
    to_int (fmul (fmul (of_int w0) a) (of_dec 0.5)) = Ok h0 /\
    max_height (TP.terminal_height self) = Ok mh /\
    ((h0 >? mh) = false /\ w = Z.max w0 20 /\ h = Z.max h0 10 \/
     (h0 >? mh) = true /\ h = Z.max mh 10 /\
     exists q w1,
       float_truediv (of_int mh) (fmul a (of_dec 0.5)) = Ok q /\
       to_int q = Ok w1 /\ w = Z.max w1 20).
Proof.
  unfold TP.fit_frame, max_height. repeat run_step; unfold TP.ret;
    intros Eq; try discriminate; injection Eq as <- <- _ _; cbn [fst snd];
    match goal with
    | E0 : to_int (fmul (of_int (TP.terminal_width self)) _) = Ok ?w0,
      E1 : truediv vh vw = Ok ?a,
      E2 : to_int (fmul (fmul (of_int ?w0) ?a) _) = Ok ?h0,
      E3 : to_int (fmul (of_int (TP.terminal_height self)) _) = Ok ?mh
      |- _ =>
        exists w0, a, h0, mh;
        split; [reflexivity | split; [reflexivity | split; [exact E2 |
        split; [reflexivity |]]]]
    end.
  - right. split; [assumption | split; [reflexivity |]].
    do 2 eexists. split; [eassumption | split; [eassumption | reflexivity]].
  - left. split; [assumption | split; reflexivity].
Qed.

End Negotiation.

Section NegotiationAnyFloat.
Context {F : Type} `{PyFloat F}.

Lemma calculate_frame_size_idempotent (p : TP.probe) (vw vh : Z)
    (self : TP.t F) :
  TP.calculate_frame_size p vw vh
    (snd (fst (TP.calculate_frame_size p vw vh self)))
  = TP.calculate_frame_size p vw vh self.
Proof.
  pose proof (update_terminal_size_idempotent p self) as Hid.
  unfold TP.calculate_frame_size, TP.seq in *.
  destruct (TP._update_terminal_size p self) as [[[[] | e |] s1] tr1];
    simpl in Hid.
  - destruct (fit_frame_pure vw vh s1) as [o E]. rewrite E. simpl.
    rewrite Hid, E. reflexivity.
  - simpl. rewrite Hid. reflexivity.
  - simpl. rewrite Hid. reflexivity.
Qed.

Lemma calculate_frame_size_bounds (p : TP.probe) (vw vh w h : Z)
    (self self' : TP.t F) (tr : list (TP.event F)) :
  TP.calculate_frame_size p vw vh self = (TP.Returns (w, h), self', tr) ->
  20 <= w /\ 10 <= h /\
  exists m, max_height (TP.terminal_height self') = Ok m /\ h <= Z.max 10 m.
Proof.
  unfold TP.calculate_frame_size, TP.seq.
  destruct (TP._update_terminal_size p self) as [[[[] | e |] s1] tr1];
    try discriminate.
  destruct (fit_frame_pure vw vh s1) as [o E]. rewrite E.
  intros Eq. injection Eq as -> <- _.
  exact (fit_frame_bounds vw vh w h s1 s1 [] E).
Qed.

End NegotiationAnyFloat.

Section NegotiationExact.
Local Open Scope Q_scope.

Lemma max_height_exact (rows : Z) :
  (0 <= rows)%Z ->
  max_height (F:=Q) rows = Ok (Qfloor (0.9 * inject_Z rows)).
Proof.
  intros Hr. unfold max_height. cbn -[Qmult Qfloor]. f_equal.
  rewrite Qtrunc_floor.
  - apply Qfloor_comp. ring.
  - apply Qmult_le_0_compat; [| discriminate].
    change 0 with (inject_Z 0). rewrite <- Zle_Qle. exact Hr.
Qed.

Lemma aspect_ratio_positive (vw vh : Z) (a : Q) :
  (0 < vw)%Z -> (0 < vh)%Z -> truediv vh vw = Ok a -> 0 < a.
Proof.
  intros Hw Hh. unfold truediv.
  destruct (vw =? 0)%Z; [discriminate |]. intros E. injection E as <-.
  cbn -[Qdiv]. apply Qlt_shift_div_l.
  - change 0 with (inject_Z 0). now rewrite <- Zlt_Qlt.
  - rewrite Qmult_0_l. change 0 with (inject_Z 0). now rewrite <- Zlt_Qlt.
Qed.

(** In exact arithmetic the computation returns for every source of
    positive size. *)
Lemma fit_frame_returns_exact (vw vh : Z) (self : TP.t Q) :
  (0 < vw)%Z -> (0 < vh)%Z ->
  exists w h, TP.fit_frame vw vh self = (TP.Returns (w, h), self, []).
Proof.
  intros Hw Hh. unfold TP.fit_frame.
  repeat run_step; unfold TP.ret; eauto; exfalso;
    repeat match goal with
           | E : to_int _ = Raise _ |- _ => discriminate E
           end.
  - (* the division by the halved aspect ratio *)
    match goal with
    | Ea : truediv vh vw = Ok ?a, Ed : float_truediv _ _ = Raise _ |- _ =>
        pose proof (aspect_ratio_positive vw vh a Hw Hh Ea) as Hpos;
        unfold float_truediv in Ed; cbn -[Qmult] in Ed;
        destruct (Qeq_bool (a * 0.5) (inject_Z 0)) eqn:Ez;
        [| discriminate Ed];
        apply Qeq_bool_iff in Ez;
        assert (0 < a * 0.5) as Hhalf
          by (apply Qmult_lt_0_compat; [exact Hpos | reflexivity]);
        rewrite Ez in Hhalf; discriminate Hhalf
    end.
  - (* the aspect ratio itself *)
    match goal with
    | Ea : truediv vh vw = Raise _ |- _ =>
        unfold truediv in Ea; destruct (vw =? 0)%Z eqn:Ez;
        [apply Z.eqb_eq in Ez; lia | discriminate Ea]
    end.
Qed.

End NegotiationExact.

Section NegotiationClaim.
Local Open Scope Q_scope.

(** C2, as stated, fails on its last bound: on a 40x10 terminal
    (scenario C of the design document) a 1920x1080 source is given
    the size (28, 10), and 10 exceeds floor(0.9 * 10) = 9. *)
Lemma tiny_terminal_exceeds_ninety_percent :
  TP.calculate_frame_size (sized 40 10) 1920 1080 player0
  = (TP.Returns (28, 10)%Z, with_size player0 40 10,
     [TP.Query TP.Shutil; TP.Query TP.Stty; TP.Query TP.Tput]) /\
  Qfloor (0.9 * inject_Z 10) = 9%Z /\
  (9 < 10)%Z.
Proof. repeat split; vm_compute; reflexivity. Qed.

(** C2, amended.  [calculate_frame_size] is idempotent: a second call
    in the same environment returns the same pair (and leaves the same
    object and events).  Whenever it returns (width, height), then
    width >= 20, height >= 10 and height <= max(10, int(0.9 * rows)),
    rows being the sampled terminal height; so height <= floor(0.9 *
    rows) once that bound is at least 10.  This holds in every float
    interpretation.  In exact arithmetic, for a terminal with columns
    > 0 and rows > 0 and a source of width and height > 0, it does
    return, and int(0.9 * rows) is floor(0.9 * rows). *)
Theorem negotiated_size_is_idempotent_and_floored :
  (forall (F : Type) (float_ops : PyFloat F) (p : TP.probe) (vw vh : Z)
          (self : TP.t F),
      TP.calculate_frame_size p vw vh
        (snd (fst (TP.calculate_frame_size p vw vh self)))
      = TP.calculate_frame_size p vw vh self /\
      forall w h self' tr,
        TP.calculate_frame_size p vw vh self = (TP.Returns (w, h), self', tr) ->
        (20 <= w)%Z /\ (10 <= h)%Z /\
        exists m, max_height (TP.terminal_height self') = Ok m /\
                  (h <= Z.max 10 m)%Z) /\
  (forall (p : TP.probe) (vw vh : Z) (self self1 : TP.t Q) tr,
      TP._update_terminal_size p self = (TP.Returns tt, self1, tr) ->
      (0 < TP.terminal_width self1)%Z -> (0 < TP.terminal_height self1)%Z ->
      (0 < vw)%Z -> (0 < vh)%Z ->
      exists w h,
        TP.calculate_frame_size p vw vh self = (TP.Returns (w, h), self1, tr) /\
        (20 <= w)%Z /\ (10 <= h)%Z /\
        (h <= Z.max 10 (Qfloor (0.9 * inject_Z (TP.terminal_height self1))))%Z).
Proof.
  split.
  - intros F float_ops p vw vh self. split.
    + apply calculate_frame_size_idempotent.
    + intros w h self' tr. apply calculate_frame_size_bounds.
  - intros p vw vh self self1 tr Eup Hc Hr Hw Hh.
    destruct (fit_frame_returns_exact vw vh self1 Hw Hh) as (w & h & Efit).
    assert (TP.calculate_frame_size p vw vh self
            = (TP.Returns (w, h), self1, tr)) as Ecalc.
    { unfold TP.calculate_frame_size, TP.seq. rewrite Eup, Efit.
      now rewrite app_nil_r. }
    exists w, h. split; [exact Ecalc |].
    destruct (calculate_frame_size_bounds _ _ _ _ _ _ _ _ Ecalc)
      as (Hw20 & Hh10 & m & Em & Hm).
    rewrite max_height_exact in Em by lia. injection Em as <-.
    repeat split; assumption.
Qed.

Lemma negotiated_size_is_idempotent_and_floored_witness :
  exists w h,
    TP.calculate_frame_size (sized 100 30) 1920 1080 player0_exact
    = (TP.Returns (w, h), with_size player0_exact 100 30,
       [TP.Query TP.Shutil; TP.Query TP.Stty; TP.Query TP.Tput]) /\
    (20 <= w)%Z /\ (10 <= h)%Z /\
    (h <= Z.max 10 (Qfloor (0.9 * inject_Z 30)))%Z.
Proof.
  apply (proj2 negotiated_size_is_idempotent_and_floored
               (sized 100 30) 1920%Z 1080%Z player0_exact); reflexivity.
Defined.

End NegotiationClaim.

(* ================================================================= *)
(** ** The negotiation in binary64 *)

Section NegotiationBinary64.

(** [int(n * c)] for a fraction [c] of at most 0.91: the result is
    between 0 and n - 1. *)
Lemma int_of_fraction (n : Z) (c : float) :
  finite c -> (pow2 (-1022) <= B2Q c <= 91 # 100)%Q ->
  0 <= n < 2 ^ 31 ->
  exists m, to_int (fmul (of_int n) c) = Ok m /\ 0 <= m <= Z.max 0 (n - 1).
Proof.
  intros Fc Bc Hn.
  assert (0 < B2Q c)%Q as Pc by (pose proof (pow2_pos (-1022)); lra).
  destruct (Z.eq_dec n 0) as [-> | Nn].
  - destruct of_int_zero as [F0 V0].
    destruct (mul_zero (of_int 0) c F0 Fc) as [Fm Vm]; [rewrite V0; ring |].
    exists 0. split; [exact (trunc_zero _ Fm Vm) | lia].
  - destruct (of_int_pos n ltac:(lia)) as (Fr & Vr & Pr).
    assert (1 <= inject_Z n <= inject_Z (2 ^ 31))%Q as Br
      by (split; [change 1%Q with (inject_Z 1) |]; rewrite <- Zle_Qle; lia).
    set (vc := B2Q c) in *.
    assert (B2Q (of_int (F:=float) n) * vc == inject_Z n * vc)%Q as Eq
      by (rewrite Vr; reflexivity).
    assert (0 < inject_Z n * vc)%Q as Pq by nra.
    destruct (mul_pos (of_int n) c (pow2 31)) as [Fm Vm];
      try assumption.
    { fold vc. rewrite Eq. change (pow2 31) with (inject_Z (2 ^ 31)). nra. }
    { apply representable_pow2. lia. }
    fold vc in Vm.
    assert (RN (B2Q (of_int (F:=float) n) * vc)
            == RN (inject_Z n * vc))%Q as ERN
      by (apply RN_comp; [rewrite Eq; exact Pq | exact Eq]).
    rewrite ERN in Vm.
    assert (pow2 (-1022) <= inject_Z n * vc)%Q as Nq
      by (pose proof (pow2_pos (-1022)); nra).
    destruct (RN_relative _ Nq) as [_ Up].
    assert (pow2 (-53) == 1 # 9007199254740992)%Q as Eu by reflexivity.
    rewrite Eu in Up.
    set (m := (of_int n * c)%float) in *.
    assert (0 <= B2Q m)%Q as Pm
      by (rewrite Vm; apply RN_nonneg; exact Pq).
    exists (Qfloor (B2Q m)). split; [exact (trunc_nonneg m Fm Pm) |].
    split; [change 0 with (Qfloor 0); now apply Qfloor_resp_le |].
    assert (Qfloor (B2Q m) < n); [| lia].
    rewrite Zlt_Qlt. pose proof (Qfloor_bounds (B2Q m)) as [Fl _].
    set (k := inject_Z (Qfloor (B2Q m))) in *. set (vm := B2Q m) in *.
    set (R := inject_Z n) in *. set (x := RN (R * vc)) in *.
    clearbody k vm x R vc. clear - Fl Vm Up Br Bc Pc. nra.
Qed.

Lemma fraction_07 :
  finite (of_dec (F:=float) 0.7) /\
  (pow2 (-1022) <= B2Q (of_dec (F:=float) 0.7) <= 91 # 100)%Q.
Proof. split; [| split]; vm_compute; reflexivity || discriminate. Qed.

Lemma fraction_09 :
  finite (of_dec (F:=float) 0.9) /\
  (pow2 (-1022) <= B2Q (of_dec (F:=float) 0.9) <= 91 # 100)%Q.
Proof. split; [| split]; vm_compute; reflexivity || discriminate. Qed.

(** [int(rows * 0.9)] in binary64 leaves at least one row. *)
Lemma max_height_binary64 (rows : Z) :
  1 <= rows < 2 ^ 31 ->
  exists mh, max_height (F:=float) rows = Ok mh /\ 0 <= mh <= rows - 1.
Proof.
  intros Hr. destruct fraction_09 as [F9 B9].
  destruct (int_of_fraction rows _ F9 B9 ltac:(lia)) as (mh & E & B).
  exists mh. split; [exact E | lia].
Qed.

(** The halved aspect ratio is a positive number. *)
Lemma halved_ratio (vw vh : Z) :
  1 <= vw < 2 ^ 31 -> 1 <= vh < 2 ^ 31 ->
  finite (fmul (fdiv (of_int vh) (of_int vw)) (of_dec (F:=float) 0.5)) /\
  (pow2 (-32)
   <= B2Q (fmul (fdiv (of_int vh) (of_int vw)) (of_dec (F:=float) 0.5))
   <= pow2 30)%Q.
Proof.
  intros Hw Hh.
  destruct (of_int_pos vw ltac:(lia)) as (Fvw & Vvw & Pvw).
  destruct (of_int_pos vh ltac:(lia)) as (Fvh & Vvh & Pvh).
  destruct half_value as [Fhalf Vhalf].
  destruct (height_value vh vw 1 Hw Hh ltac:(lia)) as (_ & _ & Bq1 & _).
  assert (0 < inject_Z vh / inject_Z vw)%Q as Pr
    by (pose proof (pow2_pos (-31)); lra).
  destruct (div_pos (of_int vh) (of_int vw) (pow2 31)) as [Fa Va];
    try assumption;
    [rewrite Vvh, Vvw; apply Bq1 | apply representable_pow2; lia |].
  assert (RN (B2Q (of_int (F:=float) vh) / B2Q (of_int (F:=float) vw))
          == RN (inject_Z vh / inject_Z vw))%Q as ERa
    by (apply RN_comp; rewrite Vvh, Vvw; [exact Pr | reflexivity]).
  rewrite ERa in Va.
  set (a := (of_int vh / of_int vw)%float) in *.
  set (va := RN (inject_Z vh / inject_Z vw)) in *.
  assert (pow2 (-31) <= va <= pow2 31)%Q as Bva.
  { unfold va. split.
    - apply RN_ge_representable; [apply Bq1 | apply representable_pow2; lia].
    - apply RN_le_representable;
        [exact Pr | apply Bq1 | apply representable_pow2; lia]. }
  assert (0 < va)%Q as Pva by (pose proof (pow2_pos (-31)); lra).
  assert (representable (B2Q a * (1 # 2))) as Rh.
  { apply RN_half.
    - apply finite_value_representable; [exact Fa | rewrite Va; exact Pva].
    - rewrite Va.
      assert (pow2 (-1021) <= pow2 (-31))%Q by (apply pow2_le; lia). lra. }
  assert (B2Q a * B2Q (of_dec (F:=float) 0.5) == B2Q a * (1 # 2))%Q as Eh
    by (rewrite Vhalf; reflexivity).
  destruct (rounding_of_exact _ _ (mul_rounding a (of_dec 0.5) Fa Fhalf))
    as [Fa2 Va2].
  { rewrite Eh, Va. lra. }
  { destruct Rh as (M & e & HM & He & E). exists M, e.
    split; [exact HM | split; [exact He |]]. rewrite Eh. exact E. }
  split; [exact Fa2 |].
  change (B2Q (a * of_dec 0.5)%float == B2Q a * B2Q (of_dec (F:=float) 0.5))%Q
    in Va2.
  change (fmul (fdiv (of_int vh) (of_int vw)) (of_dec 0.5))
    with (a * of_dec 0.5)%float.
  rewrite Va2, Eh, Va.
  assert (pow2 (-32) == pow2 (-31) * (1 # 2))%Q as -> by reflexivity.
  assert (pow2 30 == pow2 31 * (1 # 2))%Q as -> by reflexivity.
  lra.
Qed.

(** In binary64 the arithmetic of [calculate_frame_size] returns for
    every terminal and source whose sides are below 2^31. *)
Lemma fit_frame_returns (vw vh : Z) (self : TP.t float) :
  0 <= TP.terminal_width self < 2 ^ 31 ->
  0 <= TP.terminal_height self < 2 ^ 31 ->
  1 <= vw < 2 ^ 31 -> 1 <= vh < 2 ^ 31 ->
  exists w h, TP.fit_frame vw vh self = (TP.Returns (w, h), self, []).
Proof.
  intros Hc Hr Hw Hh.
  destruct fraction_07 as [F7 B7]. destruct fraction_09 as [F9 B9].
  destruct (int_of_fraction (TP.terminal_width self) _ F7 B7 Hc)
    as (w0 & Ew0 & Bw0).
  destruct (int_of_fraction (TP.terminal_height self) _ F9 B9 Hr)
    as (mh & Emh & Bmh).
  assert (truediv vh vw = Ok (fdiv (of_int (F:=float) vh) (of_int vw)))
    as Ea.
  { unfold truediv. destruct (vw =? 0) eqn:E; [| reflexivity].
    apply Z.eqb_eq in E. lia. }
  destruct (target_height_returns (flat_image vw vh 0) w0)
    as [h0 Eh0]; try (simpl; lia).
  unfold AC.target_height in Eh0. cbn [PIL.width PIL.height flat_image] in Eh0.
  rewrite Ea in Eh0. cbn [bind] in Eh0.
  destruct (halved_ratio vw vh Hw Hh) as [Fa2 Ba2].
  set (a2 := fmul (fdiv (of_int vh) (of_int vw)) (of_dec (F:=float) 0.5))
    in *.
  assert (0 < B2Q a2)%Q as Pa2 by (pose proof (pow2_pos (-32)); lra).
  assert (float_truediv (of_int mh) a2 = Ok (fdiv (of_int mh) a2)) as Eq.
  { unfold float_truediv. destruct of_int_zero as [F0 V0].
    change (feqb a2 (of_int 0)) with (a2 =? of_int 0)%float.
    assert ((a2 =? of_int 0)%float = false) as ->; [| reflexivity].
    apply not_true_is_false. intros C.
    apply (eqb_finite a2 _ Fa2 F0) in C. rewrite V0 in C. lra. }
  destruct (of_Z_exact mh ltac:(lia)) as [Fmh Vmh].
  change (Binary64.of_Z mh) with (of_int (F:=float) mh) in *.
  assert (0 <= inject_Z mh <= inject_Z (2 ^ 31))%Q as Qmh
    by (split; [change 0%Q with (inject_Z 0) |]; rewrite <- Zle_Qle; lia).
  destruct (div_nonneg (of_int mh) a2 (pow2 63)) as [Fq _];
    try assumption; [rewrite Vmh; tauto | | apply representable_pow2; lia |].
  { rewrite Vmh. apply Qle_shift_div_r; [exact Pa2 |].
    assert (pow2 63 * pow2 (-32) == inject_Z (2 ^ 31))%Q by reflexivity.
    pose proof (pow2_pos 63). nra. }
  destruct (trunc_finite _ Fq) as [w1 Ew1].
  unfold TP.fit_frame. rewrite seq_get, Ew0, seq_lift_ok, Ea, seq_lift_ok.
  rewrite Eh0, seq_lift_ok, Emh, seq_lift_ok.
  destruct (h0 >? mh).
  - rewrite seq_assoc. fold a2. rewrite Eq, seq_lift_ok, seq_assoc.
    change (to_int (fdiv (of_int mh) a2))
      with (Binary64.trunc (of_int mh / a2)%float).
    rewrite Ew1, seq_lift_ok, seq_ret. unfold TP.ret. eauto.
  - rewrite seq_ret. unfold TP.ret. eauto.
Qed.

(** In binary64, for a terminal and a source whose sides are below
    2^31, [calculate_frame_size] returns once the sampling has
    returned; the height is at least 10 and, above 10, leaves at least
    one terminal row free. *)
Theorem negotiation_returns_in_binary64
    (p : TP.probe) (vw vh : Z) (self self1 : TP.t float)
    (tr : list (TP.event float)) :
  TP._update_terminal_size p self = (TP.Returns tt, self1, tr) ->
  0 <= TP.terminal_width self1 < 2 ^ 31 ->
  1 <= TP.terminal_height self1 < 2 ^ 31 ->
  1 <= vw < 2 ^ 31 -> 1 <= vh < 2 ^ 31 ->
  exists w h,
    TP.calculate_frame_size p vw vh self = (TP.Returns (w, h), self1, tr) /\
    20 <= w /\ 10 <= h /\ h <= Z.max 10 (TP.terminal_height self1 - 1).
Proof.
  intros Eup Hc Hr Hw Hh.
  destruct (fit_frame_returns vw vh self1) as (w & h & Efit); try lia.
  assert (TP.calculate_frame_size p vw vh self
          = (TP.Returns (w, h), self1, tr)) as Ecalc.
  { unfold TP.calculate_frame_size, TP.seq. rewrite Eup, Efit.
    now rewrite app_nil_r. }
  exists w, h. split; [exact Ecalc |].
  destruct (calculate_frame_size_bounds _ _ _ _ _ _ _ _ Ecalc)
    as (Hw20 & Hh10 & m & Em & Hm).
  destruct (max_height_binary64 _ Hr) as (m' & Em' & Bm).
  rewrite Em in Em'. injection Em' as <-.
  repeat split; try assumption. lia.
Qed.

Lemma negotiation_returns_in_binary64_witness :
  exists w h,
    TP.calculate_frame_size (sized 100 30) 1920 1080 player0
    = (TP.Returns (w, h), with_size player0 100 30,
       [TP.Query TP.Shutil; TP.Query TP.Stty; TP.Query TP.Tput]) /\
    20 <= w /\ 10 <= h /\
    h <= Z.max 10 (TP.terminal_height (with_size player0 100 30) - 1).
Proof.
  apply (negotiation_returns_in_binary64
           (sized 100 30) 1920 1080 player0); simpl; try lia.
  vm_compute. reflexivity.
Defined.

End NegotiationBinary64.

(* ================================================================= *)
(** ** Binary64 against exact arithmetic *)

Section Binary64Checks.

(** For every [uint8] sample and every ramp of up to 64 glyphs the
    binary64 computation of the glyph index is the exact one. *)
Lemma char_index_binary64_is_exact :
  forallb
    (fun n =>
       forallb
         (fun v =>
            same_result
              (AC.char_index (AC.__init__ (Some (ramp_of_length n))
                                          (of_dec 1.0 : float)) (of_int v))
              (AC.char_index (AC.__init__ (Some (ramp_of_length n))
                                          (of_dec 1.0 : Q)) (of_int v)))
         (Z_range 0 256))
    (Z_range 1 64) = true.
Proof. vm_compute. reflexivity. Qed.

(** For every terminal of up to 2000 rows the binary64 value of
    [int(rows * 0.9)] is the exact floor. *)
Lemma max_height_binary64_is_exact :
  forallb
    (fun rows => same_result (max_height (F:=float) rows)
                             (max_height (F:=Q) rows))
    (Z_range 1 2000) = true.
Proof. vm_compute. reflexivity. Qed.

(** For the usual video sizes and every target width up to 400 the
    binary64 grid height is the exact one. *)
Lemma target_height_binary64_is_exact :
  forallb
    (fun size : Z * Z =>
       forallb
         (fun tw =>
            same_result
              (AC.target_height (F:=float)
                 (flat_image (fst size) (snd size) 0) tw)
              (AC.target_height (F:=Q)
                 (flat_image (fst size) (snd size) 0) tw))
         (Z_range 1 400))
    [(1920, 1080); (1280, 720); (3840, 2160); (640, 480); (640, 360);
     (854, 480); (720, 576); (1080, 1920)] = true.
Proof. vm_compute. reflexivity. Qed.

(** They differ where the exact product is an integer that the rounded
    aspect ratio falls short of: a 49x1 picture at width 98. *)
Remark target_height_at_49_by_1 :
  AC.target_height (F:=float) (flat_image 49 1 0) 98 = Ok 0 /\
  AC.target_height (F:=Q) (flat_image 49 1 0) 98 = Ok 1.
Proof. split; vm_compute; reflexivity. Qed.

(** The two interpretations need not agree on [int(columns * 0.7)]:
    90 * 0.7 is 62.99999999999999 in binary64. *)
Remark width_at_90_columns :
  to_int (fmul (of_int 90) (of_dec 0.7 : float)) = Ok 62 /\
  to_int (fmul (of_int 90) (of_dec 0.7 : Q)) = Ok 63.
Proof. split; vm_compute; reflexivity. Qed.

End Binary64Checks.

(* ================================================================= *)
(** ** The playback loop: claims C5 and C7 *)

Section Rendering.
Context {F : Type} `{PyFloat F}.

(** One call of [render_frame] that is not interrupted: the size is
    sampled, and the text written is the frame clipped to the caller's
    bound when there is one, to the freshly sampled rows minus one
    otherwise. *)
Lemma render_frame_spec (frame : string) (max_lines : option Z)
    (tk : TP.tick) (self : TP.t F) :
  escapes (TP.tick_probe tk) = None ->
  TP.tick_draw tk = Ok tt ->
  exists self',
    TP._update_terminal_size (TP.tick_probe tk) self
    = (TP.Returns tt, self',
       TP.Query TP.Shutil
         :: map TP.Query (external_queries (TP.tick_probe tk))) /\
    TP.render_frame frame max_lines tk self
    = (TP.Returns tt, self',
       (TP.Query TP.Shutil
          :: map TP.Query (external_queries (TP.tick_probe tk)))
         ++ [TP.Write TP.CLEAR;
             TP.Write (clipped
                         match max_lines with
                         | Some m => m
                         | None => TP.terminal_height self' - 1
                         end frame);
             TP.Flush]).
Proof.
  intros Hesc Hdraw.
  pose proof (update_terminal_size_spec (TP.tick_probe tk) self) as Eup.
  rewrite Hesc in Eup. eexists. split; [exact Eup |].
  unfold TP.render_frame, TP.seq at 1. rewrite Eup.
  rewrite seq_get, Hdraw. reflexivity.
Qed.

End Rendering.

Section Playback.

(** C5: the code on a terminal that shrinks from 24 to 3 rows between
    the start of [play] and the first iteration.  The size is sampled
    again inside the iteration (the object ends with 3 rows), but the
    five-line frame is written whole: the bound is the 23 computed
    before the loop, not 3 - 1 = 2.  [render_frame] called without a
    bound in the same iteration writes two lines. *)
Theorem play_clips_with_the_bound_taken_before_the_loop :
  TP.play [five_lines] false
          {| TP.start := sized 80 24; TP.ticks := [calm (sized 80 3)] |}
          player0
  = (TP.Returns tt, with_size player0 80 3,
     sampling ++ sampling ++ drawing five_lines ++ pause) /\
  TP.render_frame five_lines None (calm (sized 80 3)) player0
  = (TP.Returns tt, with_size player0 80 3,
     sampling ++ drawing (lines_of ["1"; "2"])).
Proof. split; vm_compute; reflexivity. Qed.

(** C7: the code under two interrupts that are not absorbed.  Arriving
    while frame 1's size probe reads the output of stty, the interrupt
    is swallowed by the bare [except] around the command: playback
    goes on, frame 2 is drawn and no notice is printed.  Arriving in
    the size query that precedes the loop, it is outside the [try] of
    [play] and reaches the caller. *)
Theorem interrupt_outside_draw_and_sleep_is_not_absorbed :
  TP.play ["A"; "B"] false
          {| TP.start := sized 80 24;
             TP.ticks := [interrupted_in_stty; calm (sized 80 24)] |}
          player0
  = (TP.Returns tt, player0,
     sampling
       ++ sampling ++ drawing "A" ++ pause
       ++ sampling ++ drawing "B" ++ pause) /\
  TP.play ["A"; "B"] false
          {| TP.start := interrupted_in_shutil;
             TP.ticks := [calm (sized 80 24); calm (sized 80 24)] |}
          player0
  = (TP.Raises KeyboardInterrupt, player0, [TP.Query TP.Shutil]).
Proof. split; vm_compute; reflexivity. Qed.

(** Scenario E of the design document: an interrupt in the sleep that
    follows frame 3 of 10 ends playback there; frames 4 to 10 are not
    drawn, the notice is printed and [play] returns. *)
Lemma interrupt_in_sleep_stops_playback :
  TP.play ten_frames false
          {| TP.start := sized 80 24;
             TP.ticks := [calm (sized 80 24); calm (sized 80 24);
                          interrupted_in_sleep;
                          calm (sized 80 24); calm (sized 80 24)] |}
          player0
  = (TP.Returns tt, player0,
     sampling
       ++ sampling ++ drawing "f1" ++ pause
       ++ sampling ++ drawing "f2" ++ pause
       ++ sampling ++ drawing "f3" ++ pause
       ++ [TP.Print TP.STOPPED]).
Proof. vm_compute. reflexivity. Qed.

End Playback.

Section Absorption.
Context {F : Type} `{PyFloat F} `{PyFloatOrd F}.

(** Whatever raises [KeyboardInterrupt] inside the loop of [play], the
    method returns normally, and the only event after the interrupt is
    the notice. *)
Theorem interrupt_in_loop_is_absorbed
    (frames : list string) (loop : bool) (w : TP.world)
    (self self1 self2 : TP.t F) (tr1 tr2 : list (TP.event F)) :
  frames <> [] ->
  TP._update_terminal_size (TP.start w) self = (TP.Returns tt, self1, tr1) ->
  TP.play_loop frames (len frames) loop (TP.terminal_height self1 - 1) 0
               (TP.ticks w) self1
  = (TP.Raises KeyboardInterrupt, self2, tr2) ->
  TP.play frames loop w self
  = (TP.Returns tt, self2, tr1 ++ tr2 ++ [TP.Print TP.STOPPED]).
Proof.
  intros Hne Eup Eloop. unfold TP.play.
  destruct (len frames =? 0) eqn:E0.
  - apply Z.eqb_eq in E0. destruct frames; [congruence |].
    unfold len in E0. simpl in E0. lia.
  - unfold TP.seq at 1. rewrite Eup. rewrite seq_get.
    unfold TP.try_except. rewrite Eloop. reflexivity.
Qed.

End Absorption.

Lemma interrupt_in_loop_is_absorbed_witness :
  TP.play ["A"; "B"] false
          {| TP.start := sized 80 24;
             TP.ticks := [interrupted_in_sleep; calm (sized 80 24)] |}
          player0
  = (TP.Returns tt, player0,
     sampling ++ (sampling ++ drawing "A" ++ pause)
              ++ [TP.Print TP.STOPPED]).
Proof.
  apply (interrupt_in_loop_is_absorbed
           ["A"; "B"] false
           {| TP.start := sized 80 24;
              TP.ticks := [interrupted_in_sleep; calm (sized 80 24)] |}
           player0 player0 player0).
  - discriminate.
  - reflexivity.
  - reflexivity.
Defined.

(* ================================================================= *)
(** ** Two scenarios of the design document *)

Section Scenarios.

(** Scenario D: an empty frame sequence is reported and nothing is
    sampled, drawn or slept, whatever the loop flag and the
    environment. *)
Lemma play_nothing {F} `{PyFloat F} `{PyFloatOrd F} (loop : bool) (w : TP.world)
    (self : TP.t F) :
  TP.play [] loop w self
  = (TP.Returns tt, self, [TP.Print "No frames to play"]).
Proof. unfold TP.play. simpl. reflexivity. Qed.

(** Scenario B: a 1920x1080 source on a 100x30 terminal is given 70
    columns and 19 rows, in binary64 as in exact arithmetic. *)
Lemma negotiate_1080p_on_100_by_30 :
  fst (fst (TP.calculate_frame_size (sized 100 30) 1920 1080 player0))
  = TP.Returns (70, 19) /\
  fst (fst (TP.calculate_frame_size (sized 100 30) 1920 1080 player0_exact))
  = TP.Returns (70, 19).
Proof. split; vm_compute; reflexivity. Qed.

End Scenarios.

(* ================================================================= *)
(** ** The playback loops in a calm environment *)

Section CalmPlayback.
Context {F : Type} `{PyFloat F} `{PyFloatOrd F}.

Lemma sampled_spec (p : TP.probe) (self : TP.t F) :
  escapes p = None ->
  TP._update_terminal_size p self
  = (TP.Returns tt, sampled p self, sampling_events p).
Proof.
  intros Hesc. unfold sampled.
  rewrite update_terminal_size_spec, Hesc. reflexivity.
Qed.

Lemma sampled_frame_duration (p : TP.probe) (self : TP.t F) :
  TP.frame_duration (sampled p self) = TP.frame_duration self.
Proof.
  unfold sampled. rewrite update_terminal_size_spec.
  destruct (escapes p); [reflexivity |].
  destruct (external_size p) as [[rows cols] |]; reflexivity.
Qed.

Lemma sampled_through_frame_duration (tks : list TP.tick) (self : TP.t F) :
  TP.frame_duration (sampled_through tks self) = TP.frame_duration self.
Proof.
  revert self. induction tks as [| tk tks IH]; intros self; simpl;
    [reflexivity |].
  rewrite IH. apply sampled_frame_duration.
Qed.

(** One iteration of [play] in which nothing raises. *)
Lemma play_loop_step (frames : list string) (total : Z) (loop : bool)
    (m idx : Z) (tk : TP.tick) (tks : list TP.tick) (self : TP.t F)
    (frame : string) :
  TP.sleep_argument (TP.frame_duration self) = Ok tt ->
  calm_tick tk ->
  getitem frames idx = Ok frame ->
  TP.play_loop frames total loop m idx (tk :: tks) self
  = let '(o, self2, tr2) :=
        (if idx + 1 >=? total
         then if loop then TP.play_loop frames total loop m 0 tks
              else TP.ret tt
         else TP.play_loop frames total loop m (idx + 1) tks)
          (sampled (TP.tick_probe tk) self) in
    (o, self2,
     iteration_events (TP.frame_duration self) m frame tk ++ tr2).
Proof.
  intros Harg (Hesc & Hdraw & Hsleep) Hframe.
  cbn [TP.play_loop]. rewrite Hframe, seq_lift_ok.
  destruct (render_frame_spec frame (Some m) tk self Hesc Hdraw)
    as (self1 & Eup & Erender).
  rewrite (sampled_spec _ self Hesc) in Eup. injection Eup as <-.
  unfold TP.seq at 1. rewrite Erender. rewrite seq_get.
  unfold TP.seq at 1. unfold TP.sleep at 1.
  rewrite sampled_frame_duration, Harg, seq_lift_ok.
  unfold TP.seq at 1, TP.emit at 1.
  rewrite Hsleep. cbn [TP.lift app].
  destruct ((if idx + 1 >=? total
             then if loop then TP.play_loop frames total loop m 0 tks
                  else TP.ret tt
             else TP.play_loop frames total loop m (idx + 1) tks)
              (sampled (TP.tick_probe tk) self)) as [[o self2] tr2].
  unfold iteration_events, sampling_events.
  rewrite <- !app_assoc. reflexivity.
Qed.

Lemma getitem_nth {A} (l : list A) (i : Z) (d : A) :
  0 <= i < len l ->
  getitem l i = Ok (nth (Z.to_nat i) l d) /\
  skipn (Z.to_nat i) l = nth (Z.to_nat i) l d :: skipn (Z.to_nat (i + 1)) l.
Proof.
  intros [Hi Hl]. unfold len in Hl.
  assert (Z.to_nat i < List.length l)%nat as Hn by lia.
  split.
  - unfold getitem.
    destruct (i <? 0) eqn:E; [apply Z.ltb_lt in E; lia |]. rewrite E.
    rewrite (nth_error_nth' l d Hn). reflexivity.
  - replace (Z.to_nat (i + 1)) with (S (Z.to_nat i)) by lia.
    clear Hi Hl. revert l Hn.
    induction (Z.to_nat i) as [| n IH]; intros [| a l] Hn; simpl in *;
      try lia; [reflexivity |].
    apply IH. lia.
Qed.

Lemma loop_events_nil_r (seconds : F) (m : Z) (frames : list string) :
  loop_events seconds m frames [] = [].
Proof. destruct frames; reflexivity. Qed.

(** [play] without looping, from index [idx], with one calm iteration
    for each frame that is left. *)
Lemma play_loop_once (frames : list string) (m : Z) (tks : list TP.tick) :
  forall (idx : Z) (self : TP.t F),
    TP.sleep_argument (TP.frame_duration self) = Ok tt ->
    0 <= idx -> tks <> [] ->
    Forall calm_tick tks ->
    idx + len tks = len frames ->
    TP.play_loop frames (len frames) false m idx tks self
    = (TP.Returns tt, sampled_through tks self,
       loop_events (TP.frame_duration self) m
                   (skipn (Z.to_nat idx) frames) tks).
Proof.
  induction tks as [| tk tks IH]; intros idx self Harg Hidx0 Hne Hcalm Hlen;
    [congruence |].
  inversion Hcalm as [| ? ? Htk Hrest]; subst.
  assert (0 <= idx < len frames) as Hidx
    by (unfold len in *; simpl List.length in Hlen; lia).
  destruct (getitem_nth frames idx EmptyString Hidx) as [Eget Eskip].
  rewrite (play_loop_step _ _ _ _ _ _ _ _ _ Harg Htk Eget).
  rewrite Eskip. cbn [loop_events sampled_through].
  destruct tks as [| tk' tks'].
  - replace (idx + 1 >=? len frames) with true
      by (symmetry; apply Z.geb_le; unfold len in *; simpl in Hlen; lia).
    cbn [TP.ret]. rewrite loop_events_nil_r. reflexivity.
  - replace (idx + 1 >=? len frames) with false
      by (symmetry; rewrite Z.geb_leb; apply Z.leb_gt;
          unfold len in *; simpl List.length in Hlen; lia).
    rewrite (IH (idx + 1) (sampled (TP.tick_probe tk) self));
      try assumption; try lia; try discriminate.
    + rewrite sampled_frame_duration. reflexivity.
    + rewrite sampled_frame_duration. exact Harg.
    + unfold len in *. simpl List.length in *. lia.
Qed.

(** A looping [play] from index [idx]: after any number of calm
    iterations it is still running, having shown the frames cyclically. *)
Lemma play_loop_forever (frames : list string) (m : Z) (tks : list TP.tick) :
  forall (idx : Z) (self : TP.t F),
    TP.sleep_argument (TP.frame_duration self) = Ok tt ->
    0 <= idx < len frames ->
    Forall calm_tick tks ->
    TP.play_loop frames (len frames) true m idx tks self
    = (TP.Running, sampled_through tks self,
       loop_events (TP.frame_duration self) m
                   (cycled frames idx (List.length tks)) tks).
Proof.
  induction tks as [| tk tks IH]; intros idx self Harg Hidx Hcalm;
    [reflexivity |].
  inversion Hcalm as [| ? ? Htk Hrest]; subst.
  destruct (getitem_nth frames idx EmptyString Hidx) as [Eget _].
  rewrite (play_loop_step _ _ _ _ _ _ _ _ _ Harg Htk Eget).
  set (next := if idx + 1 >=? len frames then 0 else idx + 1).
  assert (0 <= next < len frames) as Hnext
    by (unfold next; destruct (idx + 1 >=? len frames) eqn:E;
        [lia | rewrite Z.geb_leb in E; apply Z.leb_gt in E; lia]).
  assert ((if idx + 1 >=? len frames
           then TP.play_loop frames (len frames) true m 0 tks
           else TP.play_loop frames (len frames) true m (idx + 1) tks)
          = TP.play_loop frames (len frames) true m next tks) as ->
    by (unfold next; destruct (idx + 1 >=? len frames); reflexivity).
  rewrite (IH next _ ltac:(rewrite sampled_frame_duration; exact Harg)
              Hnext Hrest), sampled_frame_duration.
  cbn [sampled_through List.length]. f_equal.
  unfold cycled. cbn [seq map loop_events].
  rewrite <- seq_shift, map_map.
  replace ((idx + Z.of_nat 0) mod len frames) with idx
    by (rewrite Z.add_0_r, Z.mod_small; lia).
  f_equal. f_equal. apply map_ext. intros j. f_equal. f_equal.
  unfold next. destruct (idx + 1 >=? len frames) eqn:E.
  - apply Z.geb_le in E.
    replace (idx + Z.of_nat (S j)) with (Z.of_nat j + 1 * len frames) by lia.
    rewrite Z.mod_add by lia. reflexivity.
  - f_equal. lia.
Qed.

Lemma nonempty_len {A} (l : list A) : l <> [] -> (len l =? 0) = false.
Proof.
  intros Hne. apply Z.eqb_neq. destruct l; [congruence |].
  unfold len. simpl List.length. lia.
Qed.

(** Without looping and without interrupt, and with a frame duration
    that [time.sleep] accepts, [play] samples the terminal once, then
    shows every frame exactly once, in order, each clipped to the row
    count of that first sampling minus one and followed by a sleep of
    [frame_duration], and returns. *)
Theorem play_shows_each_frame_once
    (frames : list string) (w : TP.world) (self : TP.t F) :
  TP.sleep_argument (TP.frame_duration self) = Ok tt ->
  frames <> [] ->
  escapes (TP.start w) = None ->
  Forall calm_tick (TP.ticks w) ->
  List.length (TP.ticks w) = List.length frames ->
  TP.play frames false w self
  = (TP.Returns tt,
     sampled_through (TP.ticks w) (sampled (TP.start w) self),
     sampling_events (TP.start w)
       ++ loop_events (TP.frame_duration self)
                      (TP.terminal_height (sampled (TP.start w) self) - 1)
                      frames (TP.ticks w)).
Proof.
  intros Harg Hne Hesc Hcalm Hlen. unfold TP.play.
  rewrite (nonempty_len frames Hne).
  unfold TP.seq at 1. rewrite (sampled_spec _ self Hesc). rewrite seq_get.
  unfold TP.try_except.
  rewrite play_loop_once; try assumption; try lia.
  - rewrite sampled_frame_duration. reflexivity.
  - rewrite sampled_frame_duration. exact Harg.
  - intros E. rewrite E in Hlen. destruct frames; [congruence | discriminate].
  - unfold len. lia.
Qed.

(** With looping and without interrupt, and with a frame duration
    that [time.sleep] accepts, [play] does not return: after any number
    of iterations it is still running, and the k-th frame it has shown
    is the frame at index k modulo the frame count. *)
Theorem looping_play_cycles_without_returning
    (frames : list string) (w : TP.world) (self : TP.t F) :
  TP.sleep_argument (TP.frame_duration self) = Ok tt ->
  frames <> [] ->
  escapes (TP.start w) = None ->
  Forall calm_tick (TP.ticks w) ->
  TP.play frames true w self
  = (TP.Running,
     sampled_through (TP.ticks w) (sampled (TP.start w) self),
     sampling_events (TP.start w)
       ++ loop_events (TP.frame_duration self)
                      (TP.terminal_height (sampled (TP.start w) self) - 1)
                      (cycled frames 0 (List.length (TP.ticks w)))
                      (TP.ticks w)).
Proof.
  intros Harg Hne Hesc Hcalm. unfold TP.play.
  pose proof (nonempty_len frames Hne) as Hn. rewrite Hn.
  unfold TP.seq at 1. rewrite (sampled_spec _ self Hesc). rewrite seq_get.
  unfold TP.try_except.
  rewrite play_loop_forever; try assumption.
  - rewrite sampled_frame_duration. reflexivity.
  - rewrite sampled_frame_duration. exact Harg.
  - apply Z.eqb_neq in Hn. unfold len in *. lia.
Qed.

(** The loop of [play_with_progress] when every draw and sleep
    completes: the object is not touched and nothing is sampled. *)
Lemma progress_loop_quiet (m total : Z) (frames : list string) :
  forall (i : Z) (tks : list TP.tick) (self : TP.t F),
    TP.sleep_argument (TP.frame_duration self) = Ok tt ->
    Forall quiet_tick tks ->
    (List.length frames <= List.length tks)%nat ->
    TP.progress_loop frames i total m tks self
    = (TP.Returns tt, self, progress_events self m frames i total).
Proof.
  induction frames as [| frame frames IH]; intros i tks self Harg Hq Hlen;
    [reflexivity |].
  destruct tks as [| tk tks]; [simpl in Hlen; lia |].
  inversion Hq as [| ? ? [Hdraw Hsleep] Hrest]; subst.
  cbn [TP.progress_loop progress_events]. rewrite seq_get.
  rewrite Hdraw, seq_lift_ok.
  unfold TP.seq at 1, TP.emit at 1. unfold TP.seq at 1, TP.emit at 1.
  unfold TP.seq at 1, TP.emit at 1. unfold TP.seq at 1, TP.emit at 1.
  unfold TP.seq at 1, TP.sleep at 1.
  rewrite Harg, seq_lift_ok. unfold TP.seq at 1, TP.emit at 1.
  rewrite Hsleep. cbn [TP.lift app].
  rewrite (IH (i + 1) tks self Harg Hrest) by (simpl in Hlen; lia).
  reflexivity.
Qed.

(** Without interrupt, and with a frame duration that [time.sleep]
    accepts, [play_with_progress] samples the terminal once and never
    again, then shows every frame exactly once, in order, under a
    status line "Frame i/n | Terminal: WxH" that carries the size of
    that first sampling, clipped to its row count minus two, and
    returns. *)
Theorem play_with_progress_shows_each_frame_once
    (frames : list string) (w : TP.world) (self : TP.t F) :
  TP.sleep_argument (TP.frame_duration self) = Ok tt ->
  frames <> [] ->
  escapes (TP.start w) = None ->
  Forall quiet_tick (TP.ticks w) ->
  (List.length frames <= List.length (TP.ticks w))%nat ->
  TP.play_with_progress frames w self
  = (TP.Returns tt, sampled (TP.start w) self,
     sampling_events (TP.start w)
       ++ progress_events (sampled (TP.start w) self)
                          (TP.terminal_height (sampled (TP.start w) self) - 2)
                          frames 0 (len frames)).
Proof.
  intros Harg Hne Hesc Hq Hlen. unfold TP.play_with_progress.
  rewrite (nonempty_len frames Hne).
  unfold TP.seq at 1. rewrite (sampled_spec _ self Hesc). rewrite seq_get.
  unfold TP.try_except.
  rewrite progress_loop_quiet; try assumption; [reflexivity |].
  rewrite sampled_frame_duration. exact Harg.
Qed.

(** Whatever raises [KeyboardInterrupt] inside the loop of
    [play_with_progress], the method returns normally, and the only
    event after the interrupt is the notice. *)
Theorem interrupt_in_progress_loop_is_absorbed
    (frames : list string) (w : TP.world)
    (self self2 : TP.t F) (tr2 : list (TP.event F)) :
  frames <> [] ->
  escapes (TP.start w) = None ->
  TP.progress_loop frames 0 (len frames)
                   (TP.terminal_height (sampled (TP.start w) self) - 2)
                   (TP.ticks w) (sampled (TP.start w) self)
  = (TP.Raises KeyboardInterrupt, self2, tr2) ->
  TP.play_with_progress frames w self
  = (TP.Returns tt, self2,
     sampling_events (TP.start w) ++ tr2 ++ [TP.Print TP.STOPPED]).
Proof.
  intros Hne Hesc Eloop. unfold TP.play_with_progress.
  rewrite (nonempty_len frames Hne).
  unfold TP.seq at 1. rewrite (sampled_spec _ self Hesc). rewrite seq_get.
  unfold TP.try_except. rewrite Eloop. reflexivity.
Qed.

(** An empty frame sequence: both playback methods print their notice
    and return, without sampling the terminal, drawing or sleeping,
    whatever the environment. *)
Theorem empty_sequence_is_only_reported
    (loop : bool) (w : TP.world) (self : TP.t F) :
  TP.play [] loop w self
  = (TP.Returns tt, self, [TP.Print "No frames to play"]) /\
  TP.play_with_progress [] w self
  = (TP.Returns tt, self, [TP.Print "No frames to play"]).
Proof. split; reflexivity. Qed.

End CalmPlayback.

Lemma play_shows_each_frame_once_witness :
  TP.play ["A"; "B"] false
          {| TP.start := sized 80 24;
             TP.ticks := [calm (sized 80 3); calm (sized 100 30)] |}
          player0
  = (TP.Returns tt,
     sampled_through [calm (sized 80 3); calm (sized 100 30)]
                     (sampled (sized 80 24) player0),
     sampling_events (sized 80 24)
       ++ loop_events (TP.frame_duration player0)
                      (TP.terminal_height (sampled (sized 80 24) player0) - 1)
                      ["A"; "B"]
                      [calm (sized 80 3); calm (sized 100 30)]).
Proof.
  apply (play_shows_each_frame_once
           ["A"; "B"]
           {| TP.start := sized 80 24;
              TP.ticks := [calm (sized 80 3); calm (sized 100 30)] |}
           player0).
  - vm_compute. reflexivity.
  - discriminate.
  - reflexivity.
  - repeat constructor.
  - reflexivity.
Defined.

Lemma looping_play_cycles_without_returning_witness :
  TP.play ["A"; "B"] true
          {| TP.start := sized 80 24;
             TP.ticks := [calm (sized 80 24); calm (sized 80 24);
                          calm (sized 80 24)] |}
          player0
  = (TP.Running,
     sampled_through [calm (sized 80 24); calm (sized 80 24);
                      calm (sized 80 24)]
                     (sampled (sized 80 24) player0),
     sampling_events (sized 80 24)
       ++ loop_events (TP.frame_duration player0)
                      (TP.terminal_height (sampled (sized 80 24) player0) - 1)
                      (cycled ["A"; "B"] 0 3)
                      [calm (sized 80 24); calm (sized 80 24);
                       calm (sized 80 24)]).
Proof.
  apply (looping_play_cycles_without_returning
           ["A"; "B"]
           {| TP.start := sized 80 24;
              TP.ticks := [calm (sized 80 24); calm (sized 80 24);
                           calm (sized 80 24)] |}
           player0).
  - vm_compute. reflexivity.
  - discriminate.
  - reflexivity.
  - repeat constructor.
Defined.

Lemma play_with_progress_shows_each_frame_once_witness :
  TP.play_with_progress ["A"; "B"]
          {| TP.start := sized 80 24;
             TP.ticks := [calm (sized 80 3); calm (sized 80 3)] |}
          player0
  = (TP.Returns tt, sampled (sized 80 24) player0,
     sampling_events (sized 80 24)
       ++ progress_events (sampled (sized 80 24) player0)
                          (TP.terminal_height (sampled (sized 80 24) player0)
                           - 2)
                          ["A"; "B"] 0 (len ["A"; "B"])).
Proof.
  apply (play_with_progress_shows_each_frame_once
           ["A"; "B"]
           {| TP.start := sized 80 24;
              TP.ticks := [calm (sized 80 3); calm (sized 80 3)] |}
           player0).
  - vm_compute. reflexivity.
  - discriminate.
  - reflexivity.
  - repeat constructor.
  - simpl. lia.
Defined.

Lemma interrupt_in_progress_loop_is_absorbed_witness :
  TP.play_with_progress ["A"; "B"]
          {| TP.start := sized 80 24;
             TP.ticks := [interrupted_in_sleep; calm (sized 80 24)] |}
          player0
  = (TP.Returns tt, player0,
     sampling_events (sized 80 24)
       ++ [TP.Write TP.CLEAR;
           TP.Write (TP.progress_line 0 2 player0
                       ++ String NL EmptyString)%string;
           TP.Write "A"; TP.Flush; TP.Sleep (TP.frame_duration player0)]
       ++ [TP.Print TP.STOPPED]).
Proof.
  apply (interrupt_in_progress_loop_is_absorbed
           ["A"; "B"]
           {| TP.start := sized 80 24;
              TP.ticks := [interrupted_in_sleep; calm (sized 80 24)] |}
           player0 player0).
  - discriminate.
  - reflexivity.
  - reflexivity.
Defined.

(* ================================================================= *)
(** ** What [render_frame] writes *)

Section Clipping.

Lemma split_nonempty (sep : ascii) (s : string) : split sep s <> [].
Proof.
  destruct s as [| a s]; simpl; [discriminate |].
  destruct (Ascii.eqb a sep); [discriminate |].
  destruct (split sep s); discriminate.
Qed.

(** ['\n'.join(s.split('\n')) == s]. *)
Lemma join_split (s : string) :
  join (String NL EmptyString) (split NL s) = s.
Proof.
  induction s as [| a s IH]; [reflexivity |]. simpl split.
  destruct (Ascii.eqb a NL) eqn:Ea.
  - apply Ascii.eqb_eq in Ea. subst a.
    pose proof (split_nonempty NL s) as Hne.
    destruct (split NL s) as [| h t]; [congruence |].
    change (join (String NL EmptyString) (EmptyString :: h :: t))
      with (String NL (join (String NL EmptyString) (h :: t))).
    now rewrite IH.
  - pose proof (split_nonempty NL s) as Hne.
    destruct (split NL s) as [| h t]; [congruence |].
    destruct t as [| h' t'].
    + simpl in IH. simpl. now rewrite IH.
    + change (join (String NL EmptyString) (String a h :: h' :: t'))
        with (String a (join (String NL EmptyString) (h :: h' :: t'))).
      now rewrite IH.
Qed.

(** The lines [render_frame] keeps under a bound. *)
Lemma kept_lines (b : Z) (lines : list string) :
  let kept := if len lines >? b then slice_to lines b else lines in
  (exists rest, lines = kept ++ rest) /\
  (0 <= b -> len kept <= b) /\
  (len lines <= b -> kept = lines) /\
  (b < 0 -> len kept = Z.max 0 (len lines + b)).
Proof.
  cbv zeta. unfold slice_to, len.
  destruct (Z.of_nat (List.length lines) >? b) eqn:Egt.
  - apply Z.gtb_lt in Egt.
    destruct (b <? 0) eqn:Eneg;
      [apply Z.ltb_lt in Eneg | apply Z.ltb_ge in Eneg].
    + repeat split; try lia.
      * eexists. symmetry. apply firstn_skipn.
      * intros _. rewrite length_firstn. lia.
    + repeat split; try lia.
      * eexists. symmetry. apply firstn_skipn.
      * intros _. rewrite length_firstn. lia.
  - rewrite Z.gtb_ltb in Egt. apply Z.ltb_ge in Egt.
    repeat split; try lia.
    exists []. now rewrite app_nil_r.
Qed.

(** One uninterrupted call of [render_frame] writes a prefix of the
    frame's lines: at most [bound] of them when the bound is not
    negative, the frame itself, byte for byte, when it has no more
    lines than the bound, and all but the last [-bound] lines when the
    bound is negative (a terminal reporting 0 rows gives the bound
    -1).  The bound is the caller's, or the freshly sampled row count
    minus one when the caller gives none. *)
Theorem render_frame_writes_a_prefix {F} `{PyFloat F}
    (frame : string) (max_lines : option Z) (tk : TP.tick) (self : TP.t F) :
  escapes (TP.tick_probe tk) = None ->
  TP.tick_draw tk = Ok tt ->
  exists kept,
    let self' := sampled (TP.tick_probe tk) self in
    let bound := match max_lines with
                 | Some m => m
                 | None => TP.terminal_height self' - 1
                 end in
    TP.render_frame frame max_lines tk self
    = (TP.Returns tt, self',
       sampling_events (TP.tick_probe tk)
         ++ [TP.Write TP.CLEAR;
             TP.Write (join (String NL EmptyString) kept);
             TP.Flush]) /\
    (exists rest, split NL frame = kept ++ rest) /\
    (0 <= bound -> len kept <= bound) /\
    (len (split NL frame) <= bound ->
     join (String NL EmptyString) kept = frame) /\
    (bound < 0 -> len kept = Z.max 0 (len (split NL frame) + bound)).
Proof.
  intros Hesc Hdraw.
  destruct (render_frame_spec frame max_lines tk self Hesc Hdraw)
    as (self' & Eup & Erender).
  rewrite (sampled_spec _ self Hesc) in Eup. injection Eup as <-.
  set (bound := match max_lines with
                | Some m => m
                | None => TP.terminal_height
                            (sampled (TP.tick_probe tk) self) - 1
                end) in *.
  destruct (kept_lines bound (split NL frame)) as (Hpre & Hle & Hall & Hneg).
  eexists. cbv zeta. fold bound.
  split; [exact Erender |].
  split; [exact Hpre |]. split; [exact Hle |]. split; [| exact Hneg].
  intros Hfit. rewrite (Hall Hfit). apply join_split.
Qed.

Lemma render_frame_writes_a_prefix_witness :
  exists kept,
    let self' := sampled (sized 80 3) player0 in
    let bound := TP.terminal_height self' - 1 in
    TP.render_frame five_lines None (calm (sized 80 3)) player0
    = (TP.Returns tt, self',
       sampling_events (sized 80 3)
         ++ [TP.Write TP.CLEAR;
             TP.Write (join (String NL EmptyString) kept);
             TP.Flush]) /\
    (exists rest, split NL five_lines = kept ++ rest) /\
    (0 <= bound -> len kept <= bound) /\
    (len (split NL five_lines) <= bound ->
     join (String NL EmptyString) kept = five_lines) /\
    (bound < 0 -> len kept = Z.max 0 (len (split NL five_lines) + bound)).
Proof.
  apply (render_frame_writes_a_prefix
           five_lines None (calm (sized 80 3)) player0); reflexivity.
Defined.

End Clipping.

(* ================================================================= *)
(** ** The frame rate: [__init__] and [set_fps] *)

Section FrameRate.

(** The constructor stores the rate it is given, unclamped.  A rate
    equal to zero raises [ZeroDivisionError] before the terminal is
    asked anything.  Otherwise the frame interval is 1.0 / fps and the
    terminal is sampled once; when no source reports a size (the
    direct query finds no terminal or fails with an error that is
    caught, and the commands report nothing) the size is 80x24. *)
Theorem constructor_keeps_rate_and_defaults_size {F} `{PyFloat F}
    (fps : F) (p : TP.probe) :
  (feqb fps (of_int 0) = true ->
   TP.__init__ fps p = (TP.Raises ZeroDivisionError, [])) /\
  (feqb fps (of_int 0) = false -> escapes p = None ->
   exists self,
     TP.__init__ fps p = (TP.Returns self, sampling_events p) /\
     TP.fps self = fps /\
     TP.frame_duration self = fdiv (of_dec 1.0) fps /\
     (external_size p = None ->
      (forall c l,
          TP.shutil_size p = Ok (Some (c, l)) ->
          (TP.terminal_width self, TP.terminal_height self) = (c, l)) /\
      (TP.shutil_size p = Ok None \/ (exists e, TP.shutil_size p = Raise e) ->
       (TP.terminal_width self, TP.terminal_height self) = (80, 24)))).
Proof.
  split.
  - intros Hz. unfold TP.__init__, float_truediv. rewrite Hz. reflexivity.
  - intros Hz Hesc. unfold TP.__init__, float_truediv. rewrite Hz.
    rewrite update_terminal_size_spec, Hesc. eexists.
    split; [reflexivity |].
    destruct (external_size p) as [[rows cols] |] eqn:Eext.
    + repeat split; intros; discriminate.
    + unfold direct_size. cbn [TP.terminal_width TP.terminal_height].
      repeat split.
      * intros c l E. rewrite E. reflexivity.
      * intros [E | [e E]]; rewrite E; reflexivity.
Qed.

Lemma constructor_keeps_rate_and_defaults_size_witness :
  TP.__init__ (of_int 0 : float) (sized 80 24)
  = (TP.Raises ZeroDivisionError, []).
Proof.
  apply (proj1 (constructor_keeps_rate_and_defaults_size
                  (of_int 0 : float) (sized 80 24))).
  reflexivity.
Defined.

(** [time.sleep] accepts every finite duration from 0 to 2^30
    seconds. *)
Lemma sleep_argument_accepts (d : float) :
  finite d -> (0 <= B2Q d <= pow2 30)%Q ->
  TP.sleep_argument d = Ok tt.
Proof.
  intros Fd Bd. unfold TP.sleep_argument.
  change (feqb d d) with (PrimFloat.eqb d d).
  assert ((d =? d)%float = true) as -> by (apply eqb_finite; [| | reflexivity]; assumption).
  cbn [negb].
  destruct (of_int_pos 1000000000 ltac:(lia)) as (Fg & Vg & Pg).
  assert (B2Q d * B2Q (of_int (F:=float) 1000000000) <= pow2 60)%Q as Ub.
  { rewrite Vg.
    assert (inject_Z 1000000000 <= pow2 30)%Q by (vm_compute; discriminate).
    assert (pow2 60 == pow2 30 * pow2 30)%Q as -> by reflexivity.
    pose proof (pow2_pos 30). nra. }
  destruct (mul_nonneg d (of_int 1000000000) (pow2 60)) as [Fn Vn];
    try assumption; try tauto; try lra;
    [apply representable_pow2; lia |].
  change (fmul d (of_int 1000000000))
    with (d * of_int 1000000000)%float.
  set (ns := (d * of_int 1000000000)%float) in *.
  assert (0 <= B2Q ns <= pow2 60)%Q as Bn.
  { rewrite Vn. split; [apply RN0_nonneg |].
    apply RN0_le_representable; [exact Ub | apply representable_pow2; lia]. }
  assert (finite (of_int (F:=float) (- 2 ^ 63)) /\
          (B2Q (of_int (F:=float) (- 2 ^ 63)) == - pow2 63)%Q) as [Flo Vlo]
    by (split; vm_compute; reflexivity).
  assert (finite (of_int (F:=float) (2 ^ 63)) /\
          (B2Q (of_int (F:=float) (2 ^ 63)) == pow2 63)%Q) as [Fhi Vhi]
    by (split; vm_compute; reflexivity).
  destruct of_int_zero as [F0 V0].
  assert (pow2 60 < pow2 63)%Q as Lt by reflexivity.
  pose proof (pow2_pos 63) as P63.
  change (flt ns (of_int (- 2 ^ 63))) with (ns <? of_int (- 2 ^ 63))%float.
  change (flt ns (of_int (2 ^ 63))) with (ns <? of_int (2 ^ 63))%float.
  change (flt ns (of_int 0)) with (ns <? of_int 0)%float.
  assert ((ns <? of_int (- 2 ^ 63))%float = false) as ->.
  { apply not_true_is_false. intros C.
    apply (ltb_finite _ _ Fn Flo) in C. rewrite Vlo in C. lra. }
  assert ((ns <? of_int (2 ^ 63))%float = true) as ->.
  { apply (ltb_finite _ _ Fn Fhi). rewrite Vhi. lra. }
  assert ((ns <? of_int 0)%float = false) as ->.
  { apply not_true_is_false. intros C.
    apply (ltb_finite _ _ Fn F0) in C. rewrite V0 in C. lra. }
  reflexivity.
Qed.



Local Open Scope float_scope.

Lemma one_below_is_not_zero (x : float) :
  (1 <? x) = true -> (x =? 0) = false.
Proof.
  rewrite FloatAxioms.ltb_spec, FloatAxioms.eqb_spec.
  destruct (Prim2SF x) as [s | s | | s m e]; vm_compute;
    try discriminate; try reflexivity; destruct s; congruence.
Qed.

(** In binary64 [set_fps] never fails either, whatever float it is
    given: the stored rate is the argument, 1.0 or 60.0, never zero,
    so the division is defined.  A NaN argument is stored as 1.0. *)
Theorem set_fps_never_raises (x : float) (self : TP.t float) :
  exists self',
    TP.set_fps x self = (TP.Returns tt, self', []) /\
    (TP.fps self' = x \/ TP.fps self' = 1 \/ TP.fps self' = 60) /\
    (TP.fps self' =? 0) = false /\
    TP.frame_duration self' = 1 / TP.fps self' /\
    (Prim2SF x = S754_nan -> TP.fps self' = 1).
Proof.
  unfold TP.set_fps, float_truediv, py_max, py_min.
  cbn [flt binary64_ord feqb fdiv of_int of_dec binary64].
  replace (Binary64.of_Z (Qnum 1.0) / Binary64.of_Z (Z.pos (Qden 1.0)))
    with 1 by (vm_compute; reflexivity).
  replace (Binary64.of_Z (Qnum 60.0) / Binary64.of_Z (Z.pos (Qden 60.0)))
    with 60 by (vm_compute; reflexivity).
  replace (Binary64.of_Z 0) with 0 by (vm_compute; reflexivity).
  destruct (60 <? x) eqn:E60.
  - replace (1 <? 60) with true by (vm_compute; reflexivity).
    replace (60 =? 0) with false by (vm_compute; reflexivity).
    eexists. split; [reflexivity |]. cbn [TP.fps TP.frame_duration].
    repeat split; auto.
    intros Hnan. rewrite FloatAxioms.ltb_spec, Hnan in E60.
    vm_compute in E60. discriminate.
  - destruct (1 <? x) eqn:E1.
    + rewrite (one_below_is_not_zero x E1).
      eexists. split; [reflexivity |]. cbn [TP.fps TP.frame_duration].
      repeat split; auto.
      * apply one_below_is_not_zero, E1.
      * intros Hnan. rewrite FloatAxioms.ltb_spec, Hnan in E1.
        vm_compute in E1. discriminate.
    + replace (1 =? 0) with false by (vm_compute; reflexivity).
      eexists. split; [reflexivity |]. cbn [TP.fps TP.frame_duration].
      repeat split; auto.
Qed.

End FrameRate.

(* ================================================================= *)
(** ** Frame intervals that [time.sleep] accepts or refuses *)

Section RefusedDuration.
Context {F : Type} `{PyFloat F} `{PyFloatOrd F}.

(** When [time.sleep] refuses the frame duration, [play] samples the
    terminal, draws the first frame and raises the error of the sleep:
    the handler of the loop only catches [KeyboardInterrupt]. *)
Theorem refused_duration_stops_play_after_one_frame
    (frame : string) (rest : list string) (loop : bool) (w : TP.world)
    (tk : TP.tick) (tks : list TP.tick) (self : TP.t F) (e : exn) :
  TP.sleep_argument (TP.frame_duration self) = Raise e ->
  escapes (TP.start w) = None ->
  TP.ticks w = tk :: tks ->
  escapes (TP.tick_probe tk) = None -> TP.tick_draw tk = Ok tt ->
  (e = ValueError \/ e = OverflowError) /\
  TP.play (frame :: rest) loop w self
  = (TP.Raises e, sampled (TP.tick_probe tk) (sampled (TP.start w) self),
     sampling_events (TP.start w)
       ++ sampling_events (TP.tick_probe tk)
       ++ [TP.Write TP.CLEAR;
           TP.Write (clipped
                       (TP.terminal_height (sampled (TP.start w) self) - 1)
                       frame);
           TP.Flush]).
Proof.
  intros Harg Hesc Hticks Hesc1 Hdraw.
  assert (e = ValueError \/ e = OverflowError) as He.
  { revert Harg. unfold TP.sleep_argument.
    destruct (negb _); [intros E; injection E as <-; now left |].
    destruct (_ || _); [intros E; injection E as <-; now right |].
    destruct (flt _ _); [intros E; injection E as <-; now left |].
    discriminate. }
  split; [exact He |].
  unfold TP.play. rewrite (nonempty_len (frame :: rest)) by discriminate.
  unfold TP.seq at 1. rewrite (sampled_spec _ self Hesc). rewrite seq_get.
  rewrite Hticks. unfold TP.try_except.
  assert (TP.frame_duration
            (sampled (TP.tick_probe tk) (sampled (TP.start w) self))
          = TP.frame_duration self) as Efd
    by (now rewrite !sampled_frame_duration).
  cbn [TP.play_loop].
  assert (getitem (frame :: rest) 0 = Ok frame) as -> by reflexivity.
  rewrite seq_lift_ok.
  destruct (render_frame_spec frame
              (Some (TP.terminal_height (sampled (TP.start w) self) - 1))
              tk (sampled (TP.start w) self) Hesc1 Hdraw)
    as (s1 & Eup & Erender).
  rewrite (sampled_spec _ _ Hesc1) in Eup. injection Eup as <-.
  unfold TP.seq at 1. rewrite Erender. rewrite seq_get.
  unfold TP.seq at 1. unfold TP.sleep at 1.
  rewrite Efd, Harg, seq_lift_raise.
  destruct He as [-> | ->]; cbn [app]; unfold sampling_events;
    rewrite <- !app_assoc; reflexivity.
Qed.

End RefusedDuration.

Lemma refused_duration_stops_play_after_one_frame_witness :
  let late := {| TP.fps := of_dec (-5);
                 TP.frame_duration := fdiv (of_dec 1.0) (of_dec (-5));
                 TP.terminal_width := 80;
                 TP.terminal_height := 24 |} : TP.t float in
  let w := {| TP.start := sized 80 24;
              TP.ticks := [calm (sized 80 24); calm (sized 80 24)] |} in
  (ValueError = ValueError \/ ValueError = OverflowError) /\
  TP.play ["A"; "B"] false w late
  = (TP.Raises ValueError,
     sampled (sized 80 24) (sampled (sized 80 24) late),
     sampling_events (sized 80 24)
       ++ sampling_events (sized 80 24)
       ++ [TP.Write TP.CLEAR;
           TP.Write (clipped
                       (TP.terminal_height (sampled (sized 80 24) late) - 1)
                       "A");
           TP.Flush]).
Proof.
  intros late w.
  apply (refused_duration_stops_play_after_one_frame
           "A" ["B"] false w (calm (sized 80 24)) [calm (sized 80 24)]
           late ValueError).
  - vm_compute. reflexivity.
  - reflexivity.
  - reflexivity.
  - reflexivity.
  - reflexivity.
Defined.

Section AcceptedRate.

(** A player constructed with a finite rate of at least 2^-30 frames
    per second has a frame interval that [time.sleep] accepts. *)
Theorem constructed_rate_is_accepted_by_sleep
    (fps : float) (p : TP.probe) (self : TP.t float)
    (tr : list (TP.event float)) :
  finite fps -> (pow2 (-30) <= B2Q fps)%Q ->
  TP.__init__ fps p = (TP.Returns self, tr) ->
  TP.frame_duration self = (of_dec 1.0 / fps)%float /\
  finite (TP.frame_duration self) /\
  (0 <= B2Q (TP.frame_duration self) <= pow2 30)%Q /\
  TP.sleep_argument (TP.frame_duration self) = Ok tt.
Proof.
  intros Ff Bf Einit.
  assert (TP.frame_duration self = (of_dec 1.0 / fps)%float) as Ed.
  { revert Einit. unfold TP.__init__, float_truediv.
    destruct (feqb fps (of_int 0)); [discriminate |].
    set (s0 := {| TP.fps := fps; TP.frame_duration := fdiv (of_dec 1.0) fps;
                  TP.terminal_width := 80; TP.terminal_height := 24 |}).
    pose proof (sampled_frame_duration p s0) as Es. unfold sampled in Es.
    destruct (TP._update_terminal_size p s0) as [[[[] | e |] s1] tr1];
      try discriminate.
    intros E. injection E as <- _. exact Es. }
  assert (finite (of_dec (F:=float) 1.0) /\
          (B2Q (of_dec (F:=float) 1.0) == 1)%Q) as [F1 V1]
    by (split; vm_compute; reflexivity).
  assert (0 < B2Q fps)%Q as Pf by (pose proof (pow2_pos (-30)); lra).
  assert (B2Q (of_dec (F:=float) 1.0) / B2Q fps <= pow2 30)%Q as Uq.
  { rewrite V1. apply Qle_shift_div_r; [exact Pf |].
    assert (pow2 30 * pow2 (-30) == 1)%Q by reflexivity.
    pose proof (pow2_pos 30). nra. }
  destruct (div_nonneg (of_dec 1.0) fps (pow2 30)) as [Fd Vd];
    try assumption; [rewrite V1; lra | apply representable_pow2; lia |].
  assert (0 <= B2Q (of_dec 1.0 / fps)%float <= pow2 30)%Q as Bd.
  { rewrite Vd. split; [apply RN0_nonneg |].
    apply RN0_le_representable; [exact Uq | apply representable_pow2; lia]. }
  rewrite Ed. split; [reflexivity | split; [exact Fd | split; [exact Bd |]]].
  now apply sleep_argument_accepts.
Qed.

Lemma constructed_rate_is_accepted_by_sleep_witness :
  TP.frame_duration (with_size player0 80 24)
  = (of_dec 1.0 / of_dec 30)%float /\
  finite (TP.frame_duration (with_size player0 80 24)) /\
  (0 <= B2Q (TP.frame_duration (with_size player0 80 24)) <= pow2 30)%Q /\
  TP.sleep_argument (TP.frame_duration (with_size player0 80 24)) = Ok tt.
Proof.
  apply (constructed_rate_is_accepted_by_sleep
           (of_dec 30) (sized 80 24) (with_size player0 80 24)
           [TP.Query TP.Shutil; TP.Query TP.Stty; TP.Query TP.Tput]).
  - vm_compute. reflexivity.
  - vm_compute. discriminate.
  - vm_compute. reflexivity.
Defined.

End AcceptedRate.

(* ================================================================= *)
(** ** The characters of a converted frame *)

Section Alphabet.
Context {F : Type} `{PyFloat F}.

Lemma getitem_In {A} (l : list A) (i : Z) (a : A) :
  getitem l i = Ok a -> In a l.
Proof.
  unfold getitem. destruct (_ <? 0); [discriminate |].
  destruct (nth_error l _) eqn:E; [| discriminate].
  intros Ea. injection Ea as <-. eapply nth_error_In, E.
Qed.

Lemma pixel_to_char_in_ramp (self : AC.t F) (v : F) (ch : ascii) :
  AC._pixel_to_char self v = Ok ch ->
  In ch (list_ascii_of_string (AC.charset self)).
Proof.
  unfold AC._pixel_to_char.
  destruct (AC.char_index self v) as [i |]; simpl; [| discriminate].
  apply getitem_In.
Qed.

(** Whatever the float arithmetic, the contrast and the picture: when
    a conversion returns, its result is lines joined by newlines, and
    every character of every line is a character of the ramp. *)
Theorem converted_frame_uses_only_ramp_glyphs
    (self : AC.t F) (frame : PIL.Image) (width : Z) (text : string) :
  AC.convert_frame self frame width = Ok text ->
  exists lines,
    text = join (String NL EmptyString) lines /\
    Forall (fun line =>
              Forall (fun ch => In ch (list_ascii_of_string (AC.charset self)))
                     (list_ascii_of_string line))
           lines /\
    AC.convert_image self frame width = Ok text.
Proof.
  unfold AC.convert_frame, AC.convert_image.
  destruct (AC.target_height frame width) as [h |]; simpl; [| discriminate].
  destruct (PIL.resize_gray frame width h) as [pixels |]; simpl;
    [| discriminate].
  unfold AC.to_lines.
  destruct (mapM _ (AC.apply_contrast self pixels)) as [lines |] eqn:E;
    simpl; [| discriminate].
  intros Et. injection Et as <-. exists lines.
  split; [reflexivity | split; [| reflexivity]].
  apply mapM_Forall2 in E.
  induction E as [| row line rows lines Hrow _ IH]; constructor;
    [| exact IH].
  destruct (mapM (AC._pixel_to_char self) row) as [cs |] eqn:Ecs;
    simpl in Hrow; [| discriminate].
  injection Hrow as <-. rewrite list_ascii_of_string_of_list_ascii.
  apply mapM_Forall2 in Ecs.
  induction Ecs as [| v ch vs cs Hv _ IHcs]; constructor; [| exact IHcs].
  eapply pixel_to_char_in_ramp, Hv.
Qed.

End Alphabet.

Lemma converted_frame_uses_only_ramp_glyphs_witness :
  exists lines,
    " @+" = join (String NL EmptyString) lines /\
    Forall (fun line =>
              Forall (fun ch =>
                        In ch (list_ascii_of_string
                                 (AC.charset
                                    (AC.__init__ None (of_dec 1.0 : float)))))
                     (list_ascii_of_string line))
           lines /\
    AC.convert_image (AC.__init__ None (of_dec 1.0 : float))
                     (fixed_image 3 2 [[0; 255; 128]]) 3 = Ok " @+".
Proof.
  apply (converted_frame_uses_only_ramp_glyphs
           (AC.__init__ None (of_dec 1.0 : float))
           (fixed_image 3 2 [[0; 255; 128]]) 3 " @+").
  vm_compute. reflexivity.
Defined.

Section LookupBinary64.

(** In binary64, whatever the constructor is given, the glyph lookup of
    every double in [0, 255] returns a character, and that character
    belongs to the stored ramp. *)
Theorem lookup_returns_a_glyph_of_the_ramp
    (charset : option string) (contrast : float) (v : float) :
  str_len (AC.charset (AC.__init__ charset contrast)) < 2 ^ 63 ->
  (of_int 0 <=? v)%float = true -> (v <=? of_int 255)%float = true ->
  exists ch,
    AC._pixel_to_char (AC.__init__ charset contrast) v = Ok ch /\
    In ch (list_ascii_of_string
             (AC.charset (AC.__init__ charset contrast))).
Proof.
  intros HN L U.
  destruct (of_int_sample 0 ltac:(lia)) as [F0 V0].
  destruct (of_int_sample 255 ltac:(lia)) as [F255 V255].
  destruct (leb_between _ _ _ F0 F255 L U) as [Fv Bv].
  rewrite V0, V255 in Bv.
  destruct (pixel_to_char_binary64 (AC.__init__ charset contrast) v)
    as [ch E].
  - split; [apply init_charset_nonempty | exact HN].
  - split; [exact Fv | exact Bv].
  - exists ch. split; [exact E |].
    exact (pixel_to_char_in_ramp _ _ _ E).
Qed.

Lemma lookup_returns_a_glyph_of_the_ramp_witness :
  exists ch,
    AC._pixel_to_char (AC.__init__ (Some "ab") (of_dec 1.0 : float))
                      (of_dec 200.5) = Ok ch /\
    In ch (list_ascii_of_string
             (AC.charset (AC.__init__ (Some "ab") (of_dec 1.0 : float)))).
Proof.
  apply (lookup_returns_a_glyph_of_the_ramp
           (Some "ab") (of_dec 1.0 : float) (of_dec 200.5));
    vm_compute; reflexivity.
Defined.

(** The glyph index of a [uint8] sample, in integers. *)
Lemma char_index_of_sample_in_integers (self : AC.t float) (p : Z) :
  1 <= str_len (AC.charset self) < 2 ^ 45 -> 0 <= p <= 255 ->
  AC.char_index self (of_int p)
  = Ok (Z.min (p * str_len (AC.charset self) / 256)
              (str_len (AC.charset self) - 1)).
Proof.
  intros HN Hp. rewrite (char_index_of_sample self p HN Hp).
  f_equal. f_equal.
  assert (inject_Z p / 256 * inject_Z (str_len (AC.charset self))
          == inject_Z (p * str_len (AC.charset self)) / inject_Z 256)%Q as E
    by (rewrite inject_Z_mult; change (inject_Z 256) with 256%Q; field).
  rewrite (Qfloor_comp _ _ E). symmetry. apply Zdiv_Qdiv.
Qed.

(** Which glyphs 8-bit samples reach, in binary64 (ramps shorter than
    2^45).  A black sample always gets the first glyph.  On a ramp of
    up to 256 glyphs a white sample gets the last one and every glyph
    of the ramp is the glyph of some sample; on a longer ramp no sample
    ever gets the last glyph. *)
Theorem samples_cover_ramps_in_binary64 (self : AC.t float) :
  1 <= str_len (AC.charset self) < 2 ^ 45 ->
  AC.char_index self (of_int 0) = Ok 0 /\
  (str_len (AC.charset self) <= 256 ->
   AC.char_index self (of_int 255) = Ok (str_len (AC.charset self) - 1) /\
   forall i, 0 <= i < str_len (AC.charset self) ->
             exists p, 0 <= p <= 255 /\
                       AC.char_index self (of_int p) = Ok i) /\
  (256 < str_len (AC.charset self) ->
   forall p, 0 <= p <= 255 ->
             exists i, AC.char_index self (of_int p) = Ok i /\
                       i < str_len (AC.charset self) - 1).
Proof.
  intros HN. set (N := str_len (AC.charset self)) in *.
  split; [| split].
  - rewrite char_index_of_sample_in_integers by (fold N; lia). fold N.
    f_equal. rewrite Z.mul_0_l, Z.div_0_l by lia. lia.
  - intros Hsmall. split.
    + rewrite char_index_of_sample_in_integers by (fold N; lia). fold N.
      f_equal.
      assert (N - 1 <= 255 * N / 256) by (apply Z.div_le_lower_bound; lia).
      lia.
    + intros i Hi.
      set (p := (256 * i + N - 1) / N).
      assert (N * p <= 256 * i + N - 1) as Hle by (apply Z.mul_div_le; lia).
      assert (256 * i + N - 1 < N * Z.succ p) as Hgt
        by (apply Z.mul_succ_div_gt; lia).
      assert (0 <= p) as Hp0 by (apply Z.div_pos; lia).
      assert (p <= 255) as Hp255 by nia.
      exists p. split; [lia |].
      rewrite char_index_of_sample_in_integers by (fold N; lia). fold N.
      f_equal.
      assert (i <= p * N / 256) by (apply Z.div_le_lower_bound; nia).
      assert (p * N / 256 < i + 1) by (apply Z.div_lt_upper_bound; nia).
      lia.
  - intros Hbig p Hp.
    rewrite char_index_of_sample_in_integers by (fold N; lia). fold N.
    eexists. split; [reflexivity |].
    assert (p * N / 256 < N - 1) by (apply Z.div_lt_upper_bound; nia).
    lia.
Qed.

Lemma samples_cover_ramps_in_binary64_witness :
  AC.char_index (AC.__init__ None (of_dec 1.0 : float)) (of_int 0) = Ok 0 /\
  (str_len (AC.charset (AC.__init__ None (of_dec 1.0 : float))) <= 256 ->
   AC.char_index (AC.__init__ None (of_dec 1.0 : float)) (of_int 255)
   = Ok (str_len (AC.charset (AC.__init__ None (of_dec 1.0 : float))) - 1) /\
   forall i,
     0 <= i < str_len (AC.charset (AC.__init__ None (of_dec 1.0 : float))) ->
     exists p, 0 <= p <= 255 /\
               AC.char_index (AC.__init__ None (of_dec 1.0 : float))
                             (of_int p) = Ok i) /\
  (256 < str_len (AC.charset (AC.__init__ None (of_dec 1.0 : float))) ->
   forall p, 0 <= p <= 255 ->
             exists i,
               AC.char_index (AC.__init__ None (of_dec 1.0 : float))
                             (of_int p) = Ok i /\
               i < str_len (AC.charset
                              (AC.__init__ None (of_dec 1.0 : float))) - 1).
Proof.
  apply (samples_cover_ramps_in_binary64
           (AC.__init__ None (of_dec 1.0 : float))).
  vm_compute. split; [discriminate | reflexivity].
Defined.

End LookupBinary64.

(* ================================================================= *)
(** ** Contrast values and ramp lengths *)

Section BoostedContrast.

(** With a contrast above 1, every sample below the midpoint comes out
    of the contrast step as 255.0 and is drawn with the glyph of a
    white sample: the subtraction wraps in [uint8], so the sample is
    scaled as if it were 256 levels brighter.  This holds for every
    double above 1.0, +infinity included. *)
Theorem boosted_contrast_whitens_dark_samples (self : AC.t float) (p : Z) :
  (of_dec 1.0 <? AC.contrast self)%float = true -> 0 <= p < 128 ->
  AC.adjust self p = of_int 255 /\
  AC.char_index self (AC.adjust self p) = AC.char_index self (of_int 255) /\
  forall pixels,
    AC.apply_contrast self pixels = map (map (AC.adjust self)) pixels.
Proof.
  intros Hc Hp.
  assert (AC.adjust self p = of_int 255) as E.
  { unfold AC.adjust. apply clip_above.
    exact (boosted_sum (AC.contrast self) p Hc Hp). }
  split; [exact E | split; [now rewrite E |]].
  intros pixels. unfold AC.apply_contrast.
  change (feqb (AC.contrast self) (of_dec 1.0))
    with (AC.contrast self =? of_dec 1.0)%float.
  assert ((AC.contrast self =? of_dec 1.0)%float = false) as ->;
    [| reflexivity].
  assert (finite (of_dec (F:=float) 1.0) /\
          (B2Q (of_dec (F:=float) 1.0) == 1)%Q) as [F1 V1]
    by (split; vm_compute; reflexivity).
  destruct (ltb_true_cases _ _ F1 Hc) as [Inf | [Fc Lc]].
  - rewrite FloatAxioms.eqb_spec, Inf.
    destruct (Prim2SF (of_dec (F:=float) 1.0)) as [| | | ? ? ?] eqn:P1;
      try reflexivity; vm_compute in P1; discriminate.
  - apply not_true_is_false. intros C.
    apply (eqb_finite _ _ Fc F1) in C. lra.
Qed.

Lemma boosted_contrast_whitens_dark_samples_witness :
  AC.adjust (AC.__init__ None (of_dec 1.5 : float)) 100 = of_int 255 /\
  AC.char_index (AC.__init__ None (of_dec 1.5 : float))
                (AC.adjust (AC.__init__ None (of_dec 1.5 : float)) 100)
  = AC.char_index (AC.__init__ None (of_dec 1.5 : float)) (of_int 255) /\
  forall pixels,
    AC.apply_contrast (AC.__init__ None (of_dec 1.5 : float)) pixels
    = map (map (AC.adjust (AC.__init__ None (of_dec 1.5 : float)))) pixels.
Proof.
  apply (boosted_contrast_whitens_dark_samples
           (AC.__init__ None (of_dec 1.5 : float)) 100).
  - vm_compute. reflexivity.
  - lia.
Defined.

End BoostedContrast.

Section ZeroContrastBinary64.

(** A double equal to 0 is a zero (of either sign). *)
Lemma eqb_zero (c : float) :
  (c =? of_int 0)%float = true -> finite c /\ (B2Q c == 0)%Q.
Proof.
  intros E. destruct of_int_zero as [F0 V0].
  assert (finite c) as Fc.
  { unfold finite. rewrite FloatAxioms.eqb_spec in E. unfold SFeqb in E.
    destruct (Prim2SF c) as [s | s | | s m e]; try reflexivity.
    - destruct (Prim2SF (of_int (F:=float) 0)) as [| | | ? ? ?] eqn:P0;
        try (vm_compute in P0; discriminate).
      destruct s; discriminate.
    - destruct (Prim2SF (of_int (F:=float) 0)); discriminate. }
  split; [exact Fc |].
  apply (eqb_finite c _ Fc F0) in E. rewrite V0 in E. exact E.
Qed.

(** [np.clip(x, 0, 255)] leaves a number between 0 and 255 as it
    is. *)
Lemma clip_inside (x : float) :
  finite x -> (0 <= B2Q x <= 255)%Q ->
  minimum (maximum x (of_int 0)) (of_int 255) = x.
Proof.
  intros Fx Bx.
  change (minimum (maximum x (of_int 0)) (of_int 255))
    with (Binary64.fmin (Binary64.fmax x (of_int 0)) (of_int 255)).
  destruct (of_int_sample 0 ltac:(lia)) as [F0 V0].
  destruct (of_int_sample 255 ltac:(lia)) as [F255 V255].
  change (inject_Z 0) with 0%Q in V0. change (inject_Z 255) with 255%Q in V255.
  assert (Prim2SF x <> S754_nan) as Nx
    by (unfold finite in Fx; intros E; rewrite E in Fx; discriminate).
  assert ((x <? of_int 0)%float = false) as L0.
  { apply not_true_is_false. intros C.
    apply (ltb_finite x _ Fx F0) in C. rewrite V0 in C. lra. }
  assert ((of_int 255 <? x)%float = false) as L255.
  { apply not_true_is_false. intros C.
    apply (ltb_finite _ x F255 Fx) in C. rewrite V255 in C. lra. }
  unfold Binary64.fmax. rewrite (is_nan_false x Nx).
  assert (PrimFloat.is_nan (of_int (F:=float) 0) = false) as ->
    by (vm_compute; reflexivity).
  rewrite L0. unfold Binary64.fmin. rewrite (is_nan_false x Nx).
  assert (PrimFloat.is_nan (of_int (F:=float) 255) = false) as ->
    by (vm_compute; reflexivity).
  rewrite L255. reflexivity.
Qed.

(** In binary64 a contrast of zero (0.0 or -0.0) flattens the picture:
    every sample leaves the contrast step as 128.0, so every pixel is
    drawn with the glyph at index N div 2 of the ramp (ramps shorter
    than 2^45). *)
Theorem zero_contrast_flattens_in_binary64 (self : AC.t float) (p : Z) :
  1 <= str_len (AC.charset self) < 2 ^ 45 ->
  (AC.contrast self =? of_int 0)%float = true ->
  finite (AC.adjust self p) /\
  (B2Q (AC.adjust self p) == 128)%Q /\
  AC.char_index self (AC.adjust self p)
  = Ok (str_len (AC.charset self) / 2) /\
  forall pixels,
    AC.apply_contrast self pixels = map (map (AC.adjust self)) pixels.
Proof.
  intros HN Hc. destruct (eqb_zero _ Hc) as [Fc Vc].
  destruct (of_int_sample (uint8_sub p 128) (uint8_sub_range p 128))
    as [Fk Vk].
  destruct (of_int_pos 128 ltac:(lia)) as (Fg & Vg & Pg).
  change (inject_Z 128) with 128%Q in Vg.
  destruct (mul_zero (of_int (uint8_sub p 128)) (AC.contrast self) Fk Fc)
    as [Fm Vm]; [rewrite Vc; ring |].
  set (m := (of_int (uint8_sub p 128) * AC.contrast self)%float) in *.
  assert (B2Q m + B2Q (of_int (F:=float) 128) == 128)%Q as Es
    by (rewrite Vm, Vg; ring).
  destruct (rounding_of_exact _ _ (add_rounding m (of_int 128) Fm Fg))
    as [Fx Vx].
  { rewrite Es. reflexivity. }
  { assert (representable 128) as (M & e & HM & He & E)
      by (change 128%Q with (pow2 7); apply representable_pow2; lia).
    exists M, e. split; [exact HM | split; [exact He |]].
    rewrite Es. exact E. }
  fold (finite (m + of_int 128)%float) in Fx.
  change (B2Q (m + of_int 128)%float
          == B2Q m + B2Q (of_int (F:=float) 128))%Q in Vx.
  rewrite Es in Vx.
  assert (AC.adjust self p = (m + of_int 128)%float) as Ea.
  { unfold AC.adjust. apply clip_inside; [exact Fx | rewrite Vx; lra]. }
  rewrite Ea. split; [exact Fx | split; [exact Vx | split]].
  - destruct (char_index_binary64 self (m + of_int 128)%float) as [E1 _];
      [lia | exact Fx | rewrite Vx; lra |].
    destruct (of_int_sample 128 ltac:(lia)) as [F128 V128].
    destruct (char_index_binary64 self (of_int 128)) as [E2 _];
      [lia | exact F128 | rewrite V128; split; discriminate |].
    assert (scaled_luminance (str_len (AC.charset self))
                             (B2Q (m + of_int 128)%float)
            == scaled_luminance (str_len (AC.charset self))
                                (B2Q (of_int (F:=float) 128)))%Q as Esame.
    { unfold scaled_luminance. rewrite Vx, V128. reflexivity. }
    rewrite E1, (Qfloor_comp _ _ Esame), <- E2.
    rewrite (char_index_of_sample_in_integers self 128 HN ltac:(lia)).
    f_equal. set (N := str_len (AC.charset self)) in *.
    assert (128 * N / 256 = N / 2) as ->.
    { replace (128 * N) with (N * 128) by lia.
      change 256 with (2 * 128).
      rewrite Z.div_mul_cancel_r by lia. reflexivity. }
    apply Z.min_l.
    assert (N / 2 < N) by (apply Z.div_lt; lia). lia.
  - intros pixels. unfold AC.apply_contrast.
    change (feqb (AC.contrast self) (of_dec 1.0))
      with (AC.contrast self =? of_dec 1.0)%float.
    assert ((AC.contrast self =? of_dec 1.0)%float = false) as ->;
      [| reflexivity].
    assert (finite (of_dec (F:=float) 1.0) /\
            (B2Q (of_dec (F:=float) 1.0) == 1)%Q) as [F1 V1]
      by (split; vm_compute; reflexivity).
    apply not_true_is_false. intros C.
    apply (eqb_finite _ _ Fc F1) in C. rewrite Vc, V1 in C. discriminate C.
Qed.

Lemma zero_contrast_flattens_in_binary64_witness :
  finite (AC.adjust (AC.__init__ None (of_int 0 : float)) 7) /\
  (B2Q (AC.adjust (AC.__init__ None (of_int 0 : float)) 7) == 128)%Q /\
  AC.char_index (AC.__init__ None (of_int 0 : float))
                (AC.adjust (AC.__init__ None (of_int 0 : float)) 7)
  = Ok (str_len (AC.charset (AC.__init__ None (of_int 0 : float))) / 2) /\
  forall pixels,
    AC.apply_contrast (AC.__init__ None (of_int 0 : float)) pixels
    = map (map (AC.adjust (AC.__init__ None (of_int 0 : float)))) pixels.
Proof.
  apply (zero_contrast_flattens_in_binary64
           (AC.__init__ None (of_int 0 : float)) 7).
  - vm_compute. split; [discriminate | reflexivity].
  - vm_compute. reflexivity.
Defined.

End ZeroContrastBinary64.

Section ContrastAndRamp.
Local Open Scope Q_scope.

Lemma Qtrunc_comp (x y : Q) : 0 <= x -> x == y -> Qtrunc x = Qtrunc y.
Proof.
  intros Hx E. rewrite (Qtrunc_floor x Hx).
  rewrite (Qtrunc_floor y) by (rewrite <- E; exact Hx).
  now apply Qfloor_comp.
Qed.

Lemma char_index_comp (self : AC.t Q) (x y : Q) :
  (1 <= ramp_length self)%Z -> 0 <= x -> x == y ->
  AC.char_index self x = AC.char_index self y.
Proof.
  intros HN Hx E. rewrite !char_index_exact. f_equal. f_equal.
  apply Qtrunc_comp.
  - apply scaled_nonneg; [exact Hx | lia].
  - now rewrite E.
Qed.

(** The glyph index of an integer sample, in integers. *)
Lemma char_index_of_int (self : AC.t Q) (p : Z) :
  (1 <= ramp_length self)%Z -> (0 <= p)%Z ->
  AC.char_index self (inject_Z p)
  = Ok (Z.min (p * ramp_length self / 256) (ramp_length self - 1)).
Proof.
  intros HN Hp. rewrite char_index_exact. f_equal. f_equal.
  assert (0 <= inject_Z p) as Hq
    by (change 0 with (inject_Z 0); rewrite <- Zle_Qle; exact Hp).
  rewrite Qtrunc_floor by (apply scaled_nonneg; [exact Hq | lia]).
  assert (inject_Z p / inject_Z 256 * inject_Z (ramp_length self)
          == (p * ramp_length self) # 256) as E.
  { rewrite (Qmake_Qdiv (p * ramp_length self) 256), inject_Z_mult.
    field. }
  rewrite (Qfloor_comp _ _ E). reflexivity.
Qed.

(** A contrast of zero flattens the picture: every sample leaves the
    contrast step as 128, so every pixel is drawn with the glyph at
    index N div 2 of the ramp. *)
Theorem zero_contrast_flattens_the_picture (self : AC.t Q) (p : Z) :
  (1 <= ramp_length self)%Z ->
  AC.contrast self == 0 ->
  AC.adjust self p == 128 /\
  AC.char_index self (AC.adjust self p) = Ok (ramp_length self / 2)%Z /\
  forall pixels,
    AC.apply_contrast self pixels = map (map (AC.adjust self)) pixels.
Proof.
  intros HN Hc.
  assert (AC.adjust self p == 128) as E.
  { unfold AC.adjust. cbn [minimum maximum fadd fmul of_int exact].
    rewrite Hc, Qmult_0_r, Qplus_0_l.
    rewrite Q.max_l by discriminate. apply Q.min_l. discriminate. }
  split; [exact E | split].
  - rewrite (char_index_comp self _ (inject_Z 128) HN (proj1 (adjust_range self p)) E).
    rewrite char_index_of_int by lia. f_equal.
    assert (128 * ramp_length self / 256 = ramp_length self / 2)%Z as ->.
    { replace (128 * ramp_length self)%Z with (ramp_length self * 128)%Z
        by lia.
      change 256%Z with (2 * 128)%Z.
      rewrite Z.div_mul_cancel_r by lia. reflexivity. }
    apply Z.min_l.
    assert (ramp_length self / 2 < ramp_length self)%Z
      by (apply Z.div_lt; lia).
    lia.
  - intros pixels. unfold AC.apply_contrast. cbn [feqb exact of_dec].
    destruct (Qeq_bool (AC.contrast self) 1.0) eqn:Eq1; [| reflexivity].
    apply Qeq_bool_iff in Eq1. rewrite Hc in Eq1. discriminate Eq1.
Qed.

Lemma zero_contrast_flattens_the_picture_witness :
  AC.adjust (AC.__init__ None 0) 7 == 128 /\
  AC.char_index (AC.__init__ None 0) (AC.adjust (AC.__init__ None 0) 7)
  = Ok (ramp_length (AC.__init__ None 0%Q) / 2)%Z /\
  forall pixels,
    AC.apply_contrast (AC.__init__ None 0) pixels
    = map (map (AC.adjust (AC.__init__ None 0))) pixels.
Proof.
  apply (zero_contrast_flattens_the_picture (AC.__init__ None 0) 7).
  - vm_compute. discriminate.
  - reflexivity.
Defined.

(** In binary64 too a contrast of 0.0 sends every [uint8] sample to
    128.0. *)
Lemma zero_contrast_binary64 :
  forallb (fun p => PrimFloat.eqb
                      (AC.adjust (AC.__init__ None (of_int 0 : float)) p)
                      (of_int 128))
          (Z_range 0 256) = true.
Proof. vm_compute. reflexivity. Qed.

(** Which glyphs 8-bit samples reach.  A black sample always gets the
    first glyph.  On a ramp of up to 256 glyphs a white sample gets
    the last one and every glyph of the ramp is the glyph of some
    sample; on a longer ramp no sample ever gets the last glyph. *)
Theorem samples_cover_ramps_up_to_256 (self : AC.t Q) :
  (1 <= ramp_length self)%Z ->
  AC.char_index self (inject_Z 0) = Ok 0%Z /\
  ((ramp_length self <= 256)%Z ->
   AC.char_index self (inject_Z 255) = Ok (ramp_length self - 1)%Z /\
   forall i, (0 <= i < ramp_length self)%Z ->
             exists p, (0 <= p <= 255)%Z /\
                       AC.char_index self (inject_Z p) = Ok i) /\
  ((256 < ramp_length self)%Z ->
   forall p, (0 <= p <= 255)%Z ->
             exists i, AC.char_index self (inject_Z p) = Ok i /\
                       (i < ramp_length self - 1)%Z).
Proof.
  intros HN. set (N := ramp_length self) in *.
  split; [| split].
  - rewrite char_index_of_int by (fold N; lia). fold N. f_equal.
    rewrite Z.mul_0_l, Z.div_0_l by lia. lia.
  - intros Hsmall. split.
    + rewrite char_index_of_int by (fold N; lia). fold N. f_equal.
      assert (N - 1 <= 255 * N / 256)%Z
        by (apply Z.div_le_lower_bound; lia).
      lia.
    + intros i Hi.
      set (p := ((256 * i + N - 1) / N)%Z).
      assert (N * p <= 256 * i + N - 1)%Z as Hle
        by (apply Z.mul_div_le; lia).
      assert (256 * i + N - 1 < N * Z.succ p)%Z as Hgt
        by (apply Z.mul_succ_div_gt; lia).
      assert (0 <= p)%Z as Hp0 by (apply Z.div_pos; lia).
      exists p. split; [split; [exact Hp0 | nia] |].
      rewrite char_index_of_int by (fold N; lia). fold N. f_equal.
      assert (i <= p * N / 256)%Z by (apply Z.div_le_lower_bound; nia).
      assert (p * N / 256 < i + 1)%Z by (apply Z.div_lt_upper_bound; nia).
      lia.
  - intros Hbig p Hp. rewrite char_index_of_int by (fold N; lia). fold N.
    eexists. split; [reflexivity |].
    assert (p * N / 256 < N - 1)%Z by (apply Z.div_lt_upper_bound; nia).
    lia.
Qed.

Lemma samples_cover_ramps_up_to_256_witness :
  AC.char_index (AC.__init__ None 1) (inject_Z 0) = Ok 0%Z /\
  ((ramp_length (AC.__init__ None 1%Q) <= 256)%Z ->
   AC.char_index (AC.__init__ None 1) (inject_Z 255)
   = Ok (ramp_length (AC.__init__ None 1%Q) - 1)%Z /\
   forall i, (0 <= i < ramp_length (AC.__init__ None 1%Q))%Z ->
             exists p, (0 <= p <= 255)%Z /\
                       AC.char_index (AC.__init__ None 1) (inject_Z p)
                       = Ok i) /\
  ((256 < ramp_length (AC.__init__ None 1%Q))%Z ->
   forall p, (0 <= p <= 255)%Z ->
             exists i, AC.char_index (AC.__init__ None 1) (inject_Z p) = Ok i /\
                       (i < ramp_length (AC.__init__ None 1%Q) - 1)%Z).
Proof.
  apply (samples_cover_ramps_up_to_256 (AC.__init__ None 1)).
  vm_compute. discriminate.
Defined.

End ContrastAndRamp.

(* ================================================================= *)
(** ** From the negotiated size to the drawn frame *)

Section LinesOfAFrame.
Context {F : Type} `{PyFloat F}.

(** What [to_lines] returns, when it returns: one line per row, one
    ramp character per sample. *)
Lemma to_lines_inv (self : AC.t F) (rows : list (list F)) (text : string) :
  AC.to_lines self rows = Ok text ->
  exists lines,
    text = join (String NL EmptyString) lines /\
    map String.length lines = map (@List.length F) rows /\
    Forall (fun line =>
              Forall (fun ch => In ch (list_ascii_of_string (AC.charset self)))
                     (list_ascii_of_string line))
           lines.
Proof.
  unfold AC.to_lines.
  destruct (mapM _ rows) as [lines |] eqn:E; simpl; [| discriminate].
  intros Et. injection Et as <-. exists lines. split; [reflexivity |].
  apply mapM_Forall2 in E.
  induction E as [| row line rows lines Hrow _ [IH1 IH2]];
    [split; constructor |].
  destruct (mapM (AC._pixel_to_char self) row) as [cs |] eqn:Ecs;
    simpl in Hrow; [| discriminate].
  injection Hrow as <-. apply mapM_Forall2 in Ecs. split.
  - simpl. rewrite string_of_list_length, IH1.
    now rewrite (Forall2_length Ecs).
  - constructor; [| exact IH2].
    rewrite list_ascii_of_string_of_list_ascii.
    induction Ecs as [| v ch vs cs Hv _ IHcs]; constructor; [| exact IHcs].
    eapply pixel_to_char_in_ramp, Hv.
Qed.

Lemma split_without_separator (sep : ascii) (s : string) :
  ~ In sep (list_ascii_of_string s) -> split sep s = [s].
Proof.
  induction s as [| a s IH]; intros Hn; [reflexivity |]. simpl in *.
  destruct (Ascii.eqb a sep) eqn:Ea.
  - apply Ascii.eqb_eq in Ea. tauto.
  - rewrite IH by tauto. reflexivity.
Qed.

Lemma split_line_then_rest (sep : ascii) (l rest : string) :
  ~ In sep (list_ascii_of_string l) ->
  split sep (l ++ String sep rest) = l :: split sep rest.
Proof.
  induction l as [| a l IH]; intros Hn; simpl in *.
  - now rewrite Ascii.eqb_refl.
  - destruct (Ascii.eqb a sep) eqn:Ea.
    + apply Ascii.eqb_eq in Ea. tauto.
    + rewrite IH by tauto. reflexivity.
Qed.

(** ['\n'.join(lines).split('\n') == lines] for at least one line and
    no newline inside a line. *)
Lemma split_join (lines : list string) :
  lines <> [] ->
  Forall (fun l => ~ In NL (list_ascii_of_string l)) lines ->
  split NL (join (String NL EmptyString) lines) = lines.
Proof.
  induction lines as [| l lines IH]; intros Hne Hall; [congruence |].
  inversion Hall as [| ? ? Hl Hrest]; subst.
  destruct lines as [| l' lines'].
  - simpl. now apply split_without_separator.
  - change (join (String NL EmptyString) (l :: l' :: lines'))
      with (l ++ String NL (join (String NL EmptyString) (l' :: lines')))%string.
    rewrite split_line_then_rest by exact Hl.
    rewrite IH; [reflexivity | discriminate | exact Hrest].
Qed.

Lemma convert_frame_rows
    (self : AC.t F) (frame : PIL.Image) (width : Z) (text : string) :
  PIL.well_formed frame ->
  ~ In NL (list_ascii_of_string (AC.charset self)) ->
  AC.convert_frame self frame width = Ok text ->
  exists height,
    AC.target_height frame width = Ok height /\
    (1 <= height ->
     len (split NL text) = height /\
     Forall (fun l => List.length (list_ascii_of_string l) = Z.to_nat width /\
                      Forall (fun ch =>
                                In ch (list_ascii_of_string (AC.charset self)))
                             (list_ascii_of_string l))
            (split NL text)).
Proof.
  intros Hwf Hnl. unfold AC.convert_frame.
  destruct (AC.target_height frame width) as [h |]; simpl; [| discriminate].
  destruct (PIL.resize_gray frame width h) as [pixels |] eqn:Er; simpl;
    [| discriminate].
  assert (pixels = PIL.gray frame width h) as ->.
  { unfold PIL.resize_gray in Er.
    destruct (_ && _); [congruence |].
    destruct (_ || _); [discriminate | congruence]. }
  intros Et. exists h. split; [reflexivity |]. intros Hh.
  destruct (to_lines_inv _ _ _ Et) as (lines & -> & Elen & Halpha).
  rewrite apply_contrast_shape in Elen.
  destruct (Hwf width h) as [Hrows Hshape].
  assert (List.length lines = Z.to_nat h) as Hcount
    by (rewrite <- (length_map String.length), Elen, length_map; exact Hrows).
  rewrite split_join.
  - split; [unfold len; lia |].
    clear Hcount Hrows Et Er. revert lines Elen Halpha.
    induction Hshape as [| row rows [Hrow _] _ IH]; intros lines Elen Halpha;
      destruct lines as [| l lines]; simpl in Elen; try discriminate;
      constructor.
    + inversion Halpha; subst. split; [| assumption].
      injection Elen as E _.
      rewrite <- Hrow, <- E. clear.
      induction l; simpl; congruence.
    + inversion Halpha; subst. injection Elen as _ E. now apply IH.
  - intros E. rewrite E in Hcount. simpl in Hcount. lia.
  - eapply Forall_impl; [| exact Halpha]. intros l Hl Hin.
    rewrite Forall_forall in Hl. apply Hnl, Hl, Hin.
Qed.

(** Whatever the float arithmetic: when the conversion of a
    well-formed picture returns, under a ramp without newline, the
    text splits back into exactly [target_height] lines of [width]
    ramp characters, which is what the player will see. *)
Theorem converted_frame_splits_into_its_rows
    (self : AC.t F) (frame : PIL.Image) (width : Z) (text : string) :
  PIL.well_formed frame ->
  ~ In NL (list_ascii_of_string (AC.charset self)) ->
  AC.convert_frame self frame width = Ok text ->
  exists height,
    AC.target_height frame width = Ok height /\
    (1 <= height ->
     len (split NL text) = height /\
     Forall (fun l => List.length (list_ascii_of_string l) = Z.to_nat width /\
                      Forall (fun ch =>
                                In ch (list_ascii_of_string (AC.charset self)))
                             (list_ascii_of_string l))
            (split NL text)).
Proof. exact (convert_frame_rows self frame width text). Qed.

End LinesOfAFrame.

Lemma converted_frame_splits_into_its_rows_witness :
  exists height,
    AC.target_height (F:=float) (flat_image 1920 1080 128) 70 = Ok height /\
    (1 <= height ->
     len (split NL (lines_of (repeat (string_of_list_ascii
                                        (repeat "+"%char 70)) 19)))
     = height /\
     Forall (fun l =>
               List.length (list_ascii_of_string l) = Z.to_nat 70 /\
               Forall (fun ch =>
                         In ch (list_ascii_of_string
                                  (AC.charset
                                     (AC.__init__ None (of_dec 1.0 : float)))))
                      (list_ascii_of_string l))
            (split NL (lines_of (repeat (string_of_list_ascii
                                           (repeat "+"%char 70)) 19)))).
Proof.
  apply (converted_frame_splits_into_its_rows
           (AC.__init__ None (of_dec 1.0 : float))
           (flat_image 1920 1080 128) 70).
  - apply flat_image_well_formed. lia.
  - vm_compute. intuition discriminate.
  - vm_compute. reflexivity.
Defined.

Section NegotiateThenConvert.

(** The clamp branch of [calculate_frame_size]: the width recomputed
    from the height bound gives the converter a height within that
    bound. *)
Lemma clamped_width_fits (vw vh mh w1 : Z) (q : float) :
  1 <= vw < 2 ^ 31 -> 1 <= vh < 2 ^ 31 -> 0 <= mh < 2 ^ 31 ->
  float_truediv (of_int mh)
                (fmul (fdiv (of_int vh) (of_int vw)) (of_dec 0.5)) = Ok q ->
  to_int q = Ok w1 -> 1 <= w1 < 2 ^ 20 ->
  exists h',
    to_int (fmul (fmul (of_int w1) (fdiv (of_int vh) (of_int (F:=float) vw)))
                 (of_dec 0.5)) = Ok h' /\
    h' <= mh.
Proof.
  intros Hw Hh Hm Eq Ew Hw1.
  destruct (height_value vh vw w1 Hw Hh Hw1) as (Fc & Vc & Bq1 & Bq2).
  set (c := PrimFloat.mul _ _) in *.
  assert (0 <= B2Q c)%Q as Pc.
  { rewrite Vc. pose proof (pow2_pos (-32)).
    assert (0 <= RN (inject_Z w1 * RN (inject_Z vh / inject_Z vw)))%Q
      by (apply RN_nonneg; lra).
    lra. }
  exists (Qfloor (B2Q c)). split; [exact (trunc_nonneg c Fc Pc) |].
  (* the float operations of the negotiation *)
  destruct (of_int_pos vw ltac:(lia)) as (Fvw & Vvw & Pvw).
  destruct (of_int_pos vh ltac:(lia)) as (Fvh & Vvh & Pvh).
  destruct half_value as [Fhalf Vhalf].
  assert (0 < inject_Z vh / inject_Z vw)%Q as Pr
    by (pose proof (pow2_pos (-31)); lra).
  destruct (div_pos (of_int vh) (of_int vw) (pow2 31)) as [Fa Va];
    try assumption;
    [rewrite Vvh, Vvw; apply Bq1 | apply representable_pow2; lia |].
  assert (RN (B2Q (of_int (F:=float) vh) / B2Q (of_int (F:=float) vw))
          == RN (inject_Z vh / inject_Z vw))%Q as ERa
    by (apply RN_comp; rewrite Vvh, Vvw; [exact Pr | reflexivity]).
  rewrite ERa in Va.
  set (a := (of_int vh / of_int vw)%float) in *.
  set (va := RN (inject_Z vh / inject_Z vw)) in *.
  assert (pow2 (-31) <= va <= pow2 31)%Q as Bva.
  { unfold va. split.
    - apply RN_ge_representable; [apply Bq1 | apply representable_pow2; lia].
    - apply RN_le_representable;
        [exact Pr | apply Bq1 | apply representable_pow2; lia]. }
  assert (0 < va)%Q as Pva by (pose proof (pow2_pos (-31)); lra).
  (* the halved ratio is exact *)
  assert (representable (B2Q a * (1 # 2))) as Rh.
  { apply RN_half.
    - apply finite_value_representable; [exact Fa | rewrite Va; exact Pva].
    - rewrite Va.
      assert (pow2 (-1021) <= pow2 (-31))%Q by (apply pow2_le; lia). lra. }
  assert (B2Q a * B2Q (of_dec (F:=float) 0.5) == B2Q a * (1 # 2))%Q as Eh
    by (rewrite Vhalf; reflexivity).
  destruct (rounding_of_exact _ _ (mul_rounding a (of_dec 0.5) Fa Fhalf))
    as [Fa2 Va2].
  { rewrite Eh, Va. lra. }
  { destruct Rh as (M & e & HM & He & E). exists M, e.
    split; [exact HM | split; [exact He |]]. rewrite Eh. exact E. }
  change (SF2Q (Prim2SF (a * of_dec 0.5)%float))
    with (B2Q (a * of_dec 0.5)%float) in Va2.
  fold (finite (a * of_dec 0.5)%float) in Fa2.
  rewrite Eh, Va in Va2.
  set (a2 := (a * of_dec 0.5)%float) in *.
  (* the quotient *)
  unfold float_truediv in Eq.
  change (fmul (fdiv (of_int vh) (of_int vw)) (of_dec 0.5)) with a2 in Eq.
  destruct (feqb a2 (of_int 0)); [discriminate |].
  injection Eq as <-.
  change (fdiv (of_int mh) a2) with (of_int mh / a2)%float in Ew.
  destruct (of_Z_exact mh ltac:(lia)) as [Fmh Vmh].
  change (Binary64.of_Z mh) with (of_int (F:=float) mh) in *.
  assert (0 <= inject_Z mh <= inject_Z (2 ^ 31))%Q as Bmh
    by (split; [change 0%Q with (inject_Z 0) |]; rewrite <- Zle_Qle; lia).
  assert (0 < B2Q a2)%Q as Pa2 by (rewrite Va2; lra).
  assert (B2Q (of_int (F:=float) mh) / B2Q a2
          == inject_Z mh * 2 / va)%Q as Equo
    by (rewrite Vmh, Va2; field; lra).
  assert (0 <= inject_Z mh * 2 / va <= pow2 63)%Q as Bquo.
  { split.
    - apply Qle_shift_div_l; [exact Pva | lra].
    - apply Qle_shift_div_r; [exact Pva |].
      assert (pow2 63 == inject_Z (2 ^ 31) * 2 * pow2 31)%Q as ->
        by reflexivity.
      assert (1 <= pow2 31 * va)%Q.
      { assert (pow2 31 * pow2 (-31) == 1)%Q by reflexivity.
        pose proof (pow2_pos 31). nra. }
      nra. }
  destruct (div_nonneg (of_int mh) a2 (pow2 63)) as [Fq Vq];
    try assumption; try (rewrite Vmh; tauto);
    [rewrite Equo; apply Bquo | apply representable_pow2; lia |].
  rewrite Equo in Vq.
  set (q := (of_int mh / a2)%float) in *.
  assert (0 <= B2Q q)%Q as Pq by (rewrite Vq; apply RN0_nonneg).
  change (to_int q) with (Binary64.trunc q) in Ew.
  rewrite (trunc_nonneg q Fq Pq) in Ew. injection Ew as Ew.
  pose proof (Qfloor_bounds (B2Q q)) as [Fl _]. rewrite Ew in Fl.
  clear Ew.
  (* a positive width means a positive bound *)
  assert (0 < inject_Z mh)%Q as Pmh.
  { destruct (Qlt_le_dec 0 (inject_Z mh)) as [|Z]; [assumption |].
    exfalso. rewrite RN0_nonpos in Vq.
    - rewrite Vq in Fl.
      assert (1 <= inject_Z w1)%Q
        by (change 1%Q with (inject_Z 1); rewrite <- Zle_Qle; lia).
      lra.
    - assert (inject_Z mh == 0)%Q as -> by lra.
      unfold Qdiv. rewrite !Qmult_0_l. lra. }
  assert (1 <= inject_Z mh)%Q as Lmh.
  { change 1%Q with (inject_Z 1). rewrite <- Zle_Qle.
    change 0%Q with (inject_Z 0) in Pmh. rewrite <- Zlt_Qlt in Pmh. lia. }
  assert (0 < inject_Z mh * 2 / va)%Q as Pquo
    by (apply Qlt_shift_div_l; [exact Pva | lra]).
  rewrite (RN0_pos _ Pquo) in Vq.
  (* the error of the quotient and of the product *)
  assert (pow2 (-53) == 1 # 9007199254740992)%Q as Eu by reflexivity.
  destruct (RN_relative (inject_Z mh * 2 / va)) as [_ Uq].
  { apply Qle_shift_div_l; [exact Pva |].
    assert (pow2 (-1022) * pow2 31 <= 2)%Q by (vm_compute; discriminate).
    pose proof (pow2_pos (-1022)). nra. }
  rewrite Eu, <- Vq in Uq.
  destruct (RN_relative (inject_Z w1 * va)) as [_ Up].
  { assert (pow2 (-1022) <= pow2 (-32))%Q by (apply pow2_le; lia).
    lra. }
  rewrite Eu in Up.
  assert (Qfloor (B2Q c) < mh + 1); [| lia].
  rewrite Zlt_Qlt, inject_Z_plus. change (inject_Z 1) with 1%Q.
  pose proof (Qfloor_bounds (B2Q c)) as [Flc _].
  assert (inject_Z mh * 2 / va * va == inject_Z mh * 2)%Q as Ecancel
    by (field; lra).
  assert (1 <= inject_Z w1)%Q as Lw1
    by (change 1%Q with (inject_Z 1); rewrite <- Zle_Qle; lia).
  set (Qc := inject_Z (Qfloor (B2Q c))) in *. set (vc := B2Q c) in *.
  set (M := inject_Z mh) in *. set (W1 := inject_Z w1) in *.
  set (quo := (M * 2 / va)%Q) in *. set (vq := B2Q q) in *.
  set (prod := RN (W1 * va)) in *.
  clearbody Qc vc M W1 quo vq prod va.
  clear - Flc Vc Up Uq Fl Ecancel Bmh Pva Lmh Lw1.
  assert (M <= 2147483648)%Q as BM
    by (change 2147483648%Q with (inject_Z (2 ^ 31)); tauto).
  assert (W1 * va <= quo * va * (1 + (1 # 9007199254740992)))%Q by nra.
  assert (prod <= M * 2 * ((1 + (1 # 9007199254740992))
                           * (1 + (1 # 9007199254740992))))%Q by nra.
  lra.
Qed.

(** The width [calculate_frame_size] negotiates is handed to the
    converter by [main].  In binary64 the conversion at that width w
    succeeds when w * height > 2 * width of the source, and raises
    [ValueError] when w * height < 2 * width (the grid height
    truncates to 0); a source no more than ten times as wide as it is
    high is always converted. *)
Theorem negotiated_width_converts_unless_source_is_too_wide
    (converter : AC.t float) (frame : PIL.Image) (p : TP.probe)
    (self self' : TP.t float) (w h : Z) (tr : list (TP.event float)) :
  PIL.well_formed frame ->
  finite (AC.contrast converter) ->
  1 <= str_len (AC.charset converter) < 2 ^ 63 ->
  1 <= PIL.width frame < 2 ^ 31 -> 1 <= PIL.height frame < 2 ^ 31 ->
  TP.calculate_frame_size p (PIL.width frame) (PIL.height frame) self
  = (TP.Returns (w, h), self', tr) ->
  w < 2 ^ 20 ->
  (2 * PIL.width frame < w * PIL.height frame ->
   exists text, AC.convert_frame converter frame w = Ok text) /\
  (w * PIL.height frame < 2 * PIL.width frame ->
   AC.convert_frame converter frame w = Raise ValueError) /\
  (PIL.width frame <= 10 * PIL.height frame ->
   exists text, AC.convert_frame converter frame w = Ok text).
Proof.
  intros Hwf Fc HN Hw Hh Ecalc Hsmall.
  destruct (calculate_frame_size_bounds _ _ _ _ _ _ _ _ Ecalc) as (Hw20 & _).
  destruct (convert_at_width converter frame w Hwf Fc HN Hw Hh ltac:(lia))
    as (Big & Flat & Tenth).
  split; [exact Big | split; [exact Flat |]].
  intros Hshape. now apply Tenth.
Qed.

Lemma negotiated_width_converts_unless_source_is_too_wide_witness :
  (2 * 1920 < 70 * 1080 ->
   exists text,
     AC.convert_frame (AC.__init__ None (of_dec 1.0 : float))
                      (flat_image 1920 1080 128) 70 = Ok text) /\
  (70 * 1080 < 2 * 1920 ->
   AC.convert_frame (AC.__init__ None (of_dec 1.0 : float))
                    (flat_image 1920 1080 128) 70 = Raise ValueError) /\
  (1920 <= 10 * 1080 ->
   exists text,
     AC.convert_frame (AC.__init__ None (of_dec 1.0 : float))
                      (flat_image 1920 1080 128) 70 = Ok text).
Proof.
  apply (negotiated_width_converts_unless_source_is_too_wide
           (AC.__init__ None (of_dec 1.0 : float))
           (flat_image 1920 1080 128) (sized 100 30)
           player0 (with_size player0 100 30) 70 19
           [TP.Query TP.Shutil; TP.Query TP.Stty; TP.Query TP.Tput]).
  - apply flat_image_well_formed. lia.
  - vm_compute. reflexivity.
  - vm_compute. split; [discriminate | reflexivity].
  - simpl. lia.
  - simpl. lia.
  - vm_compute. reflexivity.
  - lia.
Defined.

(** When the negotiated width exceeds the minimum of 20, a frame
    converted at that width has no more lines than the negotiated
    height and than the bound int(rows * 0.9), which leaves at least
    one terminal row free; so [render_frame] under the bound rows - 1
    that [play] computes writes it unclipped.  In binary64, for a ramp
    without newline, a source and a terminal height of 1 to 2^31 - 1
    and a negotiated width below 2^20. *)
Theorem negotiated_frame_is_drawn_whole
    (converter : AC.t float) (frame : PIL.Image) (p : TP.probe)
    (self self' : TP.t float) (w h : Z) (tr : list (TP.event float))
    (text : string) :
  PIL.well_formed frame ->
  ~ In NL (list_ascii_of_string (AC.charset converter)) ->
  1 <= PIL.width frame < 2 ^ 31 -> 1 <= PIL.height frame < 2 ^ 31 ->
  1 <= TP.terminal_height self' < 2 ^ 31 ->
  TP.calculate_frame_size p (PIL.width frame) (PIL.height frame) self
  = (TP.Returns (w, h), self', tr) ->
  20 < w < 2 ^ 20 ->
  AC.convert_frame converter frame w = Ok text ->
  len (split NL text) <= h /\
  (exists mh, max_height (F:=float) (TP.terminal_height self') = Ok mh /\
              len (split NL text) <= mh /\
              mh <= TP.terminal_height self' - 1) /\
  clipped (TP.terminal_height self' - 1) text = text.
Proof.
  intros Hwf Hnl Hvw Hvh Hrows Ecalc Hw Etext.
  (* the steps of the negotiation *)
  unfold TP.calculate_frame_size, TP.seq in Ecalc.
  destruct (TP._update_terminal_size p self) as [[[[] | e |] s1] tr1];
    try discriminate.
  destruct (fit_frame_pure (PIL.width frame) (PIL.height frame) s1)
    as [o Efit].
  rewrite Efit in Ecalc. injection Ecalc as -> <- _.
  destruct (fit_frame_inv _ _ _ _ _ _ _ Efit)
    as (w0 & a & h0 & mh & Ew0 & Ea & Eh0 & Emh & Branch).
  set (rows := TP.terminal_height s1) in *.
  destruct (max_height_binary64 rows Hrows) as (mh' & Emh' & Bmh).
  rewrite Emh in Emh'. injection Emh' as <-.
  (* the height the converter computes *)
  destruct (convert_frame_rows converter frame w text Hwf Hnl Etext)
    as (h' & Eh' & Hlines).
  assert (1 <= h') as Hpos.
  { destruct (Z_lt_le_dec h' 1) as [Hlt |]; [| assumption].
    rewrite (convert_frame_rejects converter frame w h') in Etext;
      try lia; [discriminate | exact Eh']. }
  destruct (Hlines Hpos) as [Hlen _].
  change (len (split NL text) = h') in Hlen.
  unfold truediv in Ea.
  destruct (PIL.width frame =? 0) eqn:Ez; [discriminate |].
  injection Ea as <-.
  unfold AC.target_height, truediv in Eh'. rewrite Ez in Eh'.
  cbn [bind] in Eh'.
  assert (h' <= h /\ h' <= mh) as [Hh Hmh].
  { destruct Branch as [(Egt & -> & ->) | (Egt & -> & q & w1 & Eq & Ew1 & ->)].
    - (* the first width is kept: the converter repeats the computation *)
      replace (Z.max w0 20) with w0 in * by lia.
      pose proof (eq_trans (eq_sym Eh') Eh0) as Esame.
      injection Esame as ->.
      rewrite Z.gtb_ltb in Egt. apply Z.ltb_ge in Egt. lia.
    - (* the width is recomputed from the height bound *)
      replace (Z.max w1 20) with w1 in * by lia.
      destruct (clamped_width_fits (PIL.width frame) (PIL.height frame)
                  mh w1 q Hvw Hvh ltac:(lia) Eq Ew1 ltac:(lia))
        as (h'' & Eh'' & Hfit).
      pose proof (eq_trans (eq_sym Eh') Eh'') as Esame.
      injection Esame as ->. lia. }
  split; [lia | split].
  - exists mh. split; [exact Emh | lia].
  - unfold clipped.
    destruct (kept_lines (rows - 1) (split NL text)) as (_ & _ & Hall & _).
    cbv zeta in Hall. rewrite Hall by lia. apply join_split.
Qed.

Lemma negotiated_frame_is_drawn_whole_witness :
  len (split NL (lines_of (repeat (string_of_list_ascii
                                     (repeat "+"%char 70)) 19))) <= 19 /\
  (exists mh,
      max_height (F:=float) (TP.terminal_height (with_size player0 100 30))
      = Ok mh /\
      len (split NL (lines_of (repeat (string_of_list_ascii
                                         (repeat "+"%char 70)) 19))) <= mh /\
      mh <= TP.terminal_height (with_size player0 100 30) - 1) /\
  clipped (TP.terminal_height (with_size player0 100 30) - 1)
          (lines_of (repeat (string_of_list_ascii (repeat "+"%char 70)) 19))
  = lines_of (repeat (string_of_list_ascii (repeat "+"%char 70)) 19).
Proof.
  apply (negotiated_frame_is_drawn_whole
           (AC.__init__ None (of_dec 1.0 : float))
           (flat_image 1920 1080 128) (sized 100 30)
           player0 (with_size player0 100 30) 70 19
           [TP.Query TP.Shutil; TP.Query TP.Stty; TP.Query TP.Tput]).
  - apply flat_image_well_formed. lia.
  - vm_compute. intuition discriminate.
  - simpl. lia.
  - simpl. lia.
  - simpl. lia.
  - vm_compute. reflexivity.
  - lia.
  - vm_compute. reflexivity.
Defined.

End NegotiateThenConvert.

(* ================================================================= *)
(** ** The frame extractor *)

Section Extraction.
Context {F Frame : Type} `{PyFloat F}.

Lemma extract_frame_opened (v : cv2.Video F Frame) (n : nat)
    (self : VFE.t F Frame) :
  opened_at v n self ->
  VFE.extract_frame self =
  match nth_error (cv2.v_frames v) n with
  | Some frame => (Some frame, moved_to v (S n) self)
  | None => (None, moved_to v n self)
  end.
Proof.
  unfold opened_at, VFE.extract_frame. intros ->.
  cbn. destruct (nth_error _ n); reflexivity.
Qed.

Lemma moved_to_opened (v : cv2.Video F Frame) (n : nat)
    (self : VFE.t F Frame) :
  opened_at v n (moved_to v n self).
Proof. reflexivity. Qed.

Lemma moved_to_twice (v : cv2.Video F Frame) (n m : nat)
    (self : VFE.t F Frame) :
  moved_to v m (moved_to v n self) = moved_to v m self.
Proof. reflexivity. Qed.

Lemma skipn_next {A} (l : list A) (n : nat) (x : A) :
  nth_error l n = Some x -> skipn n l = x :: skipn (S n) l.
Proof.
  revert n. induction l as [| y l IH]; intros [| n] E; try discriminate.
  - injection E as ->. reflexivity.
  - simpl in E. exact (IH n E).
Qed.

Lemma extract_loop_drains (v : cv2.Video F Frame) (fuel : nat) :
  forall (n : nat) (frames : list Frame) (self : VFE.t F Frame),
    opened_at v n self ->
    (List.length (cv2.v_frames v) - n < fuel)%nat ->
    VFE.extract_loop fuel frames self
    = Some ((frames ++ skipn n (cv2.v_frames v))%list,
            moved_to v (Nat.max n (List.length (cv2.v_frames v))) self).
Proof.
  induction fuel as [| fuel IH]; intros n frames self Hopen Hfuel; [lia |].
  simpl. rewrite (extract_frame_opened v n self Hopen).
  destruct (nth_error (cv2.v_frames v) n) as [frame |] eqn:En.
  - assert (n < List.length (cv2.v_frames v))%nat as Hn
      by (apply nth_error_Some; congruence).
    rewrite (IH (S n) (frames ++ [frame])%list (moved_to v (S n) self)
               (moved_to_opened v (S n) self)) by lia.
    rewrite moved_to_twice, <- app_assoc.
    replace (Nat.max (S n) (List.length (cv2.v_frames v)))
      with (Nat.max n (List.length (cv2.v_frames v))) by lia.
    rewrite (skipn_next (cv2.v_frames v) n frame En). reflexivity.
  - apply nth_error_None in En.
    rewrite skipn_all2 by lia. rewrite app_nil_r.
    replace (Nat.max n (List.length (cv2.v_frames v))) with n by lia.
    reflexivity.
Qed.

(** On an open capture, [extract_all_frames] terminates (any fuel above
    the number of unread frames is enough), returns exactly the frames
    not yet read, in order, and leaves the capture at its end: a
    second call returns the empty list. *)
Theorem extract_all_frames_returns_the_unread_frames
    (v : cv2.Video F Frame) (n fuel : nat) (self : VFE.t F Frame) :
  opened_at v n self ->
  (List.length (cv2.v_frames v) - n < fuel)%nat ->
  let self' := moved_to v (Nat.max n (List.length (cv2.v_frames v))) self in
  VFE.extract_all_frames fuel self = Some (skipn n (cv2.v_frames v), self') /\
  VFE.extract_all_frames fuel self' = Some ([], self') /\
  VFE.extract_frame self' = (None, self').
Proof.
  intros Hopen Hfuel self'. unfold VFE.extract_all_frames.
  split; [| split].
  - rewrite (extract_loop_drains v fuel n [] self Hopen Hfuel). reflexivity.
  - rewrite (extract_loop_drains v fuel _ [] self' (moved_to_opened v _ self))
      by lia.
    unfold self'. rewrite moved_to_twice, skipn_all2 by lia.
    do 3 f_equal. lia.
  - rewrite (extract_frame_opened v _ self' (moved_to_opened v _ self)).
    destruct (nth_error _ _) eqn:En; [| reflexivity].
    assert (nth_error (cv2.v_frames v)
              (Nat.max n (List.length (cv2.v_frames v))) <> None) as Hn
      by congruence.
    apply nth_error_Some in Hn. lia.
Qed.

(** Opening a path that leads to a video copies its properties into
    the extractor and a following [extract_all_frames] returns every
    frame of the video; [release] then drops the capture but keeps the
    size later handed to [calculate_frame_size]. *)
Theorem open_then_extract_all_returns_the_video
    (files : string -> option (cv2.Video F Frame)) (path : string)
    (v : cv2.Video F Frame) (fuel : nat) :
  files path = Some v ->
  (List.length (cv2.v_frames v) < fuel)%nat ->
  exists opened drained,
    VFE.open files (VFE.__init__ path) = (true, opened) /\
    VFE.width opened = cv2.v_width v /\
    VFE.height opened = cv2.v_height v /\
    VFE.frame_count opened = cv2.v_frame_count v /\
    VFE.fps opened = cv2.v_fps v /\
    VFE.extract_all_frames fuel opened = Some (cv2.v_frames v, drained) /\
    VFE.cap (VFE.release drained) = None /\
    VFE.width (VFE.release drained) = cv2.v_width v /\
    VFE.height (VFE.release drained) = cv2.v_height v.
Proof.
  intros Hfile Hfuel.
  unfold VFE.open, VFE.__init__. cbn. rewrite Hfile.
  eexists. eexists. split; [reflexivity |].
  do 4 (split; [reflexivity |]).
  split; [| split; [| split]].
  - unfold VFE.extract_all_frames.
    rewrite (extract_loop_drains v fuel 0 []) by (reflexivity || lia).
    reflexivity.
  - reflexivity.
  - reflexivity.
  - reflexivity.
Qed.

(** [reset] on an open capture that seeks exactly rewinds it: wherever
    the extractor stood, the next [extract_all_frames] returns the
    whole video again. *)
Theorem reset_replays_the_video
    (v : cv2.Video F Frame) (n fuel : nat) (self : VFE.t F Frame) :
  opened_at v n self ->
  (List.length (cv2.v_frames v) < fuel)%nat ->
  opened_at v 0 (VFE.reset self) /\
  VFE.extract_all_frames fuel (VFE.reset self)
  = Some (cv2.v_frames v,
          moved_to v (List.length (cv2.v_frames v)) self).
Proof.
  intros Hopen Hfuel.
  assert (VFE.reset self = moved_to v 0 self) as ->
    by (unfold VFE.reset; rewrite Hopen; reflexivity).
  split; [reflexivity |].
  unfold VFE.extract_all_frames.
  rewrite (extract_loop_drains v fuel 0 [] _ (moved_to_opened v 0 self))
    by lia.
  rewrite moved_to_twice. reflexivity.
Qed.

(** An extractor that was never opened, whose [open] failed or that
    was released is inert: [extract_frame] gives [None],
    [extract_all_frames] stops at once with the empty list, [reset]
    changes nothing; releasing always leaves the extractor closed,
    and a failed [open] leaves it closed with its properties
    untouched (the zeros of the constructor). *)
Theorem closed_extractor_is_inert
    (files : string -> option (cv2.Video F Frame)) (fuel : nat)
    (self : VFE.t F Frame) :
  (closed self ->
   VFE.extract_frame self = (None, self) /\
   VFE.extract_all_frames (S fuel) self = Some ([], self) /\
   VFE.reset self = self) /\
  closed (VFE.release self) /\
  VFE.release (VFE.release self) = VFE.release self /\
  (files (VFE.video_path self) = None ->
   fst (VFE.open files self) = false /\
   closed (VFE.__enter__ files self) /\
   VFE.width (VFE.__enter__ files self) = VFE.width self /\
   VFE.height (VFE.__enter__ files self) = VFE.height self /\
   VFE.frame_count (VFE.__enter__ files self) = VFE.frame_count self).
Proof.
  assert (closed (VFE.release self)) as Hrel
    by (destruct self as [pa [c |] fp fc wi he]; exact I).
  split; [| split; [exact Hrel | split]].
  - unfold closed. intros Hclosed.
    assert (VFE.extract_frame self = (None, self)) as E.
    { unfold VFE.extract_frame. destruct (VFE.cap self) as [c |];
        [rewrite Hclosed |]; reflexivity. }
    split; [exact E | split].
    + unfold VFE.extract_all_frames. simpl. rewrite E. reflexivity.
    + unfold VFE.reset. destruct self as [pa [c |] fp fc wi he];
        simpl in *; [| reflexivity].
      unfold cv2.set_pos_frames. rewrite Hclosed. reflexivity.
  - destruct self as [pa [c |] fp fc wi he]; reflexivity.
  - intros Hfile. unfold VFE.__enter__, VFE.open, closed. cbn.
    rewrite Hfile. cbn. repeat split.
Qed.

End Extraction.

Lemma extract_all_frames_returns_the_unread_frames_witness :
  let v := {| cv2.v_fps := 25%Q; cv2.v_frame_count := 3; cv2.v_width := 4;
              cv2.v_height := 2; cv2.v_frames := ["a"; "b"; "c"]%string |} in
  let self := moved_to v 1 (VFE.__init__ "clip.mp4") in
  let self' := moved_to v (Nat.max 1 (List.length (cv2.v_frames v))) self in
  VFE.extract_all_frames 3 self = Some (skipn 1 (cv2.v_frames v), self') /\
  VFE.extract_all_frames 3 self' = Some ([], self') /\
  VFE.extract_frame self' = (None, self').
Proof.
  intros v self.
  apply (extract_all_frames_returns_the_unread_frames v 1 3 self).
  - reflexivity.
  - simpl. lia.
Defined.

Lemma open_then_extract_all_returns_the_video_witness :
  let v := {| cv2.v_fps := 25%Q; cv2.v_frame_count := 3; cv2.v_width := 4;
              cv2.v_height := 2; cv2.v_frames := ["a"; "b"; "c"]%string |} in
  exists opened drained,
    VFE.open (only_file "clip.mp4" (Some v)) (VFE.__init__ "clip.mp4")
    = (true, opened) /\
    VFE.width opened = cv2.v_width v /\
    VFE.height opened = cv2.v_height v /\
    VFE.frame_count opened = cv2.v_frame_count v /\
    VFE.fps opened = cv2.v_fps v /\
    VFE.extract_all_frames 4 opened = Some (cv2.v_frames v, drained) /\
    VFE.cap (VFE.release drained) = None /\
    VFE.width (VFE.release drained) = cv2.v_width v /\
    VFE.height (VFE.release drained) = cv2.v_height v.
Proof.
  intros v.
  apply (open_then_extract_all_returns_the_video
           (only_file "clip.mp4" (Some v)) "clip.mp4" v 4).
  - reflexivity.
  - simpl. lia.
Defined.

Lemma reset_replays_the_video_witness :
  let v := {| cv2.v_fps := 25%Q; cv2.v_frame_count := 3; cv2.v_width := 4;
              cv2.v_height := 2; cv2.v_frames := ["a"; "b"; "c"]%string |} in
  let self := moved_to v 2 (VFE.__init__ "clip.mp4") in
  opened_at v 0 (VFE.reset self) /\
  VFE.extract_all_frames 4 (VFE.reset self)
  = Some (cv2.v_frames v, moved_to v (List.length (cv2.v_frames v)) self).
Proof.
  intros v self. apply (reset_replays_the_video v 2 4 self).
  - reflexivity.
  - simpl. lia.
Defined.

(* ================================================================= *)
(** ** The conversion loop and the width of [main] *)

Section Conversion.
Context {F : Type} `{PyFloat F}.

Lemma mapM_app {A B} (f : A -> result B) (l1 l2 : list A) :
  mapM f (l1 ++ l2)
  = bind (mapM f l1)
         (fun ys1 => bind (mapM f l2) (fun ys2 => Ok (ys1 ++ ys2)%list)).
Proof.
  induction l1 as [| x l1 IH]; simpl.
  - destruct (mapM f l2); reflexivity.
  - destruct (f x) as [y | e]; simpl; [| reflexivity].
    rewrite IH. destruct (mapM f l1) as [ys1 | e]; simpl; [| reflexivity].
    destruct (mapM f l2); reflexivity.
Qed.

Lemma conversion_reports_S (i total : Z) (n : nat) :
  conversion_reports (F:=F) i total (S n)
  = (conversion_reports i total 1 ++ conversion_reports (i + 1) total n)%list.
Proof. cbn [conversion_reports]. now rewrite app_nil_r. Qed.

Lemma convert_loop_step (converter : AC.t F) (frame : PIL.Image)
    (frames : list PIL.Image) (i total w : Z) (done : list string)
    (text : string) (self : TP.t F) :
  AC.convert_frame converter frame w = Ok text ->
  Main.convert_loop converter (frame :: frames) i total w done self
  = let '(o, self', tr) :=
      Main.convert_loop converter frames (i + 1) total w
                        (done ++ [text])%list self in
    (o, self', conversion_reports i total 1 ++ tr).
Proof.
  intros E. cbn [Main.convert_loop conversion_reports]. rewrite E.
  rewrite seq_lift_ok. unfold TP.seq at 1.
  destruct (_ || _); cbn;
    destruct (Main.convert_loop converter frames (i + 1) total w
                                (done ++ [text])%list self) as [[o s] tr];
    reflexivity.
Qed.

Lemma convert_loop_ok (converter : AC.t F) (w total : Z) (self : TP.t F) :
  forall (frames : list PIL.Image) (texts done : list string) (i : Z),
    mapM (fun frame => AC.convert_frame converter frame w) frames = Ok texts ->
    Main.convert_loop converter frames i total w done self
    = (TP.Returns (done ++ texts)%list, self,
       conversion_reports i total (List.length frames)).
Proof.
  induction frames as [| frame frames IH]; intros texts done i E.
  - injection E as <-. simpl. now rewrite app_nil_r.
  - simpl in E.
    destruct (AC.convert_frame converter frame w) as [text |] eqn:Ef;
      simpl in E; [| discriminate].
    destruct (mapM _ frames) as [texts' |] eqn:Em; simpl in E;
      [| discriminate].
    injection E as <-.
    rewrite (convert_loop_step _ _ _ _ _ _ _ text self Ef).
    rewrite (IH texts' (done ++ [text])%list (i + 1) eq_refl).
    cbn [List.length].
    rewrite (conversion_reports_S i total (List.length frames)), <- app_assoc.
    reflexivity.
Qed.

Lemma convert_loop_fails (converter : AC.t F) (w total : Z) (self : TP.t F)
    (bad : PIL.Image) (rest : list PIL.Image) (e : exn) :
  AC.convert_frame converter bad w = Raise e ->
  forall (before : list PIL.Image) (texts done : list string) (i : Z),
    mapM (fun frame => AC.convert_frame converter frame w) before = Ok texts ->
    Main.convert_loop converter (before ++ bad :: rest) i total w done self
    = (TP.Raises e, self, conversion_reports i total (List.length before)).
Proof.
  intros Ebad.
  induction before as [| frame before IH]; intros texts done i E.
  - cbn [app Main.convert_loop]. rewrite Ebad. reflexivity.
  - simpl in E.
    destruct (AC.convert_frame converter frame w) as [text |] eqn:Ef;
      simpl in E; [| discriminate].
    destruct (mapM _ before) as [texts' |] eqn:Em; simpl in E;
      [| discriminate].
    cbn [app].
    rewrite (convert_loop_step _ _ _ _ _ _ _ text self Ef).
    rewrite (IH texts' (done ++ [text])%list (i + 1) eq_refl).
    cbn [List.length].
    rewrite (conversion_reports_S i total (List.length before)).
    reflexivity.
Qed.

Lemma conversion_reports_end (total : Z) (n : nat) :
  forall i : Z,
    i + Z.of_nat (S n) = total ->
    exists earlier : list (TP.event F),
      conversion_reports i total (S n)
      = (earlier ++ [TP.Print (Main.converted_line total total)])%list.
Proof.
  induction n as [| n IH]; intros i Hi.
  - cbn [conversion_reports].
    replace (i + 1 =? total) with true by (symmetry; apply Z.eqb_eq; lia).
    rewrite orb_true_r. replace (i + 1) with total by lia.
    exists []. reflexivity.
  - destruct (IH (i + 1)) as [earlier E]; [lia |].
    change (conversion_reports i total (S (S n)))
      with ((if ((i + 1) mod 100 =? 0) || (i + 1 =? total)
             then [TP.Print (F:=F) (Main.converted_line (i + 1) total)]
             else []) ++ conversion_reports (i + 1) total (S n))%list.
    rewrite E. eexists. rewrite app_assoc. reflexivity.
Qed.

Lemma conversion_reports_only_print (total : Z) (n : nat) :
  forall i : Z,
    Forall (fun ev : TP.event F => exists line, ev = TP.Print line)
           (conversion_reports i total n).
Proof.
  induction n as [| n IH]; intros i; simpl; [constructor |].
  apply Forall_app. split; [| apply IH].
  destruct (_ || _); repeat constructor. eauto.
Qed.

(** The conversion loop of [main] is all or nothing: when every frame
    converts it returns the texts of [convert_frame], one per frame
    and in order; at the first frame whose conversion raises, the
    exception leaves the loop and no text is returned.  Either way the
    player is untouched and only progress lines are printed, the last
    of a complete run being "Converted n/n frames". *)
Theorem convert_frames_is_all_or_nothing
    (converter : AC.t F) (frames : list PIL.Image) (w : Z) (self : TP.t F) :
  let reports := conversion_reports (F:=F) 0 (len frames) in
  (forall texts,
      mapM (fun frame => AC.convert_frame converter frame w) frames = Ok texts ->
      Main.convert_frames converter frames w self
      = (TP.Returns texts, self, reports (List.length frames)) /\
      Forall2 (fun frame text => AC.convert_frame converter frame w = Ok text)
              frames texts) /\
  (forall before bad rest texts e,
      frames = (before ++ bad :: rest)%list ->
      mapM (fun frame => AC.convert_frame converter frame w) before = Ok texts ->
      AC.convert_frame converter bad w = Raise e ->
      Main.convert_frames converter frames w self
      = (TP.Raises e, self, reports (List.length before))) /\
  (forall n, Forall (fun ev => exists line, ev = TP.Print line) (reports n)) /\
  (frames <> [] ->
   exists earlier,
     reports (List.length frames)
     = (earlier ++ [TP.Print (Main.converted_line (len frames)
                                                  (len frames))])%list).
Proof.
  intros reports. unfold Main.convert_frames.
  split; [| split; [| split]].
  - intros texts E. split; [| exact (mapM_Forall2 _ _ _ E)].
    exact (convert_loop_ok converter w (len frames) self frames texts [] 0 E).
  - intros before bad rest texts e -> E Ebad.
    exact (convert_loop_fails converter w _ self bad rest e Ebad
                              before texts [] 0 E).
  - intros n. apply conversion_reports_only_print.
  - intros Hne. destruct frames as [| frame frames]; [congruence |].
    apply conversion_reports_end. reflexivity.
Qed.

Lemma nonpositive_width_fails (converter : AC.t F) (frame : PIL.Image)
    (w : Z) :
  1 <= PIL.width frame -> 1 <= PIL.height frame -> w < 1 ->
  exists e, AC.convert_frame converter frame w = Raise e.
Proof.
  intros Hw Hh Hneg.
  destruct (AC.target_height (F:=F) frame w) as [h | e] eqn:Eh.
  - exists ValueError.
    apply (convert_frame_rejects converter frame w h Hw Hh Eh). now left.
  - exists e. unfold AC.convert_frame. rewrite Eh. reflexivity.
Qed.

(** How [main] chooses the width.  A non-zero [--width] is used as it
    is: the terminal is not queried and the minimum of 20 is not
    applied, so a negative width reaches the converter, where every
    frame fails.  [--width 0] is falsy and behaves exactly as no
    [--width]: the width is negotiated with the terminal, is at least
    20, and the negotiated size is printed. *)
Theorem explicit_width_bypasses_the_negotiation
    (w : Z) (p : TP.probe) (ew eh : Z) (self : TP.t F) :
  (w <> 0 -> Main.target_width (Some w) p ew eh self = (TP.Returns w, self, [])) /\
  (w < 0 ->
   forall converter frame,
     1 <= PIL.width frame -> 1 <= PIL.height frame ->
     exists e, AC.convert_frame converter frame w = Raise e) /\
  Main.target_width (Some 0) p ew eh self = Main.target_width None p ew eh self /\
  (forall w' self' tr,
      Main.target_width None p ew eh self = (TP.Returns w', self', tr) ->
      20 <= w' /\
      exists h' tr0,
        10 <= h' /\
        TP.calculate_frame_size p ew eh self = (TP.Returns (w', h'), self', tr0) /\
        tr = (tr0 ++ [TP.Print ("ASCII frame size: " ++ str_of_int w'
                                  ++ "x" ++ str_of_int h')%string])%list).
Proof.
  split; [| split; [| split]].
  - intros Hw. unfold Main.target_width.
    replace (w =? 0) with false by (symmetry; apply Z.eqb_neq; exact Hw).
    reflexivity.
  - intros Hneg converter frame Hfw Hfh.
    apply nonpositive_width_fails; lia.
  - reflexivity.
  - intros w' self' tr. unfold Main.target_width, TP.seq.
    destruct (TP.calculate_frame_size p ew eh self)
      as [[[[w0 h0] | e |] s1] tr1] eqn:Ecalc; try discriminate.
    cbn. intros Eq. injection Eq as <- <- <-.
    destruct (calculate_frame_size_bounds _ _ _ _ _ _ _ _ Ecalc)
      as (Hw & Hh & _).
    split; [exact Hw |]. exists h0, tr1. repeat split; assumption.
Qed.

End Conversion.

Section AutomaticPipeline.

(** With the automatic width, in binary64, [main] converts every frame
    of a source that is at most ten times as wide as it is high: the
    loop returns one text per frame and cannot raise. *)
Theorem automatic_width_converts_every_frame
    (converter : AC.t float) (frames : list PIL.Image) (p : TP.probe)
    (ew eh w : Z) (player player' : TP.t float)
    (tr : list (TP.event float)) :
  finite (AC.contrast converter) ->
  1 <= str_len (AC.charset converter) < 2 ^ 63 ->
  Forall (fun frame => PIL.well_formed frame /\
                       PIL.width frame = ew /\ PIL.height frame = eh) frames ->
  1 <= ew < 2 ^ 31 -> eh < 2 ^ 31 -> ew <= 10 * eh ->
  Main.target_width None p ew eh player = (TP.Returns w, player', tr) ->
  w < 2 ^ 20 ->
  exists texts,
    Main.convert_frames converter frames w player'
    = (TP.Returns texts, player',
       conversion_reports 0 (len frames) (List.length frames)) /\
    List.length texts = List.length frames.
Proof.
  intros Fc HN Hframes Hew Heh Hshape Ewidth Hsmall.
  assert (20 <= w) as Hw.
  { revert Ewidth. unfold Main.target_width, TP.seq.
    destruct (TP.calculate_frame_size p ew eh player)
      as [[[[w0 h0] | e |] s1] tr1] eqn:Ecalc; try discriminate.
    cbn. intros Eq. injection Eq as <- _ _.
    now destruct (calculate_frame_size_bounds _ _ _ _ _ _ _ _ Ecalc). }
  destruct (mapM_all_ok (fun frame => AC.convert_frame converter frame w)
                        frames) as [texts Etexts].
  { eapply Forall_impl; [| exact Hframes].
    intros frame (Hwf & Efw & Efh).
    destruct (convert_at_width converter frame w Hwf Fc HN)
      as (_ & _ & Tenth); try lia.
    apply Tenth; lia. }
  exists texts. split.
  - exact (convert_loop_ok converter w (len frames) player' frames texts [] 0
                           Etexts).
  - symmetry. exact (Forall2_length (mapM_Forall2 _ _ _ Etexts)).
Qed.

Lemma automatic_width_converts_every_frame_witness :
  exists texts,
    Main.convert_frames (AC.__init__ None (of_dec 1.0 : float))
                        [flat_image 1920 1080 128; flat_image 1920 1080 40]
                        70 (with_size player0 100 30)
    = (TP.Returns texts, with_size player0 100 30,
       conversion_reports 0
         (len [flat_image 1920 1080 128; flat_image 1920 1080 40])
         (List.length [flat_image 1920 1080 128; flat_image 1920 1080 40])) /\
    List.length texts
    = List.length [flat_image 1920 1080 128; flat_image 1920 1080 40].
Proof.
  apply (automatic_width_converts_every_frame
           (AC.__init__ None (of_dec 1.0 : float))
           [flat_image 1920 1080 128; flat_image 1920 1080 40]
           (sized 100 30) 1920 1080 70 player0
           (with_size player0 100 30)
           [TP.Query TP.Shutil; TP.Query TP.Stty; TP.Query TP.Tput;
            TP.Print "ASCII frame size: 70x19"]).
  - vm_compute. reflexivity.
  - vm_compute. split; [discriminate | reflexivity].
  - repeat constructor; apply flat_image_well_formed; lia.
  - lia.
  - lia.
  - lia.
  - vm_compute. reflexivity.
  - lia.
Defined.

End AutomaticPipeline.
